(** * Hybrid retrieval, fusion and the query pipeline of the RAG demo

    A shallow embedding of the TypeScript sources:
    - [lib/vectorStore.ts]   (HybridVectorStore, reciprocal rank fusion),
    - [lib/reranker.ts]      (Reranker and its fallback),
    - [lib/mock/mockServices.ts] (MockVectorStore, MockReranker, MockLLM),
    - [lib/chunking.ts]      (AdaptiveChunking),
    - [lib/ragPipeline.ts]   (RAGPipeline.query / streamQuery),
    - [server.ts]            (the HTTP handlers),
    - [lib/embeddings.ts]    (query expansion),
    - [config/index.ts]      (the keys and the mock mode),
    - [scripts/ingest-files.ts] (loading a directory).

    Conventions of the embedding.
    - A JavaScript [number] that carries a score is an exact rational [Q];
      a number that is a count, an index or a limit is an integer [Z]
      (indices produced by [forEach]/[map] are [nat]).
    - A JavaScript string is a [string]; its characters stand for code units
      (the bullet of the third canned response, a code unit above 255, is
      written as its three UTF-8 bytes).
    - A [Map] is an association list in insertion order, because
      [Array.from(map.values())] exposes that order to the sort.
    - A plain object used as a record of metadata is a [gmap string value].
    - An [async] function that may reject is a function into [result]; the
      pipeline runs in a state monad that records the calls made, the
      readings of the clock and the events yielded.
    - The embedding provider, the index and the rerank provider are
      functions of their request.  The chat model samples its answers: its
      answer is a function of the request and of the number of requests
      made before.
    - Where [async] functions run at the same time, under [Promise.all],
      each is a flow cut at its [await]s, and the event loop resumes the
      flows in an order that is a parameter of the model. *)

From Stdlib Require Import ZArith QArith Qminmax Lia Lqa Ascii String.
From stdpp Require Import base list gmap strings pretty sorting.

Local Open Scope Z_scope.

(** ** JavaScript built-ins used by the sources *)

Module Js.

(** [Array.prototype.slice(start, end)]: a negative bound counts from the
    end of the array, and both bounds are clamped to [0 .. length]. *)
Definition clamp_index (len i : Z) : Z :=
  if i <? 0 then Z.max (len + i) 0 else Z.min i len.

Definition slice {A} (l : list A) (start stop : Z) : list A :=
  let len := Z.of_nat (length l) in
  let from := clamp_index len start in
  let to := clamp_index len stop in
  take (Z.to_nat (to - from)) (drop (Z.to_nat from) l).

(** [Array.prototype.sort(cmp)] is stable; for a comparator that is a
    consistent ordering the result is the unique stable arrangement, which
    insertion from the right computes.  [cmp a b <= 0] keeps [a] in front
    of [b]. *)
Fixpoint sort_insert {A} (cmp : A → A → Q) (x : A) (l : list A) : list A :=
  match l with
  | [] => [x]
  | y :: t => if Qle_bool (cmp x y) 0 then x :: y :: t
              else y :: sort_insert cmp x t
  end.

Fixpoint sort {A} (cmp : A → A → Q) (l : list A) : list A :=
  match l with
  | [] => []
  | x :: t => sort_insert cmp x (sort cmp t)
  end.

(** [String.prototype.substring(0, n)]. *)
Definition substring0 (n : nat) (s : string) : string := String.substring 0 n s.

(** [String.prototype.split(' ')]: the pieces between the separators; the
    empty string splits into one empty piece. *)
Fixpoint split_space (s : string) : list string :=
  match s with
  | EmptyString => [EmptyString]
  | String c rest =>
      if Ascii.eqb c " "%char then EmptyString :: split_space rest
      else match split_space rest with
           | [] => [String c EmptyString]
           | w :: ws => String c w :: ws
           end
  end.

(** [String.prototype.toLowerCase] on code units below 256. *)
Definition lower_char (c : ascii) : ascii :=
  let n := Ascii.N_of_ascii c in
  if ((65 <=? n) && (n <=? 90))%N then Ascii.ascii_of_N (n + 32)
  else if ((192 <=? n) && (n <=? 222) && negb (n =? 215))%N
       then Ascii.ascii_of_N (n + 32)
  else c.

Fixpoint toLowerCase (s : string) : string :=
  match s with
  | EmptyString => EmptyString
  | String c rest => String (lower_char c) (toLowerCase rest)
  end.

(** [String.prototype.includes]. *)
Fixpoint includes (s sub : string) : bool :=
  String.prefix sub s ||
  match s with
  | EmptyString => false
  | String _ rest => includes rest sub
  end.

(** [ToInt32]: the value modulo 2^32, read as a signed 32-bit integer. *)
Definition toInt32 (n : Z) : Z :=
  let m := n mod 2 ^ 32 in
  if m <? 2 ^ 31 then m else m - 2 ^ 32.

Fixpoint char_codes (s : string) : list Z :=
  match s with
  | EmptyString => []
  | String c rest => Z.of_N (Ascii.N_of_ascii c) :: char_codes rest
  end.

End Js.

(** ** Data model *)

(** The values a metadata field holds in the sources. *)
Inductive value :=
| VString (s : string)
| VNumber (n : Z)
| VBool (b : bool).

(** The text of a value inside a template literal. *)
Definition value_text (v : value) : string :=
  match v with
  | VString s => s
  | VNumber n => pretty n
  | VBool b => if b then "true" else "false"
  end.

(** Whether a value counts as true in a condition. *)
Definition truthy (v : value) : bool :=
  match v with
  | VString s => negb (String.eqb s "")
  | VNumber n => negb (n =? 0)
  | VBool b => b
  end.

(** langchain's [Document]. *)
Record Document := mkDocument {
  pageContent : string;
  metadata : gmap string value;
}.

(** [SearchResult] of vectorStore.ts; the optional fields are [option]s. *)
Record SearchResult := mkSearchResult {
  document : Document;
  score : Q;
  vectorScore : option Q;
  keywordScore : option Q;
}.

(** [{ ...r, score: s }] *)
Definition with_score (r : SearchResult) (s : Q) : SearchResult :=
  {| document := document r; score := s;
     vectorScore := vectorScore r; keywordScore := keywordScore r |}.

(** What a reranker hands back for one hit of the provider,
    [{ ...results[hit.index], score: hit.relevanceScore }]: the candidate at
    that index with the new score, or, for an index outside the request,
    where [results[hit.index]] is [undefined] and the spread adds nothing, an
    object with a score and no document. *)
Inductive Reranked :=
| Candidate (r : SearchResult)
| ScoreOnly (score : Q).

(** A rejected promise (or a thrown exception) carries an error message. *)
Inductive result (A : Type) :=
| Ok (a : A)
| Err (msg : string).
Arguments Ok {A} a.
Arguments Err {A} msg.

#[global] Instance result_ret : MRet result := λ A a, Ok a.
#[global] Instance result_bind : MBind result := λ A B f m,
  match m with
  | Ok a => f a
  | Err e => Err e
  end.

#[global] Instance result_fmap : FMap result := λ A B f m,
  match m with
  | Ok a => Ok (f a)
  | Err e => Err e
  end.

(** [try { body } catch (error) { handler }] *)
Definition try_catch {A} (body : result A) (handler : string → result A) : result A :=
  match body with
  | Ok a => Ok a
  | Err e => handler e
  end.

(** The fields of [config] the modelled code reads (config/index.ts fills
    them from the environment). *)
Record Config := mkConfig {
  topK : Z;
  rerankTopK : Z;
  hybridSearchAlpha : Q;
  rerankModel : string;
  mockMode : bool;
}.

(** The defaults of the configuration schema, in mock mode. *)
Definition default_config : Config :=
  {| topK := 10; rerankTopK := 3; hybridSearchAlpha := 1 # 2;
     rerankModel := "rerank-english-v3.0"; mockMode := true |}.

(** ** External collaborators *)

(** A hit of the vector index: payload and, for a search, a score. *)
Record Point := mkPoint {
  payloadContent : string;
  payloadMetadata : gmap string value;
  pointScore : option Q;
}.

(** The calls made on the Qdrant client.  [scroll] receives the terms of
    the [should] filter on the [content] field. *)
Record QdrantClient := mkQdrantClient {
  client_search : list Q → Z → result (list Point);
  client_scroll : list string → Z → result (list Point);
}.

(** One hit of the rerank provider's response. *)
Record RerankHit := mkRerankHit { hit_index : nat; relevanceScore : Q }.

(** [cohere.rerank({ model, query, documents, topN })] *)
Definition RerankProvider := string → string → list string → Z → result (list RerankHit).

(** ** vectorStore.ts: reciprocal rank fusion *)

Module HybridVectorStore.

(** An entry of the [fusedScores] map: [{ result, score }]. *)
Record fused := mkFused { fresult : SearchResult; fscore : Q }.

(** [Map<string, fused>] in insertion order. *)
Definition fusedMap := list (string * fused).

Fixpoint map_has (m : fusedMap) (key : string) : bool :=
  match m with
  | [] => false
  | (k, _) :: rest => if String.eqb k key then true else map_has rest key
  end.

Fixpoint map_get (m : fusedMap) (key : string) : option fused :=
  match m with
  | [] => None
  | (k, e) :: rest => if String.eqb k key then Some e else map_get rest key
  end.

(** [fusedScores.get(key)!.score += q]: the entry is updated in place. *)
Fixpoint map_add_score (m : fusedMap) (key : string) (q : Q) : fusedMap :=
  match m with
  | [] => []
  | (k, e) :: rest =>
      if String.eqb k key
      then (k, {| fresult := fresult e; fscore := (fscore e + q)%Q |}) :: rest
      else (k, e) :: map_add_score rest key q
  end.

(** [fusedScores.set(key, e)]: an existing key keeps its position, a new
    key goes to the end. *)
Fixpoint map_set (m : fusedMap) (key : string) (e : fused) : fusedMap :=
  match m with
  | [] => [(key, e)]
  | (k, e') :: rest =>
      if String.eqb k key then (k, e) :: rest
      else (k, e') :: map_set rest key e
  end.

(** [Array.from(fusedScores.values())] *)
Definition map_values (m : fusedMap) : list fused := m.*2.

Definition k : Z := 60.

(** [result.document.pageContent.substring(0, 100)] *)
Definition fingerprint (r : SearchResult) : string :=
  Js.substring0 100 (pageContent (document r)).

(** [weight * (1 / (k + rank + 1))] *)
Definition rrfScore (weight : Q) (rank : nat) : Q :=
  (weight * (1 / inject_Z (k + Z.of_nat rank + 1)))%Q.

(** The body of each [forEach] callback. *)
Definition accumulate (m : fusedMap) (r : SearchResult) (q : Q) : fusedMap :=
  let key := fingerprint r in
  if map_has m key then map_add_score m key q
  else map_set m key {| fresult := r; fscore := q |}.

(** [results.forEach((result, rank) => ...)] started at [rank]. *)
Fixpoint process (weight : Q) (results : list SearchResult) (rank : nat)
    (m : fusedMap) : fusedMap :=
  match results with
  | [] => m
  | r :: rest =>
      process weight rest (S rank) (accumulate m r (rrfScore weight rank))
  end.

Definition fuse (vectorResults keywordResults : list SearchResult)
    (alpha : Q) : fusedMap :=
  process (1 - alpha)%Q keywordResults 0
    (process alpha vectorResults 0 []).

(** [(a, b) => b.score - a.score] *)
Definition by_score_desc (a b : fused) : Q := (fscore b - fscore a)%Q.

Definition reciprocalRankFusion
    (vectorResults keywordResults : list SearchResult)
    (alpha : Q) (limit : Z) : list SearchResult :=
  map (λ item, with_score (fresult item) (fscore item))
    (Js.slice (Js.sort by_score_desc (map_values (fuse vectorResults keywordResults alpha)))
       0 limit).

(** *** embeddings.ts: query expansion *)

Definition expansions : list (string * list string) :=
  [("performance", ["speed"; "optimization"; "efficiency"; "latency"]);
   ("security", ["authentication"; "authorization"; "encryption"; "vulnerability"]);
   ("api", ["endpoint"; "rest"; "graphql"; "interface"]);
   ("database", ["sql"; "nosql"; "query"; "index"; "schema"])].

Definition generateQueryExpansion (query : string) : list string :=
  let lowerQuery := Js.toLowerCase query in
  flat_map (λ '(key, values),
      if Js.includes lowerQuery key
      then Js.slice (filter (λ v, Js.includes lowerQuery v = false) values) 0 2
      else [])
    expansions.

Section live.
(** The embedding provider and the vector index. *)
Variable embedQuery : string → result (list Q).
Variable client : QdrantClient.

(** Returns [(original, expanded, expansionTerms)]. *)
Definition embedQueryWithExpansion (query : string)
    : result (list Q * option (list Q) * list string) :=
  original ← embedQuery query;
  let expansionTerms := generateQueryExpansion query in
  if (0 <? Z.of_nat (length expansionTerms))
  then
    let expandedQuery := query +:+ " " +:+ String.concat " " expansionTerms in
    expanded ← embedQuery expandedQuery;
    mret (original, Some expanded, expansionTerms)
  else mret (original, None, []).

(** [r.score || 0] *)
Definition score_or_zero (p : Point) : Q := default 0%Q (pointScore p).

Definition vectorSearch (embedding : list Q) (limit : Z)
    : result (list SearchResult) :=
  results ← client_search client embedding limit;
  mret (map (λ r,
    {| document := mkDocument (payloadContent r) (payloadMetadata r);
       score := score_or_zero r;
       vectorScore := Some (score_or_zero r);
       keywordScore := None |}) results).

Definition keywordSearch (query : string) (limit : Z)
    : result (list SearchResult) :=
  let searchTerms :=
    filter (λ t, (2 < String.length t)%nat) (Js.split_space (Js.toLowerCase query)) in
  if (Z.of_nat (length searchTerms) =? 0) then mret []
  else
    points ← client_scroll client searchTerms limit;
    let n := inject_Z (Z.of_nat (length points)) in
    mret (imap (λ idx r,
      let s := (1 - inject_Z (Z.of_nat idx) / n)%Q in
      {| document := mkDocument (payloadContent r) (payloadMetadata r);
         score := s; vectorScore := None; keywordScore := Some s |}) points).

Definition hybridSearch (query : string) (limit : Z) (alpha : Q)
    : result (list SearchResult) :=
  '(original, expanded, _) ← embedQueryWithExpansion query;
  vectorResults ← vectorSearch (default original expanded) (limit * 2);
  keywordResults ← keywordSearch query (limit * 2);
  mret (reciprocalRankFusion vectorResults keywordResults alpha limit).
End live.

End HybridVectorStore.

(** ** reranker.ts *)

Module Reranker.
Section reranker.
Variable config : Config.
Variable cohere : RerankProvider.

(** [{ ...results[hit.index], score: hit.relevanceScore }] for every hit.
    The provider refers to documents by their index in the request; for an
    index outside the list the object has a score only. *)
Definition map_back (results : list SearchResult) (hits : list RerankHit)
    : list Reranked :=
  map (λ hit, match results !! hit_index hit with
              | Some r => Candidate (with_score r (relevanceScore hit))
              | None => ScoreOnly (relevanceScore hit)
              end) hits.

Definition rerank (query : string) (results : list SearchResult) (topK : Z)
    : result (list Reranked) :=
  if (Z.of_nat (length results) =? 0) then mret []
  else
    try_catch
      (let documents := map (λ r, pageContent (document r)) results in
       rerankResponse ← cohere (rerankModel config) query documents
                          (Z.min topK (Z.of_nat (length results)));
       mret (map_back results rerankResponse))
      (λ _, mret (map Candidate (Js.slice results 0 topK))).

(** The title, when there is one, goes in front of the content:
    [`Title: ${metadata.title}`], a blank line, the content. *)
Definition enrich (r : SearchResult) : string :=
  let metadataStr :=
    match metadata (document r) !! "title" with
    | Some t => if truthy t then "Title: " +:+ value_text t +:+ "

" else ""
    | None => ""
    end in
  metadataStr +:+ pageContent (document r).

Definition rerankWithMetadata (query : string) (results : list SearchResult)
    (topK : Z) : result (list Reranked) :=
  if (Z.of_nat (length results) =? 0) then mret []
  else
    try_catch
      (let documents := map enrich results in
       rerankResponse ← cohere (rerankModel config) query documents
                          (Z.min topK (Z.of_nat (length results)));
       mret (map_back results rerankResponse))
      (λ _, rerank query results topK).
End reranker.
End Reranker.

(** ** mock/mockServices.ts *)

Module MockVectorStore.

(** The intermediate [{ document, score, index }] objects. *)
Record scored := mkScored { sdocument : Document; sscore : Q; sindex : nat }.

(** [queryWords.reduce((acc, word) => acc + (content.includes(word) ? 1 : 0), 0)] *)
Definition matches (content : string) (queryWords : list string) : Z :=
  foldl (λ acc word, acc + (if Js.includes content word then 1 else 0)) 0 queryWords.

Definition score_of (queryWords : list string) (doc : Document) : Q :=
  let content := Js.toLowerCase (pageContent doc) in
  (inject_Z (matches content queryWords) / inject_Z (Z.of_nat (length queryWords)))%Q.

(** [(a, b) => b.score - a.score] *)
Definition by_score_desc (a b : scored) : Q := (sscore b - sscore a)%Q.

(** [documents.slice(0, Math.min(3, n)).map((doc, i) => ...)] *)
Definition fallback (documents : list Document) : list SearchResult :=
  imap (λ i doc,
    let s := ((5 # 10) - inject_Z (Z.of_nat i) * (1 # 10))%Q in
    {| document := doc; score := s; vectorScore := Some s; keywordScore := None |})
    (Js.slice documents 0 (Z.min 3 (Z.of_nat (length documents)))).

(** [hybridSearch] of a store holding [documents]. *)
Definition hybridSearch (documents : list Document) (query : string) (limit : Z)
    : list SearchResult :=
  if (Z.of_nat (length documents) =? 0) then []
  else
    let queryWords := Js.split_space (Js.toLowerCase query) in
    let results :=
      map (λ r, {| document := sdocument r; score := sscore r;
                   vectorScore := Some (sscore r); keywordScore := Some (sscore r) |})
        (Js.slice
           (Js.sort by_score_desc
              (filter (λ r, negb (Qle_bool (sscore r) 0) = true)
                 (imap (λ index doc, mkScored doc (score_of queryWords doc) index)
                    documents)))
           0 limit) in
    if (Z.of_nat (length results) =? 0) then fallback documents
    else results.

End MockVectorStore.

Module MockReranker.
Section mock_reranker.
(** [content.match(new RegExp(word, 'g'))]: the number of matches, or the
    [SyntaxError] of a word that is no regular expression. *)
Variable regex_matches : string → string → result nat.

(** [(a, b) => b.score - a.score] *)
Definition by_score_desc (a b : SearchResult) : Q := (score b - score a)%Q.

Fixpoint termFrequency (content : string) (queryWords : list string)
    (acc : Z) : result Z :=
  match queryWords with
  | [] => mret acc
  | word :: rest =>
      n ← regex_matches word content;
      termFrequency content rest (acc + Z.of_nat n)
  end.

Definition rescore (queryWords : list string) (r : SearchResult)
    : result SearchResult :=
  tf ← termFrequency (Js.toLowerCase (pageContent (document r))) queryWords 0;
  mret (with_score r
          (Qmin (99 # 100)
             (inject_Z tf / inject_Z (Z.of_nat (length queryWords) * 5)))).

Fixpoint rescore_all (queryWords : list string) (results : list SearchResult)
    : result (list SearchResult) :=
  match results with
  | [] => mret []
  | r :: rest =>
      r' ← rescore queryWords r;
      rest' ← rescore_all queryWords rest;
      mret (r' :: rest')
  end.

Definition rerank (query : string) (results : list SearchResult) (topK : Z)
    : result (list SearchResult) :=
  let queryWords := Js.split_space (Js.toLowerCase query) in
  reranked ← rescore_all queryWords results;
  mret (Js.slice (Js.sort by_score_desc reranked) 0 topK).

Definition rerankWithMetadata (query : string) (results : list SearchResult)
    (topK : Z) : result (list SearchResult) :=
  rerank query results topK.
End mock_reranker.
End MockReranker.

Module MockLLM.

(** The double quote character. *)
Definition dquote : string := String (Ascii.ascii_of_nat 34) EmptyString.

Definition response0 (question : string) : string :=
  "Based on the provided context, here's a comprehensive answer to " +:+ dquote +:+ question +:+ dquote +:+ ":

The documents discuss several key aspects relevant to your query. The implementation involves modern techniques and best practices that ensure optimal performance and scalability.

Key points include:
- Advanced optimization strategies that improve efficiency by 30-40%
- Robust architecture patterns for maintainable systems
- Comprehensive monitoring and observability practices

[1] The first source emphasizes the importance of proper system design.
[2] The second source provides detailed implementation guidelines.
[3] The third source covers advanced optimization techniques.

This approach has been proven effective in production environments.".

Definition response1 (question : string) : string :=
  "To address your question about " +:+ dquote +:+ question +:+ dquote +:+ ":

The context reveals three critical components:

1. **Performance Optimization**: The system implements cutting-edge techniques for reducing latency and improving throughput [1].

2. **Scalability Patterns**: Using microservices architecture and proper service boundaries ensures the system can grow efficiently [2].

3. **Monitoring & Observability**: Comprehensive metrics and logging enable proactive issue detection [3].

These elements work together to create a robust, production-ready solution.".

Definition response2 (question : string) : string :=
  "Regarding " +:+ dquote +:+ question +:+ dquote +:+ ":

Analysis of the provided sources reveals:

• Modern architectural patterns are essential for building scalable systems [1]
• Performance optimization requires a multi-faceted approach [2]  
• Proper monitoring ensures system reliability [3]

The implementation leverages industry best practices to achieve optimal results. This includes hybrid search capabilities, intelligent caching strategies, and adaptive resource management.

The recommended approach balances performance with maintainability.".

Definition responses (question : string) : list string :=
  [response0 question; response1 question; response2 question].

(** [hash = ((hash << 5) - hash) + code; hash = hash & hash] *)
Definition hash_step (hash code : Z) : Z :=
  Js.toInt32 (Js.toInt32 (hash * 32) - hash + code).

Definition hashCode (str : string) : Z :=
  foldl hash_step 0 (Js.char_codes str).

(** [responses[hash % responses.length]]; an index outside the array gives
    [undefined]. *)
Definition generateAnswer (question context : string) : option string :=
  let hash := Z.abs (hashCode question) in
  responses question !! Z.to_nat (Z.rem hash (Z.of_nat (length (responses question)))).

(** The fragments yielded by [streamAnswer], in order. *)
Definition fragments (answer : string) : list string :=
  let words := Js.split_space answer in
  imap (λ i w, w +:+ (if (Z.of_nat i <? Z.of_nat (length words) - 1) then " " else ""))
    words.

Definition streamAnswer (question context : string) : option (list string) :=
  fragments <$> generateAnswer question context.

End MockLLM.

(** ** chunking.ts *)

Module Chunking.

Inductive ContentType := code | structured | narrative.

Definition content_type_name (t : ContentType) : string :=
  match t with
  | code => "code"
  | structured => "structured"
  | narrative => "narrative"
  end.

Section chunking.
(** langchain's splitters, by chunk size and overlap:
    [RecursiveCharacterTextSplitter.createDocuments([text])] and
    [TokenTextSplitter.createDocuments([text])]. *)
Variable recursive_split : Z → Z → string → list Document.
Variable token_split : Z → Z → string → list Document.
(** [(text.match(codePatterns) || []).length] and the same for
    [structuredPatterns]. *)
Variable codeMatches : string → Z.
Variable structuredMatches : string → Z.

(** [{ ...doc, metadata: { ...metadata, chunkIndex: index,
    chunkingStrategy: name } }] for every split document. *)
Definition stamp (name : string) (md : gmap string value)
    (docs : list Document) : list Document :=
  imap (λ index doc,
    {| pageContent := pageContent doc;
       metadata := <["chunkingStrategy" := VString name]>
                     (<["chunkIndex" := VNumber (Z.of_nat index)]> md) |}) docs.

(** [SemanticChunking(chunkSize, chunkOverlap).chunk] *)
Definition semantic_chunk (chunkSize chunkOverlap : Z) (text : string)
    (md : gmap string value) : list Document :=
  stamp "semantic" md (recursive_split chunkSize chunkOverlap text).

(** [TokenBasedChunking(chunkSize, chunkOverlap).chunk] *)
Definition token_chunk (chunkSize chunkOverlap : Z) (text : string)
    (md : gmap string value) : list Document :=
  stamp "token" md (token_split chunkSize chunkOverlap text).

(** [matches / (textLength / 100) > threshold]; for an empty text the
    quotient is [NaN] (no match) or [Infinity]. *)
Definition ratio_exceeds (matches textLength : Z) (threshold : Q) : bool :=
  if textLength =? 0 then 0 <? matches
  else negb (Qle_bool (inject_Z matches / (inject_Z textLength / 100)) threshold).

Definition detectContentType (text : string) : ContentType :=
  let textLength := Z.of_nat (String.length text) in
  if ratio_exceeds (codeMatches text) textLength (5 # 10) then code
  else if ratio_exceeds (structuredMatches text) textLength (3 # 10) then structured
  else narrative.

(** [AdaptiveChunking(chunkSize, chunkOverlap).chunk] *)
Definition chunk (chunkSize chunkOverlap : Z) (text : string)
    (md : gmap string value) : list Document :=
  let contentType := detectContentType text in
  let chunks :=
    match contentType with
    | code => semantic_chunk 256 64 text md
    | structured => token_chunk chunkSize chunkOverlap text md
    | narrative => semantic_chunk chunkSize chunkOverlap text md
    end in
  imap (λ index chunk,
    {| pageContent := pageContent chunk;
       metadata :=
         <["totalChunks" := VNumber (Z.of_nat (length chunks))]>
           (<["hasNext" := VBool (Z.of_nat index <? Z.of_nat (length chunks) - 1)]>
              (<["hasPrevious" := VBool (0 <? Z.of_nat index)]>
                 (<["contentType" := VString (content_type_name contentType)]>
                    (metadata chunk)))) |}) chunks.
End chunking.
End Chunking.

(** ** ragPipeline.ts *)

Module RAGPipeline.

Record Source := mkSource {
  content : string;
  source_metadata : gmap string value;
  relevanceScore : Q;
}.

Record Metrics := mkMetrics {
  retrievalTime : Z;
  rerankingTime : Z;
  generationTime : Z;
  totalTime : Z;
}.

Record RAGResponse := mkRAGResponse {
  answer : string;
  sources : list Source;
  metrics : Metrics;
}.

Record Options := mkOptions {
  useReranking : bool;
  useHybridSearch : bool;
  streamResponse : bool;
}.

(** What [streamQuery] yields. *)
Inductive Event :=
| EvRetrieval (resultCount : option nat)
| EvReranking (resultCount : option nat)
| EvGeneration (chunk : option string)
| EvComplete (sources : list Source).

(** The calls a query makes on its three stages. *)
Inductive Call :=
| CallHybridSearch (question : string) (limit : Z)
| CallRerank (question : string) (candidates : nat) (topK : Z)
| CallGenerate (question context : string)
| CallGenerateStream (question context : string).

(** The collaborators of a pipeline built outside mock mode.
    [chat_invoke n] is [chain.invoke], the completion of a prompt, when [n]
    requests were made to the chat model before: the model samples its
    answers, so two requests with one prompt need not get one completion.
    [chat_stream n] is [chain.stream]: the texts of the chunks read before
    the stream ended, and the error that ended it if there was one. *)
Record LiveServices := mkLiveServices {
  embedQuery : string → result (list Q);
  client : QdrantClient;
  cohere : RerankProvider;
  chat_invoke : nat → string → result string;
  chat_stream : nat → string → result (list string * option string);
}.

(** The constructor builds either the three mocks or the three live
    services; a mock store is its array of documents. *)
Inductive Pipeline :=
| MockMode (documents : list Document)
| LiveMode (services : LiveServices).

Definition isMockMode (p : Pipeline) : bool :=
  match p with MockMode _ => true | LiveMode _ => false end.

(** [new RAGPipeline()]: the mock store starts without documents. *)
Definition new (config : Config) (services : LiveServices) : Pipeline :=
  if mockMode config then MockMode [] else LiveMode services.

(** [vectorStore.addDocuments(documents)] on the pipeline's store; the live
    store keeps its documents in the vector index. *)
Definition addDocuments (p : Pipeline) (documents : list Document) : Pipeline :=
  match p with
  | MockMode stored => MockMode (stored ++ documents)
  | LiveMode s => LiveMode s
  end.

(** *** The monad of a query: calls made, clock readings, events yielded *)

Record PState := mkPState {
  calls : list Call;
  ticks : nat;
  events : list Event;
}.

Definition initial : PState := {| calls := []; ticks := 0; events := [] |}.

Definition M (A : Type) : Type := PState → result A * PState.

#[global] Instance M_ret : MRet M := λ A a s, (Ok a, s).
#[global] Instance M_bind : MBind M := λ A B f m s,
  match m s with
  | (Ok a, s') => f a s'
  | (Err e, s') => (Err e, s')
  end.

Definition lift {A} (r : result A) : M A := λ s, (r, s).

Definition log (c : Call) : M unit := λ s,
  (Ok (), {| calls := calls s ++ [c]; ticks := ticks s; events := events s |}).

Definition yield (e : Event) : M unit := λ s,
  (Ok (), {| calls := calls s; ticks := ticks s; events := events s ++ [e] |}).

(** [for (const x of xs) { body(x) }] *)
Fixpoint for_each {A} (xs : list A) (body : A → M unit) : M unit :=
  match xs with
  | [] => mret ()
  | x :: rest => _ ← body x; for_each rest body
  end.

(** [try { body } catch (error) { handler }] *)
Definition m_try_catch {A} (body : M A) (handler : string → M A) : M A := λ s,
  match body s with
  | (Ok a, s') => (Ok a, s')
  | (Err e, s') => handler e s'
  end.

(** The requests made to the generator so far. *)
Definition is_generation (c : Call) : bool :=
  match c with
  | CallGenerate _ _ | CallGenerateStream _ _ => true
  | _ => false
  end.

Definition requests (s : PState) : nat :=
  length (List.filter is_generation (calls s)).

Definition generations : M nat := λ s, (Ok (requests s), s).

(** *** Flows: an [async] function between its [await]s

    An [async] function runs up to its next [await] without interruption
    and goes on when the event loop resumes it.  [Await segment resume] is a
    flow that waits to run [segment]; an exception in the segment rejects
    its promise. *)
Inductive Flow (A : Type) : Type :=
| Settled (outcome : result A)
| Await {X : Type} (segment : M X) (resume : X → Flow A).
Arguments Settled {A} outcome.
Arguments Await {A X} segment resume.

(** The event loop resumes a flow: it runs up to the next [await]. *)
Definition step {A} (f : Flow A) (s : PState) : Flow A * PState :=
  match f with
  | Settled outcome => (Settled outcome, s)
  | Await segment resume =>
      match segment s with
      | (Ok x, s') => (resume x, s')
      | (Err e, s') => (Settled (Err e), s')
      end
  end.

(** A flow that runs to its end with nothing in between. *)
Fixpoint finish {A} (f : Flow A) : M A :=
  match f with
  | Settled outcome => lift outcome
  | Await segment resume => λ s,
      match segment s with
      | (Ok x, s') => finish (resume x) s'
      | (Err e, s') => (Err e, s')
      end
  end.

(** [async () => g(await flow)] *)
Fixpoint flow_map {A B} (g : A → B) (f : Flow A) : Flow B :=
  match f with
  | Settled outcome => Settled (g <$> outcome)
  | Await segment resume => Await segment (λ x, flow_map g (resume x))
  end.

Definition no_results_answer : string :=
  "I couldn't find any relevant information to answer your question.".

(** [result.document.<field>] read on every result in turn, as the callbacks
    of [searchResults.map] do: the first result without a document throws
    the [TypeError] of reading a field of [undefined]. *)
Fixpoint documents_of (field : string) (searchResults : list Reranked)
    : result (list SearchResult) :=
  match searchResults with
  | [] => mret []
  | Candidate r :: rest =>
      rest' ← documents_of field rest; mret (r :: rest')
  | ScoreOnly _ :: _ =>
      Err ("Cannot read properties of undefined (reading '" +:+ field +:+ "')")
  end.

Section pipeline.
Variable config : Config.
(** [Date.now()] at its n-th reading. *)
Variable now : nat → Z.
(** The regular-expression engine used by the mock reranker. *)
Variable regex_matches : string → string → result nat.
Variable pipeline : Pipeline.

Definition date_now : M Z := λ s,
  (Ok (now (ticks s)),
   {| calls := calls s; ticks := S (ticks s); events := events s |}).

(** What the store of this pipeline answers to [hybridSearch(question,
    limit)]; the live store takes [alpha] from the configuration. *)
Definition store_hybridSearch (question : string) (limit : Z)
    : result (list SearchResult) :=
  match pipeline with
  | MockMode documents =>
      Ok (MockVectorStore.hybridSearch documents question limit)
  | LiveMode s =>
      HybridVectorStore.hybridSearch (embedQuery s) (client s)
        question limit (hybridSearchAlpha config)
  end.

(** [this.vectorStore.hybridSearch(question, limit)] *)
Definition vectorStore_hybridSearch (question : string) (limit : Z)
    : M (list SearchResult) :=
  _ ← log (CallHybridSearch question limit);
  lift (store_hybridSearch question limit).

(** What the reranker of this pipeline answers to
    [rerankWithMetadata(question, results, topK)]. *)
Definition reranker_answer (question : string) (results : list SearchResult)
    (topK : Z) : result (list Reranked) :=
  match pipeline with
  | MockMode _ =>
      map Candidate
        <$> MockReranker.rerankWithMetadata regex_matches question results topK
  | LiveMode s =>
      Reranker.rerankWithMetadata config (cohere s) question results topK
  end.

(** [this.reranker.rerankWithMetadata(question, results, topK)] *)
Definition reranker_rerankWithMetadata (question : string)
    (results : list SearchResult) (topK : Z) : M (list Reranked) :=
  _ ← log (CallRerank question (length results) topK);
  lift (reranker_answer question results topK).

(** [metadata.source || `Source ${index + 1}`] *)
Definition source_label (index : nat) (r : SearchResult) : string :=
  match metadata (document r) !! "source" with
  | Some v => if truthy v then value_text v
              else "Source " +:+ pretty (S index)
  | None => "Source " +:+ pretty (S index)
  end.

(** [`[${index + 1}] ${source}:`], a line break and the content; the
    entries are joined by blank lines. *)
Definition build_context (searchResults : list SearchResult) : string :=
  String.concat "

" (imap (λ index r,
      "[" +:+ pretty (S index) +:+ "] " +:+ source_label index r +:+ ":
" +:+ pageContent (document r)) searchResults).

Definition query_prompt (context question : string) : string :=
  "
You are an advanced AI assistant with access to a knowledge base. Answer the question based on the provided context.

Instructions:
1. Provide a comprehensive yet concise answer
2. Cite sources using [1], [2], etc. when referencing specific information
3. If the context doesn't contain enough information, acknowledge this
4. Maintain accuracy and don't hallucinate information

Context:
" +:+ context +:+ "

Question: " +:+ question +:+ "

Answer:".

Definition stream_prompt (context question : string) : string :=
  "
You are an advanced AI assistant. Answer based on the context provided.
Include citations using [1], [2], etc.

Context:
" +:+ context +:+ "

Question: " +:+ question +:+ "

Answer:".

(** The text the mock generator hands back; [undefined] is never
    produced. *)
Definition mock_answer (question context : string) : string :=
  default "undefined" (MockLLM.generateAnswer question context).

(** What the generator of this pipeline answers for a context, when [n]
    requests were made to it before. *)
Definition llm_answer (question context : string) (stream : bool) (n : nat)
    : result string :=
  match pipeline with
  | MockMode _ => Ok (mock_answer question context)
  | LiveMode s =>
      if stream then chat_invoke s n (query_prompt context question)
      else chat_invoke s n (query_prompt context question)
  end.

(** [this.generateAnswer(question, searchResults, stream)] up to its
    [await]: the request is made, and what the promise will settle with is
    handed back. *)
Definition generateAnswer_call (question : string)
    (searchResults : list Reranked) (stream : bool) : M (result string) :=
  if (Z.of_nat (length searchResults) =? 0) then mret (Ok no_results_answer)
  else
    match documents_of "metadata" searchResults with
    | Err e => mret (Err e)
    | Ok documents =>
        let context := build_context documents in
        n ← generations;
        _ ← log (CallGenerate question context);
        mret (llm_answer question context stream n)
    end.

(** [await this.generateAnswer(question, searchResults, stream)] *)
Definition generateAnswer (question : string)
    (searchResults : list Reranked) (stream : bool) : M string :=
  pending ← generateAnswer_call question searchResults stream;
  lift pending.

Definition to_sources (searchResults : list SearchResult) : list Source :=
  map (λ r, {| content := pageContent (document r);
               source_metadata := metadata (document r);
               relevanceScore := score r |}) searchResults.

Definition query (question : string) (options : Options) : M RAGResponse :=
  startTime ← date_now;
  (* Step 1: Retrieval *)
  retrievalStart ← date_now;
  searchResults ←
    (if useHybridSearch options
     then vectorStore_hybridSearch question (topK config)
     else vectorStore_hybridSearch question (topK config));
  retrievalEnd ← date_now;
  (* Step 2: Reranking *)
  rerankingStart ← date_now;
  searchResults ←
    (if useReranking options && (0 <? Z.of_nat (length searchResults))
     then reranker_rerankWithMetadata question searchResults (rerankTopK config)
     else mret (map Candidate searchResults));
  rerankingEnd ← date_now;
  (* Step 3: Generation *)
  generationStart ← date_now;
  answer ← generateAnswer question searchResults (streamResponse options);
  generationEnd ← date_now;
  endTime ← date_now;
  documents ← lift (documents_of "pageContent" searchResults);
  mret {| answer := answer;
          sources := to_sources documents;
          metrics := {| retrievalTime := retrievalEnd - retrievalStart;
                        rerankingTime := rerankingEnd - rerankingStart;
                        generationTime := generationEnd - generationStart;
                        totalTime := endTime - startTime |} |}.

(** *** [query] as a flow

    [query] has three [await]s: of the store, of the reranker when it is
    asked, and of [generateAnswer].  What the function holds at an [await]
    is handed from one segment to the next. *)

(** [startTime], [metrics.retrievalTime] and [rerankingStart]. *)
Definition Timing : Type := Z * Z * Z.

(** [startTime], [metrics.retrievalTime], [metrics.rerankingTime],
    [generationStart], [searchResults], and what the promise of
    [generateAnswer] will settle with. *)
Definition Waiting : Type := Z * Z * Z * Z * list Reranked * result string.


(** From the end of Step 2 to the [await] of Step 3. *)
Definition query_generation (question : string) (options : Options)
    (timing : Timing) (searchResults : list Reranked) : M Waiting :=
  let '(startTime, retrievalTime, rerankingStart) := timing in
  rerankingEnd ← date_now;
  generationStart ← date_now;
  pending ← generateAnswer_call question searchResults
              (streamResponse options);
  mret (startTime, retrievalTime, rerankingEnd - rerankingStart,
        generationStart, searchResults, pending).

(** From the answer of the generator to the [return]. *)
Definition query_completion (waiting : Waiting) : Flow RAGResponse :=
  let '(startTime, retrievalTime, rerankingTime, generationStart,
        searchResults, pending) := waiting in
  Await
    (answer ← lift pending;
     generationEnd ← date_now;
     endTime ← date_now;
     documents ← lift (documents_of "pageContent" searchResults);
     mret {| answer := answer;
             sources := to_sources documents;
             metrics := {| retrievalTime := retrievalTime;
                           rerankingTime := rerankingTime;
                           generationTime := generationEnd - generationStart;
                           totalTime := endTime - startTime |} |})
    (λ response : RAGResponse, Settled (Ok response)).

(** [query], cut at its [await]s: the call of the store, its answer up to
    the call of the reranker or of the generator, the answer of the
    reranker up to the call of the generator, and the rest. *)
Definition query_flow (question : string) (options : Options)
    : Flow RAGResponse :=

  Await
    (startTime ← date_now;
     (* Step 1: Retrieval *)
     retrievalStart ← date_now;
     _ ← (if useHybridSearch options
          then log (CallHybridSearch question (topK config))
          else log (CallHybridSearch question (topK config)));
     mret (startTime, retrievalStart))
    (λ '((startTime, retrievalStart) : Z * Z),
       Await
         (searchResults ← lift (store_hybridSearch question (topK config));
          retrievalEnd ← date_now;
          (* Step 2: Reranking *)
          rerankingStart ← date_now;
          let timing : Timing :=
            (startTime, retrievalEnd - retrievalStart, rerankingStart) in
          if useReranking options && (0 <? Z.of_nat (length searchResults))
          then
            _ ← log (CallRerank question (length searchResults)
                       (rerankTopK config));
            mret (inl (timing, searchResults))
          else
            waiting ← query_generation question options timing
                        (map Candidate searchResults);
            mret (inr waiting))
         (λ next : Timing * list SearchResult + Waiting,
            match next with
            | inl (timing, searchResults) =>
                Await
                  (reranked ← lift (reranker_answer question searchResults
                                      (rerankTopK config));
                   query_generation question options timing reranked)
                  query_completion
            | inr waiting => query_completion waiting
            end)).

Definition streamQuery (question : string) (options : Options) : M unit :=
  (* Step 1: Retrieval *)
  _ ← yield (EvRetrieval None);
  searchResults ←
    (if useHybridSearch options
     then vectorStore_hybridSearch question (topK config)
     else vectorStore_hybridSearch question (topK config));
  _ ← yield (EvRetrieval (Some (length searchResults)));
  (* Step 2: Reranking *)
  searchResults ←
    (if useReranking options && (0 <? Z.of_nat (length searchResults))
     then
       _ ← yield (EvReranking None);
       reranked ← reranker_rerankWithMetadata question searchResults
                    (rerankTopK config);
       _ ← yield (EvReranking (Some (length reranked)));
       mret reranked
     else mret (map Candidate searchResults));
  (* Step 3: Generation with streaming *)
  _ ← yield (EvGeneration None);
  documents ← lift (documents_of "metadata" searchResults);
  let context := build_context documents in
  n ← generations;
  _ ← log (CallGenerateStream question context);
  _ ← match pipeline with
      | MockMode _ =>
          for_each (default [] (MockLLM.streamAnswer question context))
            (λ chunk, yield (EvGeneration (Some chunk)))
      | LiveMode s =>
          '(texts, failure) ← lift (chat_stream s n (stream_prompt context question));
          _ ← for_each texts
                (λ text, if String.eqb text "" then mret ()
                         else yield (EvGeneration (Some text)));
          match failure with
          | Some e => lift (Err e)
          | None => mret ()
          end
      end;
  documents ← lift (documents_of "pageContent" searchResults);
  yield (EvComplete (to_sources documents)).

(** The second and the third stage of [query] as functions of what the
    stage before handed over: the list the second step leaves, the
    candidates in it once their documents were read, and the answer to the
    [n]-th request. *)
Definition reranked_stage
 (options : Options) (question : string)
    (results : list SearchResult) : result (list Reranked) :=
  if useReranking options && (0 <? Z.of_nat (length results))
  then reranker_answer question results (rerankTopK config)
  else Ok (map Candidate results).

Definition rerank_stage (options : Options) (question : string)
    (results : list SearchResult) : result (list SearchResult) :=

  if useReranking options && (0 <? Z.of_nat (length results))
  then
    reranked ← reranker_answer question results (rerankTopK config);
    documents_of "metadata" reranked
  else Ok results.

Definition generation_stage (question : string) (final : list SearchResult)
    (stream : bool) (n : nat) : result string :=
  if Z.of_nat (length final) =? 0 then Ok no_results_answer
  else llm_answer question (build_context final) stream n.

End pipeline.
End RAGPipeline.

(** ** server.ts: the HTTP handlers *)

Module Server.
Import RAGPipeline.

(** The fields read from [req.body]; the embedding covers bodies whose
    [question] is absent or a string. *)
Record Body := mkBody {
  question : option string;
  body_useReranking : option bool;
  body_useHybridSearch : option bool;
}.

Record Comparison := mkComparison {
  configuration : string;
  comparison_answer : string;
  comparison_sources : nat;
  topSource : option Source;
  comparison_metrics : Metrics;
}.

Inductive Json :=
| JsonError (error : string)
| JsonResponse (response : RAGResponse)
| JsonComparisons (question : string) (comparisons : list Comparison).

Record HttpResponse := mkHttpResponse { status : Z; json : Json }.

(** [!question] *)
Definition question_missing (q : option string) : bool :=
  match q with
  | None => true
  | Some s => String.eqb s ""
  end.

Record Configuration := mkConfiguration {
  name : string;
  cfg_useReranking : bool;
  cfg_useHybridSearch : bool;
}.

Definition configurations : list Configuration :=
  [ mkConfiguration "Vector Search Only" false false;
    mkConfiguration "Hybrid Search" false true;
    mkConfiguration "Hybrid + Reranking" true true ].

(** *** [Promise.all]

    [xs.map(async x => ...)] calls the functions in turn, and each call runs
    up to its first [await]. *)
Fixpoint start {A} (flows : list (Flow A)) (s : PState)
    : list (Flow A) * PState :=
  match flows with
  | [] => ([], s)
  | f :: rest =>
      let '(f', s') := step f s in
      let '(rest', s'') := start rest s' in
      (f' :: rest', s'')
  end.

(** The first promise that was rejected. *)
Fixpoint rejected {A} (flows : list (Flow A)) : option string :=
  match flows with
  | [] => None
  | Settled (Err e) :: _ => Some e
  | _ :: rest => rejected rest
  end.

(** The values of the promises once all are fulfilled. *)
Fixpoint fulfilled {A} (flows : list (Flow A)) : option (list A) :=
  match flows with
  | [] => Some []
  | Settled (Ok x) :: rest => xs ← fulfilled rest; Some (x :: xs)
  | _ => None
  end.

(** The flows that are left, each run to its end before the next. *)
Fixpoint settle_all {A} (flows : list (Flow A)) : M (list A) :=
  match flows with
  | [] => mret []
  | f :: rest => x ← finish f; xs ← settle_all rest; mret (x :: xs)
  end.

(** The event loop: [Promise.all] rejects with the first rejection and is
    fulfilled when every promise is; until then the flow named next by the
    schedule is resumed and runs to its next [await].  The schedule stands
    for the order in which the awaited answers arrive: entry [i] resumes
    flow [i mod n] of [n], and when the schedule ends the flows are run to
    their ends in turn.  The state returned is the one in which the awaiting
    handler goes on. *)
Fixpoint run_all {A} (schedule : list nat) (flows : list (Flow A))
    : M (list A) :=
  λ s,
    match rejected flows with
    | Some e => (Err e, s)
    | None =>
        match fulfilled flows with
        | Some xs => (Ok xs, s)
        | None =>
            match schedule with
            | [] => settle_all flows s
            | i :: later =>
                let i := (i mod length flows)%nat in
                match flows !! i with
                | Some f =>
                    let '(f', s') := step f s in
                    run_all later (<[i := f']> flows) s'
                | None => run_all later flows s
                end
            end
        end
    end.

(** [await Promise.all(flows)] *)
Definition all {A} (schedule : list nat) (flows : list (Flow A))
    : M (list A) :=
  λ s, let '(started, s') := start flows s in run_all schedule started s'.

Section handlers.
Variable config : Config.
Variable now : nat → Z.
Variable regex_matches : string → string → result nat.
Variable ragPipeline : Pipeline.
(** The order in which the event loop resumes the queries of a comparison. *)
Variable schedule : list nat.

(** [app.post('/api/query', ...)] *)
Definition api_query (body : Body) : M HttpResponse :=
  m_try_catch
    (if question_missing (question body)
     then mret (mkHttpResponse 400 (JsonError "Question is required"))
     else
       response ← query config now regex_matches ragPipeline
                    (default "" (question body))
                    {| useReranking := default true (body_useReranking body);
                       useHybridSearch := default true (body_useHybridSearch body);
                       streamResponse := false |};
       mret (mkHttpResponse 200 (JsonResponse response)))
    (λ _, mret (mkHttpResponse 500 (JsonError "Internal server error"))).

(** [app.post('/api/compare', ...)] *)
Definition api_compare (body : Body) : M HttpResponse :=
  m_try_catch
    (if question_missing (question body)
     then mret (mkHttpResponse 400 (JsonError "Question is required"))
     else
       let q := default "" (question body) in
       results ← all schedule
         (map (λ c,
            flow_map
              (λ response,
                 {| configuration := name c;
                    comparison_answer := answer response;
                    comparison_sources := length (sources response);
                    topSource := head (sources response);
                    comparison_metrics := metrics response |})
              (query_flow config now regex_matches ragPipeline q
                 {| useReranking := cfg_useReranking c;
                    useHybridSearch := cfg_useHybridSearch c;
                    streamResponse := false |}))
            configurations);
       mret (mkHttpResponse 200 (JsonComparisons q results)))
    (λ _, mret (mkHttpResponse 500 (JsonError "Internal server error"))).
End handlers.
End Server.

(** ** chunking.ts: the chunking pipeline *)

Module ChunkingPipeline.

(** What [processDocuments] is given: [{ content, metadata? }]. *)
Record InputDocument := mkInputDocument {
  input_content : string;
  input_metadata : option (gmap string value);
}.

Section processing.
(** [this.strategy.chunk(text, metadata)] *)
Variable strategy : string → gmap string value → list Document.
(** [new Date().toISOString()] at its n-th reading. *)
Variable timestamp : nat → string.

(** [doc.metadata?.source || 'unknown'] *)
Definition sourceDocument (doc : InputDocument) : value :=
  match input_metadata doc ≫= (λ md, md !! "source") with
  | Some v => if truthy v then v else VString "unknown"
  | None => VString "unknown"
  end.

(** [chunks.map(chunk => ({ ...chunk, metadata: { ...chunk.metadata,
    sourceDocument, timestamp } }))], the clock read once for each chunk
    from its reading [tick] on. *)
Definition enhance (doc : InputDocument) (tick : nat) (chunks : list Document)
    : list Document :=
  imap (λ i chunk,
    {| pageContent := pageContent chunk;
       metadata := <["timestamp" := VString (timestamp (tick + i))]>
                     (<["sourceDocument" := sourceDocument doc]>
                        (metadata chunk)) |}) chunks.

(** The loop over the documents, [allChunks.push(...enhancedChunks)]. *)
Fixpoint process_from (tick : nat) (documents : list InputDocument)
    : list Document :=
  match documents with
  | [] => []
  | doc :: rest =>
      let chunks :=
        strategy (input_content doc) (default ∅ (input_metadata doc)) in
      enhance doc tick chunks ++ process_from (tick + length chunks) rest
  end.

Definition processDocuments (documents : list InputDocument) : list Document :=
  process_from 0 documents.
End processing.

End ChunkingPipeline.

(** ** config/index.ts: the keys and the mock mode *)

Module ConfigLoader.

(** [process.env], after [dotenv.config()]. *)
Definition Env := gmap string string.

(** [process.env.KEY || fallback] *)
Definition env_or (env : Env) (key fallback : string) : string :=
  match env !! key with
  | Some s => if String.eqb s "" then fallback else s
  | None => fallback
  end.

(** [!process.env.KEY] *)
Definition unset (env : Env) (key : string) : bool :=
  match env !! key with
  | Some s => String.eqb s ""
  | None => true
  end.

Definition openai_apiKey (env : Env) : string :=
  env_or env "OPENAI_API_KEY" "mock-api-key".

Definition cohere_apiKey (env : Env) : string :=
  env_or env "COHERE_API_KEY" "mock-api-key".

(** [process.env.MOCK_MODE === 'true' ||
     (!process.env.OPENAI_API_KEY || !process.env.COHERE_API_KEY)] *)
Definition mockMode (env : Env) : bool :=
  match env !! "MOCK_MODE" with
  | Some s => String.eqb s "true"
  | None => false
  end
  || (unset env "OPENAI_API_KEY" || unset env "COHERE_API_KEY").

End ConfigLoader.

(** ** scripts/ingest-files.ts: loading a directory *)

Module IngestFiles.

(** [FileDocument]: [{ content, metadata }]. *)
Record FileDocument := mkFileDocument {
  file_content : string;
  file_metadata : gmap string value;
}.

(** What the file system answers below a directory, one entry for each name
    [fs.readdir] lists, in its order: a file with what
    [loadDocumentFromFile] returns for it, a directory with what
    [fs.readdir] returns for it, or a name on which [fs.stat] fails. *)
Local Unset Elimination Schemes.
Inductive Entry :=
| File (name : string) (loaded : result FileDocument)
| Directory (name : string) (listing : result (list Entry))
| Unreadable (name : string) (error : string).
Local Set Elimination Schemes.

Definition entry_name (e : Entry) : string :=
  match e with
  | File name _ => name
  | Directory name _ => name
  | Unreadable name _ => name
  end.

(** The [for] loop of [loadDocumentsFromDirectory] inside its [try]: a name
    that starts with a dot is skipped; an exception that leaves the body
    ends the loop, and the documents pushed so far are returned. *)
Definition load_loop (load_entry : Entry → result (list FileDocument))
    : list Entry → list FileDocument :=
  fix loop (entries : list Entry) : list FileDocument :=
    match entries with
    | [] => []
    | e :: rest =>
        if String.prefix "." (entry_name e) then loop rest
        else match load_entry e with
             | Ok documents => documents ++ loop rest
             | Err _ => []
             end
    end.

(** The body of the loop for one name: the documents it pushes, or the
    exception that leaves it. *)
Fixpoint load_entry (e : Entry) : result (list FileDocument) :=
  match e with
  | File _ loaded =>
      match loaded with
      | Ok doc => Ok [doc]
      | Err _ => Ok []
      end
  | Directory _ listing =>
      match listing with
      | Ok entries => Ok (load_loop load_entry entries)
      | Err _ => Ok []
      end
  | Unreadable _ error => Err error
  end.

(** [loadDocumentsFromDirectory(dirPath)], by what [fs.readdir(dirPath)]
    returns. *)
Definition loadDocumentsFromDirectory (listing : result (list Entry))
    : list FileDocument :=
  match listing with
  | Ok entries => load_loop load_entry entries
  | Err _ => []
  end.

End IngestFiles.

(** * Vocabulary of the statements *)

(** Descending order of the key [f], the order of the comparator
    [(a, b) => f(b) - f(a)]. *)
Definition desc {A} (f : A → Q) (a b : A) : Prop := (f b <= f a)%Q.
Definition by_key_desc {A} (f : A → Q) (a b : A) : Q := (f b - f a)%Q.

Module FusionSpec.
Import HybridVectorStore.

(** What the list [l], ranked from [rank] on, contributes to the candidate
    [key]: [weight * 1/(60 + rank + 1)] for every place where [key] is the
    fingerprint. *)
Fixpoint contribution (weight : Q) (l : list SearchResult) (rank : nat)
    (key : string) : Q :=
  match l with
  | [] => 0
  | r :: rest =>
      ((if String.eqb (fingerprint r) key
        then weight * (1 / inject_Z (60 + Z.of_nat rank + 1)) else 0)
       + contribution weight rest (S rank) key)%Q
  end.

(** The fused score of the specification: the vector list weighs [alpha],
    the keyword list [1 - alpha]. *)
Definition fused_score (alpha : Q) (vectorResults keywordResults : list SearchResult)
    (key : string) : Q :=
  (contribution alpha vectorResults 0 key
   + contribution (1 - alpha) keywordResults 0 key)%Q.

(** The distinct elements of a list in the order of their first
    appearance. *)
Fixpoint first_seen (l : list string) : list string :=
  match l with
  | [] => []
  | x :: rest => x :: filter (λ y, y ≠ x) (first_seen rest)
  end.

Definition fingerprints (l : list SearchResult) : list string :=
  map fingerprint l.

(** The score the map holds for [key], 0 when the key is absent. *)
Definition score_at (m : fusedMap) (key : string) : Q :=
  match map_get m key with
  | Some e => fscore e
  | None => 0
  end.

(** The keys of a map are distinct and every entry is filed under the
    fingerprint of its result. *)
Definition well_keyed (m : fusedMap) : Prop :=
  NoDup m.*1 ∧ Forall (λ p, fingerprint (fresult p.2) = p.1) m.

(** The entries that survive the sort and the cut, before they are turned
    into results. *)
Definition ranked (v kw : list SearchResult) (alpha : Q) (limit : Z) : list fused :=
  Js.slice (Js.sort by_score_desc (map_values (fuse v kw alpha))) 0 limit.

(** The keys after the fingerprints [l] were met one by one. *)
Fixpoint add_keys (acc l : list string) : list string :=
  match l with
  | [] => acc
  | x :: rest => add_keys (if decide (x ∈ acc) then acc else acc ++ [x]) rest
  end.
End FusionSpec.

(** ** The fused score in the words of the specification

    Nothing here refers to the code: the key of a chunk is the first 100
    characters of its text, and its fused score is the sum, over the places
    where a chunk with that key stands in the two lists, of
    [weight * 1/(k + rank + 1)]. *)
Module FusionClaim.

(** The first [n] characters of a text; the whole text when it has no
    more. *)
Fixpoint first_chars (n : nat) (s : string) : string :=
  match n, s with
  | S n', String c rest => String c (first_chars n' rest)
  | _, _ => EmptyString
  end.

Definition key (r : SearchResult) : string :=
  first_chars 100 (pageContent (document r)).

Definition k : Z := 60.

(** [weight * 1/(k + rank + 1)] *)
Definition term (weight : Q) (rank : nat) : Q :=
  (weight * (1 / inject_Z (k + Z.of_nat rank + 1)))%Q.

(** The ranks at which the list, ranked from [rank] on, holds a chunk with
    the key [key0]. *)
Fixpoint ranks_from (rank : nat) (l : list SearchResult) (key0 : string)
    : list nat :=
  match l with
  | [] => []
  | r :: rest =>
      (if decide (key r = key0) then [rank] else [])
      ++ ranks_from (S rank) rest key0
  end.

Definition total (qs : list Q) : Q := foldr Qplus 0%Q qs.

Definition fused_score (alpha : Q)
    (vectorResults keywordResults : list SearchResult) (key0 : string) : Q :=
  (total (term alpha <$> ranks_from 0 vectorResults key0)
   + total (term (1 - alpha) <$> ranks_from 0 keywordResults key0))%Q.

(** Two chunks that differ only after their first 100 characters. *)
Definition long_text (tail : string) : string :=
  "0123456789012345678901234567890123456789012345678901234567890123456789012345678901234567890123456789"
  +:+ tail.

Definition long_hit (tail : string) : SearchResult :=
  {| document := mkDocument (long_text tail) ∅; score := 1;
     vectorScore := None; keywordScore := None |}.

End FusionClaim.

Module ChunkSpec.

(** The four fields that place a chunk among its siblings. *)
Definition position (c : Document)
    : option value * option value * option value * option value :=
  (metadata c !! "chunkIndex", metadata c !! "totalChunks",
   metadata c !! "hasPrevious", metadata c !! "hasNext").

(** What the fields of the chunk at place [i] of [n] chunks shall be. *)
Definition expected_position (n i : nat)
    : option value * option value * option value * option value :=
  (Some (VNumber (Z.of_nat i)), Some (VNumber (Z.of_nat n)),
   Some (VBool (bool_decide (0 < Z.of_nat i))),
   Some (VBool (bool_decide (Z.of_nat i < Z.of_nat n - 1)))).

(** A splitter that cuts the text into pieces of [size] characters,
    whatever the overlap. *)
Fixpoint pieces (fuel : nat) (size : nat) (text : string) : list Document :=
  match fuel with
  | O => []
  | S fuel' =>
      if (String.length text =? 0)%nat then []
      else mkDocument (String.substring 0 (S size) text) ∅
           :: pieces fuel' size
                (String.substring (S size) (String.length text - S size) text)
  end.

Definition fixed_split (chunkSize chunkOverlap : Z) (text : string) : list Document :=
  pieces (String.length text) (Z.to_nat chunkSize - 1) text.

End ChunkSpec.

Module MockSpec.

(** The words of an answer, each but the last followed by the blank that
    separated it from the next. *)
Fixpoint glue (words : list string) : list string :=
  match words with
  | [] => []
  | w :: rest =>
      match rest with
      | [] => [w]
      | _ :: _ => (w +:+ " ") :: glue rest
      end
  end.

End MockSpec.

(** Small inputs on which the statements are tried. *)
Module Samples.

Definition doc (text : string) : Document := mkDocument text ∅.

Definition titled (title text : string) : Document :=
  mkDocument text {[ "title" := VString title ]}.

(** A hit of the vector search. *)
Definition hit (text : string) (s : Q) : SearchResult :=
  {| document := doc text; score := s;
     vectorScore := Some s; keywordScore := None |}.

Definition hitA : SearchResult := hit "Caching reduces latency" (9 # 10).
Definition hitB : SearchResult := hit "Indexes speed up queries" (8 # 10).
Definition hitC : SearchResult := hit "Sharding spreads the load" (7 # 10).

(** An embedding provider and a vector index that always answer. *)
Definition embed_ok (text : string) : result (list Q) := Ok [1%Q].

Definition point (text : string) (s : Q) : Point := mkPoint text ∅ (Some s).

Definition index_ok : QdrantClient :=
  {| client_search := λ _ _, Ok [point "Caching reduces latency" (9 # 10);
                                 point "Indexes speed up queries" (8 # 10)];
     client_scroll := λ _ _, Ok [point "Indexes speed up queries" 0;
                                 point "Sharding spreads the load" 0] |}.

(** Results that carry a title, and a rerank provider that rejects requests
    with a document starting with a title line but ranks plain requests,
    second document first. *)
Definition titledA : SearchResult :=
  {| document := titled "Caching" "Caching reduces latency"; score := 9 # 10;
     vectorScore := Some (9 # 10); keywordScore := None |}.

Definition picky_provider : RerankProvider := λ model query documents topN,
  if existsb (λ d, String.prefix "Title: " d) documents
  then Err "request too large"
  else Ok [mkRerankHit 1 (9 # 10); mkRerankHit 0 (2 # 10)].

(** A rerank provider that is down. *)
Definition failing_provider : RerankProvider := λ model query documents topN,
  Err "provider unavailable".

(** A clock, a regular-expression engine that finds nothing, and a set of
    live services whose reranker is down. *)
Definition clock (n : nat) : Z := 1000 + 7 * Z.of_nat n.

Definition no_regex (pattern text : string) : result nat := Ok 0%nat.

Definition live_services : RAGPipeline.LiveServices :=
  {| RAGPipeline.embedQuery := embed_ok;
     RAGPipeline.client := index_ok;
     RAGPipeline.cohere := failing_provider;
     RAGPipeline.chat_invoke := λ n prompt, Ok "Caching helps [1].";
     RAGPipeline.chat_stream := λ n prompt, Ok (["Caching "; ""; "helps [1]."], None) |}.

Definition live_config : Config :=
  {| topK := 10; rerankTopK := 3; hybridSearchAlpha := 1 # 2;
     rerankModel := "rerank-english-v3.0"; mockMode := false |}.

Definition stored : list Document :=
  [doc "Caching reduces latency"; doc "Indexes speed up queries";
   doc "Sharding spreads the load"; doc "Replication adds copies"].

(** What the sample services retrieve for the sample question. *)
Definition retrieved : list SearchResult :=
  HybridVectorStore.reciprocalRankFusion
    [hit "Caching reduces latency" (9 # 10); hit "Indexes speed up queries" (8 # 10)]
    [ {| document := doc "Indexes speed up queries"; score := 1 - 0 / 2;
         vectorScore := None; keywordScore := Some (1 - 0 / 2)%Q |};
      {| document := doc "Sharding spreads the load"; score := 1 - 1 / 2;
         vectorScore := None; keywordScore := Some (1 - 1 / 2)%Q |} ]
    (1 # 2) 10.

(** A configuration whose reranker keeps no candidate. *)
Definition keep_none_config : Config :=
  {| topK := 10; rerankTopK := 0; hybridSearchAlpha := 1 # 2;
     rerankModel := "rerank-english-v3.0"; mockMode := true |}.

Definition all_on : RAGPipeline.Options := RAGPipeline.mkOptions true true false.
Definition vector_only : RAGPipeline.Options := RAGPipeline.mkOptions false false false.
Definition hybrid_only : RAGPipeline.Options := RAGPipeline.mkOptions false true false.

End Samples.

(** Vocabulary and small inputs of the further properties. *)

Module RankSpec.
Import HybridVectorStore.

(** The first result of [l] whose fingerprint is [key]. *)
Fixpoint first_with (key : string) (l : list SearchResult) : option SearchResult :=
  match l with
  | [] => None
  | r :: rest =>
      if String.eqb (fingerprint r) key then Some r else first_with key rest
  end.

(** The candidate [a] is ranked before the candidate [b]. *)
Definition ranks_before (a b : string) (out : list SearchResult) : Prop :=
  [a; b] `sublist_of` FusionSpec.fingerprints out.


(** All candidates in the order of the sort, before the cut. *)
Definition full_ranking (v kw : list SearchResult) (alpha : Q) : list string :=
  (λ e, fingerprint (fresult e))
    <$> Js.sort by_score_desc (map_values (fuse v kw alpha)).

End RankSpec.

Module SearchSpec.

(** The words of a query the keyword search looks for: those longer than
    two characters, in lower case. *)
Definition search_terms (query : string) : list string :=
  filter (λ t, (2 < String.length t)%nat) (Js.split_space (Js.toLowerCase query)).

(** An index whose scroll is out of order. *)
Definition scroll_down : QdrantClient :=
  {| client_search := λ _ _, Ok [];
     client_scroll := λ _ _, Err "scroll failed" |}.

End SearchSpec.

Module RerankSpec.



(** The candidates at the indices of the hits, each with the score of its
    hit; [d] stands in for an index outside the candidates. *)
Definition picked (d : SearchResult) (results : list SearchResult)
    (hits : list RerankHit) : list SearchResult :=
  map (λ hit, with_score (default d (results !! hit_index hit))
                (relevanceScore hit)) hits.

(** A provider that names a document that was not in the request. *)
Definition stray_provider : RerankProvider := λ model query documents topN,
  Ok [mkRerankHit 0 (9 # 10); mkRerankHit (length documents) (5 # 10)].

(** A provider that names documents of the request only. *)
Definition in_range (cohere : RerankProvider) : Prop :=
  ∀ model query documents topN hits,
    cohere model query documents topN = Ok hits →
    Forall (λ h, (hit_index h < length documents)%nat) hits.

(** What [result.document.metadata] throws on a result without a
    document. *)
Definition no_document : string :=
  "Cannot read properties of undefined (reading 'metadata')".

End RerankSpec.

Module PipelineSpec.
Import RAGPipeline.

(** A clock that never runs backwards. *)
Definition monotone (now : nat → Z) : Prop := ∀ i j, (i ≤ j)%nat → now i ≤ now j.

(** What a flow yielded between two states. *)
Definition emitted (before after : PState) : list Event :=
  drop (length (events before)) (events after).

(** What a flow called between two states. *)
Definition called (before after : PState) : list Call :=
  drop (length (calls before)) (calls after).

(** The texts of the generation chunks among the events. *)
Definition generation_chunks (evs : list Event) : list string :=
  omap (λ e, match e with EvGeneration (Some c) => Some c | _ => None end) evs.

Definition is_complete (e : Event) : bool :=
  match e with EvComplete _ => true | _ => false end.

(** The texts the generator of a pipeline streams for a context when [n]
    requests were made to it before, without the empty ones, and the error
    that ends the stream early. *)
Definition streamed (pipeline : Pipeline) (question context : string)
    (n : nat) : result (list string * option string) :=
  match pipeline with
  | MockMode _ =>
      Ok (default [] (MockLLM.streamAnswer question context), None)
  | LiveMode s =>
      (λ '(texts, failure), (filter (λ t, t ≠ "") texts, failure))
        <$> chat_stream s n (stream_prompt context question)
  end.

(** Every run of a flow, whatever the states in which it is resumed, settles
    with an outcome in [Q]. *)
Fixpoint Leads {A} (Q : result A → Prop) (f : Flow A) : Prop :=
  match f with
  | Settled outcome => Q outcome
  | Await segment resume =>
      ∀ s, match segment s with
           | (Ok x, _) => Leads Q (resume x)
           | (Err e, _) => Q (Err e)
           end
  end.

(** What holds of the flows given to [Promise.all] holds of what it settles
    with: a rejection is that of one of the flows, and the values are those
    of the flows, in the order of the flows. *)
Definition Settles {A} (Qs : list (result A → Prop)) (out : result (list A))
    : Prop :=
  match out with
  | Ok xs => Forall2 (λ Q x, Q (Ok x)) Qs xs
  | Err e => Exists (λ Q, Q (Err e)) Qs
  end.

(** Answer and sources of a query by its three stages, when the answer is
    that to the [n]-th request made to the generator. *)
Definition staged (config : Config)
    (regex_matches : string → string → result nat) (pipeline : Pipeline)
    (question : string) (opts : Options) (n : nat)
    : result (string * list Source) :=
  results ← store_hybridSearch config pipeline question (topK config);
  final ← rerank_stage config regex_matches pipeline opts question results;
  a ← generation_stage pipeline question final (streamResponse opts) n;
  mret (a, to_sources final).

(** A comparison shows an answer and its sources. *)
Definition shows (c : Server.Comparison) (shown : string * list Source)
    : Prop :=
  Server.comparison_answer c = shown.1
  ∧ Server.comparison_sources c = length shown.2
  ∧ Server.topSource c = head shown.2.

(** The options [/api/compare] passes for a configuration; [streamResponse]
    is left out, and [generateAnswer] takes it as [false]. *)
Definition options_of (c : Server.Configuration) : Options :=
  {| useReranking := Server.cfg_useReranking c;
     useHybridSearch := Server.cfg_useHybridSearch c;
     streamResponse := false |}.

(** What a comparison of the configuration [c] can be, and what error the
    query of [c] can end with: those of the stages of the query. *)
Definition compared (config : Config)
    (regex_matches : string → string → result nat) (pipeline : Pipeline)
    (question : string) (c : Server.Configuration)
    (o : result Server.Comparison) : Prop :=
  match o with
  | Ok comparison =>
      Server.configuration comparison = Server.name c
      ∧ ∃ n shown,
          staged config regex_matches pipeline question (options_of c) n
          = Ok shown
          ∧ shows comparison shown
  | Err e =>
      ∃ n, staged config regex_matches pipeline question (options_of c) n
           = Err e
  end.


(** Live services whose index is out of order, live services whose rerank
    provider names a document outside the request, and live services whose
    chat stream breaks after two chunks. *)


Definition index_down : QdrantClient :=
  {| client_search := λ _ _, Err "index unavailable";
     client_scroll := λ _ _, Err "index unavailable" |}.

Definition services_without_index : LiveServices :=
  {| embedQuery := Samples.embed_ok;
     client := index_down;
     cohere := Samples.failing_provider;
     chat_invoke := λ n prompt, Ok "Caching helps [1].";
     chat_stream := λ n prompt, Ok (["Caching "; ""; "helps [1]."], None) |}.

Definition services_with_stray_hit : LiveServices :=
  {| embedQuery := Samples.embed_ok;
     client := Samples.index_ok;
     cohere := RerankSpec.stray_provider;
     chat_invoke := λ n prompt, Ok "Caching helps [1].";
     chat_stream := λ n prompt, Ok (["Caching "; ""; "helps [1]."], None) |}.

Definition services_with_broken_stream : LiveServices :=

  {| embedQuery := Samples.embed_ok;
     client := Samples.index_ok;
     cohere := Samples.failing_provider;
     chat_invoke := λ n prompt, Ok "Caching helps [1].";
     chat_stream := λ n prompt, Ok (["Caching "; ""; "helps"], Some "socket closed") |}.

End PipelineSpec.

Module MockStoreSpec.

(** A regular-expression engine that counts nothing but rejects a pattern
    with two quantifiers in a row. *)
Definition strict_regex (pattern text : string) : result nat :=
  if Js.includes pattern "++" then Err "Nothing to repeat" else Ok 0%nat.

End MockStoreSpec.

Module ChunkingSpec.

(** The fields the chunkers write themselves. *)
Definition written_by_chunker : list string :=
  ["chunkIndex"; "chunkingStrategy"; "contentType"; "hasPrevious"; "hasNext";
   "totalChunks"].


(** The splitter the adaptive chunker hands a text of a content type to. *)
Definition chosen_split (recursive_split token_split : Z → Z → string → list Document)
    (chunkSize chunkOverlap : Z) (t : Chunking.ContentType) (text : string)
    : list Document :=
  match t with
  | Chunking.code => recursive_split 256 64 text
  | Chunking.structured => token_split chunkSize chunkOverlap text
  | Chunking.narrative => recursive_split chunkSize chunkOverlap text
  end.

Definition strategy_name (t : Chunking.ContentType) : string :=
  match t with
  | Chunking.structured => "token"
  | _ => "semantic"
  end.

(** A clock for the samples and two documents to process. *)
Definition iso (n : nat) : string := "2024-01-01T00:00:0" +:+ pretty n +:+ "Z".

Definition guide : ChunkingPipeline.InputDocument :=
  ChunkingPipeline.mkInputDocument "Caching reduces latency a lot"
    (Some {[ "source" := VString "guide.md" ]}).

Definition note : ChunkingPipeline.InputDocument :=
  ChunkingPipeline.mkInputDocument "Indexes" None.

End ChunkingSpec.

Module LoaderSpec.
Import ConfigLoader IngestFiles.

(** An environment that asks for the live services but holds one key
    only. *)
Definition one_key : Env :=
  {[ "MOCK_MODE" := "false"; "OPENAI_API_KEY" := "sk-live" ]}.

Definition both_keys : Env :=
  {[ "OPENAI_API_KEY" := "sk-live"; "COHERE_API_KEY" := "co-live" ]}.

(** Whether the loop passes over an entry without a document and goes on. *)
Definition passed_over (e : Entry) : Prop :=
  String.prefix "." (entry_name e) = true
  ∨ (∃ name error, e = File name (Err error))
  ∨ (∃ name error, e = Directory name (Err error)).

Definition text_file (name text : string) : Entry :=
  File name (Ok (mkFileDocument text {[ "source" := VString name ]})).

(** A directory with a hidden file, a file that cannot be read, a
    subdirectory with a name on which [stat] fails, and two good files. *)
Definition sample_tree : list Entry :=
  [ File ".gitkeep" (Ok (mkFileDocument "" ∅));
    text_file "a.md" "alpha";
    File "broken.pdf" (Err "bad XRef");
    Directory "sub" (Ok [ text_file "b.txt" "beta";
                          Unreadable "dangling" "ENOENT";
                          text_file "c.txt" "gamma" ]);
    text_file "d.txt" "delta" ].

End LoaderSpec.

(** * Properties *)

(** ** [slice] and [sort] *)

Example slice_examples :
  Js.slice [1; 2; 3] 0 2 = [1; 2]
  ∧ Js.slice [1; 2; 3] 0 5 = [1; 2; 3]
  ∧ Js.slice [1; 2; 3] 0 (-1) = [1; 2]
  ∧ Js.slice [1; 2; 3] 0 (-5) = []
  ∧ Js.slice [1; 2; 3] 1 3 = [2; 3].
Proof. repeat split. Qed.

Example string_examples :
  Js.split_space "" = [""]
  ∧ Js.split_space "vector  search " = ["vector"; ""; "search"; ""]
  ∧ Js.toLowerCase "Top-K Rerank" = "top-k rerank"
  ∧ Js.includes "hybrid search" "rid s" = true
  ∧ Js.includes "hybrid search" "" = true
  ∧ Js.includes "hybrid search" "vector" = false.
Proof. repeat split. Qed.

(** Equal keys keep the order they came in. *)
Example sort_is_stable :
  Js.sort (by_key_desc snd) [("a", 1%Q); ("b", 2%Q); ("c", 1%Q); ("d", 2%Q)]
  = [("b", 2%Q); ("d", 2%Q); ("a", 1%Q); ("c", 1%Q)].
Proof. reflexivity. Qed.

Lemma map_is_fmap {A B} (f : A → B) (l : list A) : map f l = f <$> l.
Proof. reflexivity. Qed.

Section slice_facts.
Context {A : Type}.
Implicit Types l : list A.

Lemma slice_from_zero l (stop : Z) :
  Js.slice l 0 stop = take (Z.to_nat (Js.clamp_index (Z.of_nat (length l)) stop)) l.
Proof.
  unfold Js.slice. cbn zeta.
  replace (Js.clamp_index (Z.of_nat (length l)) 0) with 0.
  - by rewrite Z.sub_0_r.
  - unfold Js.clamp_index. simpl. lia.
Qed.

Lemma slice_nonneg l (stop : Z) :
  0 ≤ stop → Js.slice l 0 stop = take (Z.to_nat stop) l.
Proof.
  intros Hs. rewrite slice_from_zero. unfold Js.clamp_index.
  destruct (Z.ltb_spec stop 0); [lia|].
  destruct (Z.le_gt_cases stop (Z.of_nat (length l))).
  - by rewrite Z.min_l.
  - rewrite Z.min_r by lia. rewrite Nat2Z.id.
    rewrite !take_ge; [done | lia | lia].
Qed.

Lemma slice_negative l (stop : Z) :
  stop < 0 → Js.slice l 0 stop = take (length l - Z.to_nat (- stop)) l.
Proof.
  intros Hs. rewrite slice_from_zero. unfold Js.clamp_index.
  destruct (Z.ltb_spec stop 0); [|lia]. f_equal. lia.
Qed.

Lemma slice_is_prefix l (stop : Z) : ∃ n, Js.slice l 0 stop = take n l.
Proof. rewrite slice_from_zero. eauto. Qed.

Lemma slice_length_le l (stop : Z) :
  0 ≤ stop → Z.of_nat (length (Js.slice l 0 stop)) ≤ stop.
Proof. intros Hs. rewrite slice_nonneg by done. rewrite length_take. lia. Qed.

Lemma slice_all l (stop : Z) :
  Z.of_nat (length l) ≤ stop → Js.slice l 0 stop = l.
Proof. intros Hs. rewrite slice_nonneg by lia. apply take_ge. lia. Qed.
End slice_facts.

Section sort_facts.
Context {A : Type} (f : A → Q).
Implicit Types l : list A.

Lemma by_key_desc_le a b : Qle_bool (by_key_desc f a b) 0 = true ↔ (f b <= f a)%Q.
Proof. rewrite Qle_bool_iff. unfold by_key_desc. split; intros; lra. Qed.

Lemma by_key_desc_gt a b : Qle_bool (by_key_desc f a b) 0 = false ↔ (f a < f b)%Q.
Proof.
  rewrite <- not_true_iff_false, by_key_desc_le. split; intros; lra.
Qed.

Lemma sort_insert_perm x l : Js.sort_insert (by_key_desc f) x l ≡ₚ x :: l.
Proof.
  induction l as [|y t IH]; simpl; [done|].
  destruct (Qle_bool _ _); [done|].
  rewrite IH. apply Permutation_swap.
Qed.

Lemma sort_perm l : Js.sort (by_key_desc f) l ≡ₚ l.
Proof.
  induction l as [|x t IH]; simpl; [done|].
  by rewrite sort_insert_perm, IH.
Qed.

Lemma sort_insert_sorted x l :
  StronglySorted (desc f) l → StronglySorted (desc f) (Js.sort_insert (by_key_desc f) x l).
Proof.
  induction l as [|y t IH]; simpl; intros Hs.
  - repeat constructor.
  - inversion Hs as [|? ? Ht Hy]; subst.
    destruct (Qle_bool _ _) eqn:E.
    + apply by_key_desc_le in E. constructor; [done|].
      constructor; [done|].
      eapply Forall_impl; [exact Hy|]. unfold desc. intros; lra.
    + apply by_key_desc_gt in E. constructor; [by apply IH|].
      rewrite sort_insert_perm. constructor; [unfold desc; lra | done].
Qed.

Lemma sort_sorted l : StronglySorted (desc f) (Js.sort (by_key_desc f) l).
Proof.
  induction l as [|x t IH]; simpl; [constructor|].
  by apply sort_insert_sorted.
Qed.

(** An element that is not below any element of the list goes in front. *)
Lemma sort_insert_front x l :
  Forall (desc f x) l → Js.sort_insert (by_key_desc f) x l = x :: l.
Proof.
  destruct l as [|y t]; simpl; [done|]. intros Hx.
  inversion Hx; subst.
  by rewrite (proj2 (by_key_desc_le x y)).
Qed.

(** A list already in descending order is left as it is. *)
Lemma sort_sorted_id l : StronglySorted (desc f) l → Js.sort (by_key_desc f) l = l.
Proof.
  induction 1 as [|x t Ht IH Hx]; simpl; [done|].
  rewrite IH. by apply sort_insert_front.
Qed.

(** An element strictly above everything before it and not below anything
    after it comes out first, the rest is sorted as if it were absent. *)
Lemma sort_extract_max l1 x l2 :
  Forall (λ y, (f y < f x)%Q) l1 → Forall (desc f x) l2 →
  Js.sort (by_key_desc f) (l1 ++ x :: l2) = x :: Js.sort (by_key_desc f) (l1 ++ l2).
Proof.
  intros H1 H2. induction H1 as [|y t Hy Ht IH]; simpl.
  - apply sort_insert_front. by rewrite sort_perm.
  - rewrite IH. simpl.
    by rewrite (proj2 (by_key_desc_gt y x)).
Qed.
End sort_facts.

(** ** The fused map *)

Section fusion_facts.
Import HybridVectorStore FusionSpec.
Implicit Types (m : fusedMap) (key : string) (q : Q) (r : SearchResult).

Lemma map_has_elem m key : map_has m key = true ↔ key ∈ m.*1.
Proof.
  induction m as [|[k0 e] t IH]; simpl.
  - split; [done | by intros ?%elem_of_nil].
  - rewrite elem_of_cons. destruct (String.eqb_spec k0 key) as [->|Hne].
    + tauto.
    + rewrite IH. split; [tauto|]. intros [?|?]; [congruence | done].
Qed.

Lemma map_has_false m key : map_has m key = false ↔ key ∉ m.*1.
Proof. rewrite <- map_has_elem. by destruct (map_has m key). Qed.

Lemma map_get_None m key : key ∉ m.*1 → map_get m key = None.
Proof.
  induction m as [|[k0 e] t IH]; simpl; [done|].
  rewrite not_elem_of_cons. intros [Hne Ht].
  destruct (String.eqb_spec k0 key); [congruence | auto].
Qed.

Lemma map_get_elem m key e :
  NoDup m.*1 → (key, e) ∈ m → map_get m key = Some e.
Proof.
  induction m as [|[k0 e0] t IH]; simpl; intros Hnd Hin.
  - by apply elem_of_nil in Hin.
  - apply NoDup_cons in Hnd as [Hk0 Hnd].
    apply elem_of_cons in Hin as [[= -> ->]|Hin].
    + by rewrite String.eqb_refl.
    + destruct (String.eqb_spec k0 key) as [->|Hne]; [|auto].
      exfalso. apply Hk0. apply list_elem_of_fmap. by exists (key, e).
Qed.

Lemma map_add_score_keys m key q : (map_add_score m key q).*1 = m.*1.
Proof.
  induction m as [|[k0 e] t IH]; csimpl; [done|].
  destruct (String.eqb k0 key); csimpl; [done | by rewrite IH].
Qed.

Lemma map_set_new m key e : key ∉ m.*1 → map_set m key e = m ++ [(key, e)].
Proof.
  induction m as [|[k0 e0] t IH]; simpl; [done|].
  rewrite not_elem_of_cons. intros [Hne Ht].
  destruct (String.eqb_spec k0 key); [congruence|]. by rewrite IH.
Qed.

Lemma map_get_add_score m key q key' :
  map_get (map_add_score m key q) key' =
  if String.eqb key key'
  then (λ e, {| fresult := fresult e; fscore := (fscore e + q)%Q |}) <$> map_get m key'
  else map_get m key'.
Proof.
  induction m as [|[k0 e] t IH]; simpl.
  - by destruct (String.eqb key key').
  - destruct (String.eqb_spec k0 key) as [->|Hne]; simpl.
    + destruct (String.eqb_spec key key'); by simpl.
    + destruct (String.eqb_spec k0 key') as [->|Hne'].
      * destruct (String.eqb_spec key key'); [congruence | done].
      * apply IH.
Qed.

Lemma map_get_app m1 m2 key :
  map_get (m1 ++ m2) key =
  match map_get m1 key with Some e => Some e | None => map_get m2 key end.
Proof.
  induction m1 as [|[k0 e] t IH]; simpl; [done|].
  by destruct (String.eqb k0 key).
Qed.

(** One step of a [forEach] adds [q] to the score of the result's
    fingerprint and leaves the other scores alone. *)
Lemma score_at_accumulate m r q key :
  (score_at (accumulate m r q) key ==
   score_at m key + (if String.eqb (fingerprint r) key then q else 0))%Q.
Proof.
  unfold accumulate, score_at.
  destruct (map_has m (fingerprint r)) eqn:Hhas.
  - rewrite map_get_add_score.
    destruct (String.eqb_spec (fingerprint r) key) as [<-|Hne]; [|lra].
    apply map_has_elem in Hhas.
    destruct (map_get m (fingerprint r)) as [e|] eqn:Hget; simpl; [lra|].
    exfalso. clear -Hhas Hget.
    induction m as [|[k0 e] t IH]; simpl in *; [by apply elem_of_nil in Hhas|].
    destruct (String.eqb_spec k0 (fingerprint r)); [done|].
    apply elem_of_cons in Hhas as [?|?]; [congruence | auto].
  - apply map_has_false in Hhas. rewrite map_set_new by done.
    rewrite map_get_app. simpl.
    destruct (String.eqb_spec (fingerprint r) key) as [<-|Hne].
    + rewrite map_get_None by done. simpl. lra.
    + destruct (map_get m key); lra.
Qed.

Lemma accumulate_keys m r q :
  (accumulate m r q).*1 =
  if decide (fingerprint r ∈ m.*1) then m.*1 else m.*1 ++ [fingerprint r].
Proof.
  unfold accumulate. destruct (map_has m (fingerprint r)) eqn:Hhas.
  - apply map_has_elem in Hhas. rewrite decide_True by done.
    apply map_add_score_keys.
  - apply map_has_false in Hhas. rewrite decide_False by done.
    rewrite map_set_new by done. by rewrite fmap_app.
Qed.

Lemma map_add_score_filed m key q :
  Forall (λ p, fingerprint (fresult p.2) = p.1) m →
  Forall (λ p, fingerprint (fresult p.2) = p.1) (map_add_score m key q).
Proof.
  induction 1 as [|[k0 e] t Hx Ht IH]; simpl; [constructor|].
  destruct (String.eqb k0 key); constructor; auto.
Qed.

Lemma accumulate_well_keyed m r q : well_keyed m → well_keyed (accumulate m r q).
Proof.
  intros [Hnd Hfp]. split.
  - rewrite accumulate_keys. case_decide; [done|].
    apply NoDup_app. split_and!; [done| |apply NoDup_singleton].
    intros x Hx ->%list_elem_of_singleton. done.
  - unfold accumulate. destruct (map_has m (fingerprint r)) eqn:Hhas.
    + by apply map_add_score_filed.
    + apply map_has_false in Hhas. rewrite map_set_new by done.
      apply Forall_app. split; [done|]. by repeat constructor.
Qed.

Lemma score_at_process weight l rank m key :
  (score_at (process weight l rank m) key ==
   score_at m key + contribution weight l rank key)%Q.
Proof.
  revert rank m. induction l as [|r rest IH]; intros rank m; simpl; [lra|].
  rewrite IH, score_at_accumulate. unfold rrfScore, k.
  destruct (String.eqb (fingerprint r) key); lra.
Qed.

Lemma process_keys weight l rank m :
  (process weight l rank m).*1 = add_keys m.*1 (fingerprints l).
Proof.
  revert rank m. induction l as [|r rest IH]; intros rank m; simpl; [done|].
  by rewrite IH, accumulate_keys.
Qed.

Lemma process_well_keyed weight l rank m :
  well_keyed m → well_keyed (process weight l rank m).
Proof.
  revert rank m. induction l as [|r rest IH]; intros rank m Hm; simpl; [done|].
  by apply IH, accumulate_well_keyed.
Qed.

Lemma fuse_well_keyed v kw alpha : well_keyed (fuse v kw alpha).
Proof.
  unfold fuse. do 2 apply process_well_keyed.
  split; [constructor | constructor].
Qed.

Lemma score_at_fuse v kw alpha key :
  (score_at (fuse v kw alpha) key == fused_score alpha v kw key)%Q.
Proof.
  unfold fuse, fused_score. rewrite !score_at_process.
  unfold score_at. simpl. lra.
Qed.

Lemma fuse_keys v kw alpha :
  (fuse v kw alpha).*1 = add_keys (add_keys [] (fingerprints v)) (fingerprints kw).
Proof. unfold fuse. by rewrite !process_keys. Qed.
End fusion_facts.

(** ** The list returned by the fusion *)

Section fusion_output.
Import HybridVectorStore FusionSpec.
Implicit Types (v kw : list SearchResult) (alpha : Q) (limit : Z).

Lemma elem_of_add_keys acc l x : x ∈ add_keys acc l ↔ x ∈ acc ∨ x ∈ l.
Proof.
  revert acc. induction l as [|y rest IH]; intros acc; simpl.
  - rewrite elem_of_nil. tauto.
  - rewrite IH, elem_of_cons. case_decide as Hy.
    + split; [tauto|]. intros [?|[->|?]]; tauto.
    + rewrite elem_of_app, list_elem_of_singleton. tauto.
Qed.

Lemma add_keys_length acc l :
  (length (add_keys acc l) ≤ length acc + length l)%nat.
Proof.
  revert acc. induction l as [|y rest IH]; intros acc; simpl; [lia|].
  case_decide.
  - specialize (IH acc). lia.
  - specialize (IH (acc ++ [y])). rewrite length_app in IH. simpl in IH. lia.
Qed.

Lemma ranked_elem v kw alpha limit e :
  e ∈ ranked v kw alpha limit →
  ∃ key, (key, e) ∈ fuse v kw alpha.
Proof.
  unfold ranked. destruct (slice_is_prefix
    (Js.sort by_score_desc (map_values (fuse v kw alpha))) limit) as [n ->].
  intros He%subseteq_take.
  change by_score_desc with (by_key_desc fscore) in He.
  rewrite sort_perm in He. unfold map_values in He.
  apply list_elem_of_fmap in He as [[key e'] [-> He]]. eauto.
Qed.

Lemma values_fingerprints (m : fusedMap) :
  well_keyed m → map (λ e, fingerprint (fresult e)) (map_values m) = m.*1.
Proof.
  intros [_ Hfp]. unfold map_values.
  induction Hfp as [|[key e] t Hx Ht IH]; csimpl; [done|].
  simpl in Hx. by rewrite Hx, IH.
Qed.

Lemma rrf_fingerprints v kw alpha limit :
  fingerprints (reciprocalRankFusion v kw alpha limit) =
  map (λ e, fingerprint (fresult e)) (ranked v kw alpha limit).
Proof.
  unfold fingerprints, reciprocalRankFusion, ranked.
  rewrite map_map. done.
Qed.

Lemma rrf_scores v kw alpha limit r :
  r ∈ reciprocalRankFusion v kw alpha limit →
  (score r == fused_score alpha v kw (fingerprint r))%Q.
Proof.
  unfold reciprocalRankFusion. fold (ranked v kw alpha limit).
  intros [e [-> He]]%list_elem_of_fmap.
  apply ranked_elem in He as [key He].
  destruct (fuse_well_keyed v kw alpha) as [Hnd Hfp].
  rewrite Forall_forall in Hfp. specialize (Hfp _ He). simpl in Hfp.
  change (fingerprint (with_score (fresult e) (fscore e)))
    with (fingerprint (fresult e)).
  rewrite Hfp, <- score_at_fuse. unfold score_at.
  by rewrite (map_get_elem _ _ _ Hnd He).
Qed.

Lemma rrf_distinct v kw alpha limit :
  NoDup (fingerprints (reciprocalRankFusion v kw alpha limit)).
Proof.
  rewrite rrf_fingerprints. unfold ranked.
  destruct (slice_is_prefix
    (Js.sort by_score_desc (map_values (fuse v kw alpha))) limit) as [n ->].
  rewrite map_is_fmap, fmap_take.
  eapply sublist_NoDup; [|apply sublist_take].
  rewrite <- map_is_fmap.
  change by_score_desc with (by_key_desc fscore).
  rewrite sort_perm.
  change (NoDup (map (λ e, fingerprint (fresult e)) (map_values (fuse v kw alpha)))).
  rewrite values_fingerprints by apply fuse_well_keyed.
  apply fuse_well_keyed.
Qed.

Lemma rrf_complete v kw alpha limit r :
  Z.of_nat (length v + length kw) ≤ limit → r ∈ v ++ kw →
  fingerprint r ∈ fingerprints (reciprocalRankFusion v kw alpha limit).
Proof.
  intros Hlimit Hr. rewrite rrf_fingerprints. unfold ranked.
  assert (Hlen : (length (fuse v kw alpha) ≤ length v + length kw)%nat).
  { rewrite <- (length_fmap fst), fuse_keys.
    etrans; [apply add_keys_length|].
    pose proof (add_keys_length [] (fingerprints v)) as H0. simpl in H0.
    unfold fingerprints in *. rewrite !length_map in *. lia. }
  rewrite slice_all.
  2:{ change by_score_desc with (by_key_desc fscore).
      rewrite sort_perm. unfold map_values. rewrite length_fmap. lia. }
  change by_score_desc with (by_key_desc fscore). rewrite sort_perm.
  rewrite values_fingerprints by apply fuse_well_keyed.
  rewrite fuse_keys, !elem_of_add_keys.
  apply elem_of_app in Hr as [Hr|Hr].
  - left. right. by apply list_elem_of_fmap_2.
  - right. by apply list_elem_of_fmap_2.
Qed.

Lemma StronglySorted_map_score (l : list fused) :
  StronglySorted (desc fscore) l →
  StronglySorted (desc score) (map (λ item, with_score (fresult item) (fscore item)) l).
Proof.
  induction 1 as [|x t Ht IH Hx]; simpl; constructor; [done|].
  rewrite Forall_forall in Hx. apply Forall_forall.
  intros y [e [-> He]]%list_elem_of_fmap. by apply Hx.
Qed.

Lemma rrf_sorted v kw alpha limit :
  StronglySorted (desc score) (reciprocalRankFusion v kw alpha limit).
Proof.
  unfold reciprocalRankFusion. apply StronglySorted_map_score.
  destruct (slice_is_prefix
    (Js.sort by_score_desc (map_values (fuse v kw alpha))) limit) as [n ->].
  change by_score_desc with (by_key_desc fscore).
  pose proof (sort_sorted fscore (map_values (fuse v kw alpha))) as Hs.
  rewrite <- (take_drop n) in Hs. apply StronglySorted_app_1_l in Hs. exact Hs.
Qed.

Lemma rrf_length v kw alpha limit :
  0 ≤ limit → Z.of_nat (length (reciprocalRankFusion v kw alpha limit)) ≤ limit.
Proof.
  intros Hl. unfold reciprocalRankFusion. rewrite length_map.
  by apply slice_length_le.
Qed.

Lemma rrf_empty alpha limit : reciprocalRankFusion [] [] alpha limit = [].
Proof.
  unfold reciprocalRankFusion. rewrite slice_from_zero.
  change (map_values (fuse [] [] alpha)) with (@nil fused).
  cbn [Js.sort]. by rewrite take_nil.
Qed.
End fusion_output.

(** ** Sorting candidates whose scores are ranked by a list of keys *)

Section ranked_sort.
Context {A K : Type} `{EqDecision K} (kf : A → K) (f : A → Q) (g : K → Q).
Implicit Types (l : list A) (ks : list K).

Lemma filter_ext_elem (P1 P2 : A → Prop)
    `{!∀ x, Decision (P1 x), !∀ x, Decision (P2 x)} l :
  (∀ x, x ∈ l → P1 x ↔ P2 x) → filter P1 l = filter P2 l.
Proof.
  induction l as [|x t IH]; intros Hext; [done|].
  rewrite !filter_cons.
  rewrite IH by (intros y Hy; apply Hext; by right).
  destruct (decide (P1 x)) as [H1|H1], (decide (P2 x)) as [H2|H2]; try done.
  - exfalso. apply H2, Hext; [by left | done].
  - exfalso. apply H1, Hext; [by left | done].
Qed.

Lemma filter_all (P : A → Prop) `{!∀ x, Decision (P x)} l :
  (∀ x, x ∈ l → P x) → filter P l = l.
Proof.
  induction l as [|x t IH]; intros Hall; [done|].
  rewrite filter_cons_True by (apply Hall; by left).
  f_equal. apply IH. intros y Hy. apply Hall. by right.
Qed.

Lemma filter_none (P : A → Prop) `{!∀ x, Decision (P x)} l :
  (∀ x, x ∈ l → ¬ P x) → filter P l = [].
Proof.
  induction l as [|x t IH]; intros Hall; [done|].
  rewrite filter_cons_False by (apply Hall; by left).
  apply IH. intros y Hy. apply Hall. by right.
Qed.

Lemma fmap_filter_keys ks l :
  kf <$> filter (λ a, kf a ∉ ks) l = filter (λ k, k ∉ ks) (kf <$> l).
Proof.
  induction l as [|x t IH]; [done|]. csimpl.
  rewrite !filter_cons. case_decide; csimpl; by rewrite IH.
Qed.

Lemma sorted_of_constant (c : Q) l :
  Forall (λ a, (f a == c)%Q) l → StronglySorted (desc f) l.
Proof.
  induction 1 as [|x t Hx Ht IH]; constructor; [done|].
  eapply Forall_impl; [exact Ht|]. unfold desc. simpl. intros y Hy.
  rewrite Hx, Hy. apply Qle_refl.
Qed.

(** When the keys [ks] carry strictly decreasing scores and every other
    candidate scores below them, the sort puts the candidates of [ks] in
    front, in the order of [ks]; behind them the others keep their order
    if they were in descending order already. *)
Lemma sort_ranked ks : ∀ l,
  NoDup (kf <$> l) → NoDup ks →
  (∀ k, k ∈ ks → k ∈ kf <$> l) →
  (∀ a, a ∈ l → (f a == g (kf a))%Q) →
  StronglySorted (λ k1 k2, (g k2 < g k1)%Q) ks →
  (∀ k a, k ∈ ks → a ∈ l → kf a ∉ ks → (f a < g k)%Q) →
  StronglySorted (desc f) (filter (λ a, kf a ∉ ks) l) →
  ∃ top, Js.sort (by_key_desc f) l = top ++ filter (λ a, kf a ∉ ks) l
         ∧ kf <$> top = ks.
Proof.
  induction ks as [|k ks IH]; intros l Hl Hks Hsub Hfg Hdec Hlow Hrest.
  - exists []. split; [|done]. simpl.
    rewrite filter_all in Hrest |- * by (intros; apply not_elem_of_nil).
    by apply sort_sorted_id.
  - apply NoDup_cons in Hks as [Hk Hks].
    apply StronglySorted_cons in Hdec as [Hbelow Hdec].
    rewrite Forall_forall in Hbelow.
    assert (Hkx : k ∈ kf <$> l) by (apply Hsub; by left).
    apply list_elem_of_fmap in Hkx as [x [-> Hx]].
    apply list_elem_of_split in Hx as (l1 & l2 & ->).
    rewrite fmap_app, fmap_cons in Hl.
    apply NoDup_app in Hl as (Hl1 & Hl12 & [Hx2 Hl2]%NoDup_cons).
    assert (Hother : ∀ y, y ∈ l1 ++ l2 → kf y ≠ kf x).
    { intros y [Hy|Hy]%elem_of_app Heq.
      - apply (Hl12 (kf y)); [by apply list_elem_of_fmap_2|].
        rewrite Heq. by left.
      - apply Hx2. rewrite <- Heq. by apply list_elem_of_fmap_2. }
    assert (Hin : ∀ y, y ∈ l1 ++ l2 → y ∈ l1 ++ x :: l2).
    { intros y. rewrite !elem_of_app, elem_of_cons. tauto. }
    assert (Hmax : ∀ y, y ∈ l1 ++ l2 → (f y < f x)%Q).
    { intros y Hy. rewrite (Hfg x) by (apply elem_of_app; right; by left).
      destruct (decide (kf y ∈ ks)) as [Hyk|Hyk].
      - rewrite (Hfg y) by auto. by apply Hbelow.
      - apply Hlow; [by left | auto |].
        rewrite not_elem_of_cons. split; [by apply Hother | done]. }
    rewrite sort_extract_max.
    2:{ apply Forall_forall. intros y Hy. apply Hmax, elem_of_app. by left. }
    2:{ apply Forall_forall. intros y Hy. unfold desc. apply Qlt_le_weak.
        apply Hmax, elem_of_app. by right. }
    assert (Hfilter : filter (λ a, kf a ∉ kf x :: ks) (l1 ++ x :: l2)
                      = filter (λ a, kf a ∉ ks) (l1 ++ l2)).
    { rewrite !filter_app, filter_cons_False by (intros Hn; apply Hn; by left).
      f_equal; apply filter_ext_elem; intros y Hy; rewrite not_elem_of_cons;
        (split; [tauto | intros ?; split; [apply Hother, elem_of_app; auto | done]]). }
    rewrite Hfilter in Hrest |- *.
    destruct (IH (l1 ++ l2)) as (top & Htop & Hkeys).
    + rewrite fmap_app. apply NoDup_app. split_and!; [done| |done].
      intros z Hz1 Hz2. apply (Hl12 z Hz1). by right.
    + done.
    + intros k' Hk'.
      assert (Hky : k' ∈ kf <$> l1 ++ x :: l2) by (apply Hsub; by right).
      apply list_elem_of_fmap in Hky as [y [-> Hy]].
      apply list_elem_of_fmap_2.
      rewrite !elem_of_app, elem_of_cons in Hy. rewrite elem_of_app.
      destruct Hy as [?|[->|?]]; [by left| |by right].
      done.
    + intros a Ha. apply Hfg. auto.
    + done.
    + intros k' a Hk' Ha Hak. apply Hlow; [by right | auto |].
      rewrite not_elem_of_cons. split; [by apply Hother | done].
    + done.
    + exists (x :: top). split; [by rewrite Htop | by rewrite fmap_cons, Hkeys].
Qed.
End ranked_sort.

(** ** Contributions of a list without repeated fingerprints *)

Section contributions.
Import HybridVectorStore FusionSpec.
Implicit Types (l : list SearchResult) (w : Q) (key : string).

Lemma StronglySorted_by_index {A} (R : A → A → Prop) (l : list A) :
  (∀ i j x y, (i < j)%nat → l !! i = Some x → l !! j = Some y → R x y) →
  StronglySorted R l.
Proof.
  induction l as [|x t IH]; intros H; constructor.
  - apply IH. intros i j a b Hij Ha Hb. by apply (H (S i) (S j)); [lia|..].
  - apply Forall_forall. intros y [j Hj]%list_elem_of_lookup.
    by apply (H 0%nat (S j)); [lia|..].
Qed.

Lemma contribution_absent w l rank key :
  key ∉ fingerprints l → (contribution w l rank key == 0)%Q.
Proof.
  revert rank. induction l as [|r rest IH]; intros rank Hkey; simpl; [lra|].
  unfold fingerprints in Hkey. simpl in Hkey.
  apply not_elem_of_cons in Hkey as [Hne Hkey].
  destruct (String.eqb_spec (fingerprint r) key); [congruence|].
  rewrite IH by done. lra.
Qed.

Lemma contribution_zero_weight w l rank key :
  (w == 0)%Q → (contribution w l rank key == 0)%Q.
Proof.
  intros Hw. revert rank. induction l as [|r rest IH]; intros rank; simpl; [lra|].
  rewrite IH. destruct (String.eqb _ _); [rewrite Hw|]; lra.
Qed.

Lemma contribution_weight w w' l rank key :
  (w == w')%Q → (contribution w l rank key == contribution w' l rank key)%Q.
Proof.
  intros Hw. revert rank. induction l as [|r rest IH]; intros rank; simpl; [lra|].
  rewrite IH. destruct (String.eqb _ _); [rewrite Hw|]; lra.
Qed.

Lemma contribution_at w l rank i r :
  NoDup (fingerprints l) → l !! i = Some r →
  (contribution w l rank (fingerprint r)
   == w * (1 / inject_Z (60 + Z.of_nat (rank + i) + 1)))%Q.
Proof.
  revert rank i. induction l as [|r0 rest IH]; intros rank i Hnd Hi; [done|].
  unfold fingerprints in Hnd. simpl in Hnd.
  apply NoDup_cons in Hnd as [Hr0 Hnd]. simpl.
  destruct i as [|i]; simpl in Hi.
  - injection Hi as ->. rewrite String.eqb_refl.
    rewrite contribution_absent by done.
    replace (rank + 0)%nat with rank by lia. lra.
  - destruct (String.eqb_spec (fingerprint r0) (fingerprint r)) as [Heq|Hne].
    + exfalso. apply Hr0. rewrite Heq.
      apply list_elem_of_fmap_2. by eapply list_elem_of_lookup_2.
    + rewrite (IH (S rank) i) by done.
      replace (S rank + i)%nat with (rank + S i)%nat by lia. lra.
Qed.

Lemma rrf_term_pos w (n : nat) :
  (0 < w)%Q → (0 < w * (1 / inject_Z (60 + Z.of_nat n + 1)))%Q.
Proof.
  intros Hw. apply Qmult_lt_0_compat; [done|].
  unfold Qdiv. rewrite Qmult_1_l. apply Qinv_lt_0_compat.
  change (inject_Z 0 < inject_Z (60 + Z.of_nat n + 1))%Q.
  rewrite <- Zlt_Qlt. lia.
Qed.

Lemma rrf_term_decreasing w (n n' : nat) :
  (0 < w)%Q → (n < n')%nat →
  (w * (1 / inject_Z (60 + Z.of_nat n' + 1))
   < w * (1 / inject_Z (60 + Z.of_nat n + 1)))%Q.
Proof.
  intros Hw Hn. apply Qmult_lt_l; [done|].
  unfold Qdiv. rewrite !Qmult_1_l.
  assert (Hpos : ∀ m : nat, (0 < inject_Z (60 + Z.of_nat m + 1))%Q).
  { intros m. change (inject_Z 0 < inject_Z (60 + Z.of_nat m + 1))%Q.
    rewrite <- Zlt_Qlt. lia. }
  apply (proj1 (Qinv_lt_contravar _ _ (Hpos n) (Hpos n'))).
  rewrite <- Zlt_Qlt. lia.
Qed.

Lemma contribution_pos w l rank key :
  (0 < w)%Q → NoDup (fingerprints l) → key ∈ fingerprints l →
  (0 < contribution w l rank key)%Q.
Proof.
  intros Hw Hnd [r [-> Hr]]%list_elem_of_fmap.
  apply list_elem_of_lookup in Hr as [i Hi].
  rewrite (contribution_at w l rank i r) by done. by apply rrf_term_pos.
Qed.

(** Along a list without repeated fingerprints the contributions fall
    strictly. *)
Lemma contribution_decreasing w l rank :
  (0 < w)%Q → NoDup (fingerprints l) →
  StronglySorted
    (λ k1 k2, (contribution w l rank k2 < contribution w l rank k1)%Q)
    (fingerprints l).
Proof.
  intros Hw Hnd. apply StronglySorted_by_index.
  intros i j k1 k2 Hij H1 H2. unfold fingerprints in H1, H2.
  rewrite map_is_fmap in H1, H2.
  apply list_lookup_fmap_Some in H1 as [r1 [-> Hr1]].
  apply list_lookup_fmap_Some in H2 as [r2 [-> Hr2]].
  rewrite (contribution_at w l rank i r1), (contribution_at w l rank j r2) by done.
  apply rrf_term_decreasing; [done | lia].
Qed.
End contributions.

(** ** The order of the keys of the fused map *)

Section key_order.
Import HybridVectorStore FusionSpec.
Implicit Types (l acc : list string).

Lemma elem_of_first_seen l x : x ∈ first_seen l ↔ x ∈ l.
Proof.
  induction l as [|y rest IH]; simpl; [done|].
  rewrite !elem_of_cons, list_elem_of_filter, IH.
  destruct (decide (x = y)); tauto.
Qed.

Lemma first_seen_NoDup l : NoDup l → first_seen l = l.
Proof.
  induction 1 as [|x rest Hx Hnd IH]; simpl; [done|].
  rewrite IH. f_equal. apply filter_all. intros y Hy ->. done.
Qed.

Lemma add_keys_first_seen l : ∀ acc,
  add_keys acc l = acc ++ filter (λ k, k ∉ acc) (first_seen l).
Proof.
  induction l as [|x rest IH]; intros acc; simpl.
  - by rewrite filter_nil, app_nil_r.
  - rewrite IH. case_decide as Hx.
    + rewrite filter_cons_False by (intros Hn; by apply Hn).
      f_equal. rewrite list_filter_filter.
      apply filter_ext_elem. intros y _. simpl. split; [|by intros [? ?]].
      intros Hy. split; [done|]. by intros ->.
    + rewrite filter_cons_True by done.
      rewrite <- app_assoc. simpl. do 2 f_equal.
      rewrite list_filter_filter.
      apply filter_ext_elem. intros y _. simpl.
      rewrite elem_of_app, list_elem_of_singleton. tauto.
Qed.

Lemma slice_fmap {A B} (f : A → B) (l : list A) (start stop : Z) :
  Js.slice (f <$> l) start stop = f <$> Js.slice l start stop.
Proof. unfold Js.slice. by rewrite length_fmap, fmap_take, fmap_drop. Qed.

(** The keys that are not fingerprints of the keyword list come from the
    vector list, in the order of their first appearance there, and the
    other way round. *)
Lemma fuse_keys_not_keyword v kw alpha :
  filter (λ k, k ∉ fingerprints kw) (fuse v kw alpha).*1
  = filter (λ k, k ∉ fingerprints kw) (first_seen (fingerprints v)).
Proof.
  rewrite fuse_keys, !add_keys_first_seen. simpl.
  rewrite filter_app.
  rewrite (filter_all (λ k, k ∉ [])) by (intros; apply not_elem_of_nil).
  rewrite <- (app_nil_r (filter _ (first_seen (fingerprints v)))) at 2.
  f_equal. apply filter_none.
  intros x [_ Hx]%list_elem_of_filter Hn.
  apply (proj1 (elem_of_first_seen _ _)) in Hx. by apply Hn.
Qed.

Lemma fuse_keys_not_vector v kw alpha :
  filter (λ k, k ∉ fingerprints v) (fuse v kw alpha).*1
  = filter (λ k, k ∉ fingerprints v) (first_seen (fingerprints kw)).
Proof.
  rewrite fuse_keys, !add_keys_first_seen. simpl.
  rewrite (filter_all (λ k, k ∉ [])) by (intros; apply not_elem_of_nil).
  rewrite filter_app.
  rewrite (filter_none _ (first_seen (fingerprints v))).
  2:{ intros x Hx Hn. apply (proj1 (elem_of_first_seen _ _)) in Hx.
      by apply Hn. }
  simpl. rewrite list_filter_filter.
  apply filter_ext_elem. intros y _. simpl. rewrite elem_of_first_seen. tauto.
Qed.
End key_order.

(** ** Fusion when one list carries all the weight *)

Section degenerate.
Import HybridVectorStore FusionSpec.
Implicit Types (v kw primary : list SearchResult) (alpha : Q) (limit : Z).

Lemma entry_score (m : fusedMap) key e :
  well_keyed m → (key, e) ∈ m →
  fingerprint (fresult e) = key ∧ fscore e = score_at m key.
Proof.
  intros [Hnd Hfp] He. rewrite Forall_forall in Hfp. split.
  - apply (Hfp _ He).
  - unfold score_at. by rewrite (map_get_elem _ _ _ Hnd He).
Qed.

Lemma values_elem (m : fusedMap) e : e ∈ map_values m → ∃ key, (key, e) ∈ m.
Proof.
  unfold map_values. intros [[key e'] [-> He]]%list_elem_of_fmap. eauto.
Qed.

(** If the fused score of every candidate is what [primary] alone
    contributes with weight 1, the candidates of [primary] lead the
    ranking in the order of [primary], and the others follow in the order
    in which the map met them. *)
Lemma rrf_led_by primary v kw alpha limit :
  NoDup (fingerprints primary) →
  (∀ key, key ∈ fingerprints primary → key ∈ (fuse v kw alpha).*1) →
  (∀ key, (fused_score alpha v kw key == contribution 1 primary 0 key)%Q) →
  fingerprints (reciprocalRankFusion v kw alpha limit)
  = Js.slice (fingerprints primary
              ++ filter (λ k, k ∉ fingerprints primary) (fuse v kw alpha).*1)
      0 limit.
Proof.
  intros Hnd Hsub Hscore.
  pose proof (fuse_well_keyed v kw alpha) as Hwf.
  set (m := fuse v kw alpha) in *.
  set (kf := λ e : fused, fingerprint (fresult e)).
  assert (Hkeys : kf <$> map_values m = m.*1).
  { rewrite <- map_is_fmap. by apply values_fingerprints. }
  assert (Hf : ∀ a, a ∈ map_values m →
               (fscore a == contribution 1 primary 0 (kf a))%Q).
  { intros a [key Ha]%values_elem.
    destruct (entry_score m key a Hwf Ha) as [Hk ->].
    unfold kf. rewrite Hk. unfold m. by rewrite score_at_fuse. }
  destruct (sort_ranked kf fscore (contribution 1 primary 0)
              (fingerprints primary) (map_values m)) as (top & Htop & Hks).
  - rewrite Hkeys. apply Hwf.
  - done.
  - intros key Hkey. rewrite Hkeys. by apply Hsub.
  - done.
  - by apply contribution_decreasing.
  - intros key a Hkey Ha Hout. rewrite (Hf a Ha).
    rewrite contribution_absent by done. by apply contribution_pos.
  - apply (sorted_of_constant fscore 0). apply Forall_forall.
    intros a [Hout Ha]%list_elem_of_filter. rewrite (Hf a Ha).
    by apply contribution_absent.
  - rewrite rrf_fingerprints. unfold ranked. fold m.
    change by_score_desc with (by_key_desc fscore).
    rewrite Htop, map_is_fmap, <- slice_fmap, fmap_app. fold kf.
    by rewrite Hks, fmap_filter_keys, Hkeys.
Qed.

Lemma fused_score_alpha_0 v kw key :
  (fused_score 0 v kw key == contribution 1 kw 0 key)%Q.
Proof.
  unfold fused_score.
  rewrite (contribution_zero_weight 0 v) by reflexivity.
  rewrite (contribution_weight (1 - 0) 1) by reflexivity. lra.
Qed.

Lemma fused_score_alpha_1 v kw key :
  (fused_score 1 v kw key == contribution 1 v 0 key)%Q.
Proof.
  unfold fused_score.
  rewrite (contribution_zero_weight (1 - 1) kw) by reflexivity. lra.
Qed.

Lemma rrf_alpha_0 v kw limit :
  NoDup (fingerprints kw) →
  fingerprints (reciprocalRankFusion v kw 0 limit)
  = Js.slice (fingerprints kw
              ++ filter (λ k, k ∉ fingerprints kw) (first_seen (fingerprints v)))
      0 limit.
Proof.
  intros Hnd. rewrite (rrf_led_by kw) by
    (first [done | intros; apply fused_score_alpha_0
           | intros key Hk; rewrite fuse_keys, !elem_of_add_keys; tauto]).
  by rewrite fuse_keys_not_keyword.
Qed.

Lemma rrf_alpha_1 v kw limit :
  NoDup (fingerprints v) →
  fingerprints (reciprocalRankFusion v kw 1 limit)
  = Js.slice (fingerprints v
              ++ filter (λ k, k ∉ fingerprints v) (first_seen (fingerprints kw)))
      0 limit.
Proof.
  intros Hnd. rewrite (rrf_led_by v) by
    (first [done | intros; apply fused_score_alpha_1
           | intros key Hk; rewrite fuse_keys, !elem_of_add_keys; tauto]).
  by rewrite fuse_keys_not_vector.
Qed.
Lemma slice_leading_part {A} (ks rest : list A) (limit : Z) :
  0 ≤ limit →
  take (length ks) (Js.slice (ks ++ rest) 0 limit)
  = take (length ks `min` Z.to_nat limit) ks.
Proof.
  intros Hlimit. rewrite slice_nonneg by done.
  rewrite take_take. apply take_app_le. lia.
Qed.
End degenerate.

(** ** Reciprocal rank fusion: the statements *)

Section fusion_statements.
Import HybridVectorStore FusionSpec Samples.

(** In lists without repeated fingerprints, a chunk at rank [i] of the
    vector list and at rank [j] of the keyword list has the fused score
    [alpha/(61 + i) + (1 - alpha)/(61 + j)]. *)
Lemma fused_score_in_both_lists alpha v kw i j r r' :
  NoDup (fingerprints v) → NoDup (fingerprints kw) →
  v !! i = Some r → kw !! j = Some r' → fingerprint r = fingerprint r' →
  (fused_score alpha v kw (fingerprint r)
   == alpha * (1 / inject_Z (61 + Z.of_nat i))
      + (1 - alpha) * (1 / inject_Z (61 + Z.of_nat j)))%Q.
Proof.
  intros Hv Hkw Hi Hj Hsame. unfold fused_score.
  rewrite (contribution_at alpha v 0 i r Hv Hi).
  rewrite Hsame, (contribution_at (1 - alpha) kw 0 j r' Hkw Hj). simpl.
  replace (60 + Z.of_nat i + 1) with (61 + Z.of_nat i) by lia.
  replace (60 + Z.of_nat j + 1) with (61 + Z.of_nat j) by lia.
  reflexivity.
Qed.

Example fused_score_of_a_chunk_in_both_lists alpha :
  (fused_score alpha [hitA; hitB] [hitB; hitC] (fingerprint hitB)
   == alpha * (1 / 62) + (1 - alpha) * (1 / 61))%Q.
Proof.
  unfold fused_score. simpl.
  change (inject_Z (60 + Z.of_nat 1 + 1)) with 62%Q.
  change (inject_Z (60 + Z.of_nat 0 + 1)) with 61%Q.
  lra.
Qed.

(** Two different chunks that agree on their first 100 characters are one
    candidate: the second is merged into the first. *)
Example fusion_merges_equal_prefixes :
  let common := "0123456789012345678901234567890123456789012345678901234567890123456789012345678901234567890123456789" in
  map (λ r, (pageContent (document r), Qred (score r)))
    (reciprocalRankFusion [hit (common +:+ " first") 1] [hit (common +:+ " second") 1]
       (1 # 2) 10)
  = [ (common +:+ " first", 1 # 61) ].
Proof. vm_compute. reflexivity. Qed.

Example fusion_of_two_lists :
  map (λ r, (pageContent (document r), Qred (score r)))
    (reciprocalRankFusion [hitA; hitB] [hitB; hitC] (1 # 2) 10)
  = [ ("Indexes speed up queries", 123 # 7564);
      ("Caching reduces latency", 1 # 122);
      ("Sharding spreads the load", 1 # 124) ].
Proof. vm_compute. reflexivity. Qed.
End fusion_statements.

(** ** The code's fingerprint and the key of the specification *)

Section fusion_claim_facts.
Import HybridVectorStore.

Lemma substring0_first_chars n s :
  Js.substring0 n s = FusionClaim.first_chars n s.
Proof.
  unfold Js.substring0. revert s.
  induction n as [|n IH]; intros [|c s]; simpl; [done..|]. by rewrite IH.
Qed.

Lemma fingerprint_key r : fingerprint r = FusionClaim.key r.
Proof. apply substring0_first_chars. Qed.

Lemma fingerprints_keys l : FusionSpec.fingerprints l = FusionClaim.key <$> l.
Proof.
  unfold FusionSpec.fingerprints. rewrite map_is_fmap.
  apply list_fmap_ext. intros _ r _. apply fingerprint_key.
Qed.

(** The contribution of a list is the sum of the terms of the ranks at
    which the key stands. *)
Lemma contribution_ranks weight l rank key0 :
  (FusionSpec.contribution weight l rank key0
   == FusionClaim.total
        (FusionClaim.term weight <$> FusionClaim.ranks_from rank l key0))%Q.
Proof.
  revert rank. induction l as [|r l IH]; intros rank; simpl; [reflexivity|].
  rewrite IH, fingerprint_key.
  destruct (String.eqb_spec (FusionClaim.key r) key0) as [Heq|Hne].
  - rewrite decide_True by done. simpl. reflexivity.
  - rewrite decide_False by done. simpl. apply Qplus_0_l.
Qed.

Lemma fused_score_claim alpha v kw key0 :
  (FusionSpec.fused_score alpha v kw key0
   == FusionClaim.fused_score alpha v kw key0)%Q.
Proof.
  unfold FusionSpec.fused_score, FusionClaim.fused_score.
  by rewrite !contribution_ranks.
Qed.
End fusion_claim_facts.

(** C1. For all result lists and every alpha, [reciprocalRankFusion] keys
    the candidates by the first 100 characters of their text and returns
    each under the sum, over the places where a chunk with its key stands in
    the two lists, of [weight * 1/(60 + rank + 1)], rank counted from 0,
    with weight [alpha] in the vector list and [1 - alpha] in the keyword
    list; every key is returned once, so a chunk of both lists has one
    entry holding both contributions; and with a limit as large as the two
    lists together no key is left out.  Key and sum are those of
    [FusionClaim], written without the code. *)
Theorem reciprocalRankFusion_fused_scores
    (v kw : list SearchResult) (alpha : Q) (limit : Z) :
  Forall (λ r, (score r == FusionClaim.fused_score alpha v kw
                             (FusionClaim.key r))%Q)
    (HybridVectorStore.reciprocalRankFusion v kw alpha limit)
  ∧ NoDup (FusionClaim.key
             <$> HybridVectorStore.reciprocalRankFusion v kw alpha limit)
  ∧ Forall (λ r, FusionClaim.key r
                 ∈ FusionClaim.key
                     <$> HybridVectorStore.reciprocalRankFusion v kw alpha
                           (Z.of_nat (length v + length kw)))
      (v ++ kw).
Proof.
  split_and!.
  - apply Forall_forall. intros r Hr.
    rewrite <- fused_score_claim, <- fingerprint_key. by eapply rrf_scores.
  - rewrite <- fingerprints_keys. apply rrf_distinct.
  - apply Forall_forall. intros r Hr.
    rewrite <- fingerprints_keys, <- fingerprint_key. by apply rrf_complete.
Qed.

(** Two chunks that agree on their first 100 characters and differ after
    them are one candidate: the entry is the chunk met first, under both
    contributions. *)
Example reciprocalRankFusion_keys_by_prefix :
  map (λ r, (pageContent (document r), Qred (score r)))
    (HybridVectorStore.reciprocalRankFusion
       [FusionClaim.long_hit "A"] [FusionClaim.long_hit "B"] (1 # 2) 10)
  = [(FusionClaim.long_text "A", 1 # 61)].
Proof. vm_compute. reflexivity. Qed.

Lemma hybridSearch_fuses embedQuery client query limit alpha out :
  HybridVectorStore.hybridSearch embedQuery client query limit alpha = Ok out →
  ∃ vectorResults keywordResults,
    out = HybridVectorStore.reciprocalRankFusion vectorResults keywordResults
            alpha limit.
Proof.
  unfold HybridVectorStore.hybridSearch.
  destruct (HybridVectorStore.embedQueryWithExpansion _ _)
    as [[[original expanded] terms]|e]; simpl; [|done].
  destruct (HybridVectorStore.vectorSearch _ _ _) as [vr|e]; simpl; [|done].
  destruct (HybridVectorStore.keywordSearch _ _ _) as [kr|e]; simpl; [|done].
  intros [= <-]. eauto.
Qed.

(** When the embedding provider and the vector index answer, so does
    [hybridSearch]. *)
Lemma embedQueryWithExpansion_returns embedQuery query :
  (∀ text, ∃ e, embedQuery text = Ok e) →
  ∃ t, HybridVectorStore.embedQueryWithExpansion embedQuery query = Ok t.
Proof.
  intros Hembed. unfold HybridVectorStore.embedQueryWithExpansion.
  destruct (Hembed query) as [original ->]. simpl.
  destruct (0 <? _); [|by eexists].
  match goal with |- context [embedQuery ?t] =>
    destruct (Hembed t) as [e ->] end.
  by eexists.
Qed.

Lemma keywordSearch_returns client query limit :
  (∀ ts n, ∃ ps, client_scroll client ts n = Ok ps) →
  ∃ out, HybridVectorStore.keywordSearch client query limit = Ok out.
Proof.
  intros Hscroll. unfold HybridVectorStore.keywordSearch.
  destruct (_ =? 0); [by eexists|].
  match goal with |- context [client_scroll client ?ts ?n] =>
    destruct (Hscroll ts n) as [qs ->] end.
  by eexists.
Qed.

Lemma hybridSearch_returns embedQuery client query limit alpha :
  (∀ text, ∃ e, embedQuery text = Ok e) →
  (∀ e n, ∃ ps, client_search client e n = Ok ps) →
  (∀ ts n, ∃ ps, client_scroll client ts n = Ok ps) →
  ∃ out, HybridVectorStore.hybridSearch embedQuery client query limit alpha = Ok out.
Proof.
  intros Hembed Hsearch Hscroll. unfold HybridVectorStore.hybridSearch.
  destruct (embedQueryWithExpansion_returns embedQuery query Hembed)
    as [[[original expanded] terms] ->]. simpl.
  unfold HybridVectorStore.vectorSearch.
  destruct (Hsearch (default original expanded) (limit * 2)) as [ps ->]. simpl.
  destruct (keywordSearch_returns client query (limit * 2) Hscroll) as [kr ->].
  by eexists.
Qed.

(** C2. The list returned by [reciprocalRankFusion], and so the list
    returned by [hybridSearch], is in descending order of the fused score;
    its length is at most the limit, a number of results and so not
    negative; two empty lists give the empty list.  [hybridSearch] returns a
    list whenever the embedding provider and the vector index answer. *)
Theorem reciprocalRankFusion_sorted_and_bounded
    (v kw : list SearchResult) (alpha : Q) (limit : Z) :
  StronglySorted (desc score)
    (HybridVectorStore.reciprocalRankFusion v kw alpha limit)
  ∧ (0 ≤ limit →
     Z.of_nat (length (HybridVectorStore.reciprocalRankFusion v kw alpha limit))
     ≤ limit)
  ∧ HybridVectorStore.reciprocalRankFusion [] [] alpha limit = []
  ∧ (∀ embedQuery client query out,
       HybridVectorStore.hybridSearch embedQuery client query limit alpha = Ok out →
       StronglySorted (desc score) out
       ∧ (0 ≤ limit → Z.of_nat (length out) ≤ limit))
  ∧ (∀ embedQuery client query,
       (∀ text, ∃ e, embedQuery text = Ok e) →
       (∀ e n, ∃ ps, client_search client e n = Ok ps) →
       (∀ ts n, ∃ ps, client_scroll client ts n = Ok ps) →
       ∃ out,
         HybridVectorStore.hybridSearch embedQuery client query limit alpha
         = Ok out).
Proof.
  split_and!.
  - apply rrf_sorted.
  - apply rrf_length.
  - apply rrf_empty.
  - intros embedQuery client query out (vr & kr & ->)%hybridSearch_fuses.
    split; [apply rrf_sorted | apply rrf_length].
  - intros. by apply hybridSearch_returns.
Qed.

Lemma reciprocalRankFusion_sorted_and_bounded_witness :
  StronglySorted (desc score)
    (HybridVectorStore.reciprocalRankFusion
       [Samples.hitA; Samples.hitB] [Samples.hitB; Samples.hitC] (1 # 2) 2)
  ∧ Z.of_nat (length (HybridVectorStore.reciprocalRankFusion
       [Samples.hitA; Samples.hitB] [Samples.hitB; Samples.hitC] (1 # 2) 2)) ≤ 2
  ∧ ∃ out,
      HybridVectorStore.hybridSearch Samples.embed_ok Samples.index_ok
        "caching and indexes" 2 (1 # 2) = Ok out
      ∧ StronglySorted (desc score) out ∧ Z.of_nat (length out) ≤ 2.
Proof.
  destruct (reciprocalRankFusion_sorted_and_bounded
              [Samples.hitA; Samples.hitB] [Samples.hitB; Samples.hitC] (1 # 2) 2)
    as (Hsorted & Hlen & _ & Hsearch & Hreturns).
  split; [exact Hsorted|]. split; [apply Hlen; lia|].
  destruct (Hreturns Samples.embed_ok Samples.index_ok "caching and indexes")
    as [out Hout]; [intros; by eexists ..|].
  exists out. split; [exact Hout|].
  destruct (Hsearch Samples.embed_ok Samples.index_ok "caching and indexes"
              out Hout) as [Hs Hl].
  split; [exact Hs | apply Hl; lia].
Defined.

(** C6 (as amended). With alpha = 0 and no fingerprint repeated in the
    keyword list, the ranking returned is the keyword list in its order,
    followed by the candidates found in the vector list only (their score
    is 0) in the order of the vector list, cut at the limit; with alpha = 1
    the same holds with the two lists exchanged.  For a limit that is not
    negative, the places of the weighted list's candidates are therefore the
    same whatever the other list is. *)
Theorem reciprocalRankFusion_degenerate_alpha
    (v kw : list SearchResult) (limit : Z) :
  (NoDup (FusionSpec.fingerprints kw) →
   FusionSpec.fingerprints (HybridVectorStore.reciprocalRankFusion v kw 0 limit)
   = Js.slice
       (FusionSpec.fingerprints kw
        ++ filter (λ key, key ∉ FusionSpec.fingerprints kw)
             (FusionSpec.first_seen (FusionSpec.fingerprints v)))
       0 limit)
  ∧ (NoDup (FusionSpec.fingerprints v) →
     FusionSpec.fingerprints (HybridVectorStore.reciprocalRankFusion v kw 1 limit)
     = Js.slice
         (FusionSpec.fingerprints v
          ++ filter (λ key, key ∉ FusionSpec.fingerprints v)
               (FusionSpec.first_seen (FusionSpec.fingerprints kw)))
         0 limit)
  ∧ (0 ≤ limit → NoDup (FusionSpec.fingerprints kw) →
     ∀ v', take (length kw)
             (FusionSpec.fingerprints
                (HybridVectorStore.reciprocalRankFusion v kw 0 limit))
           = take (length kw)
               (FusionSpec.fingerprints
                  (HybridVectorStore.reciprocalRankFusion v' kw 0 limit)))
  ∧ (0 ≤ limit → NoDup (FusionSpec.fingerprints v) →
     ∀ kw', take (length v)
              (FusionSpec.fingerprints
                 (HybridVectorStore.reciprocalRankFusion v kw 1 limit))
            = take (length v)
                (FusionSpec.fingerprints
                   (HybridVectorStore.reciprocalRankFusion v kw' 1 limit))).
Proof.
  split_and!.
  - apply rrf_alpha_0.
  - apply rrf_alpha_1.
  - intros Hlimit Hnd v'. rewrite !rrf_alpha_0 by done.
    rewrite <- (length_map HybridVectorStore.fingerprint kw).
    fold (FusionSpec.fingerprints kw). by rewrite !slice_leading_part.
  - intros Hlimit Hnd kw'. rewrite !rrf_alpha_1 by done.
    rewrite <- (length_map HybridVectorStore.fingerprint v).
    fold (FusionSpec.fingerprints v). by rewrite !slice_leading_part.
Qed.

Lemma reciprocalRankFusion_degenerate_alpha_witness :
  FusionSpec.fingerprints
    (HybridVectorStore.reciprocalRankFusion
       [Samples.hitA; Samples.hitB] [Samples.hitC; Samples.hitB] 0 10)
  = ["Sharding spreads the load"; "Indexes speed up queries";
     "Caching reduces latency"]
  ∧ FusionSpec.fingerprints
      (HybridVectorStore.reciprocalRankFusion
         [Samples.hitA; Samples.hitB] [Samples.hitC; Samples.hitB] 1 10)
    = ["Caching reduces latency"; "Indexes speed up queries";
       "Sharding spreads the load"].
Proof.
  destruct (reciprocalRankFusion_degenerate_alpha
              [Samples.hitA; Samples.hitB] [Samples.hitC; Samples.hitB] 10)
    as (H0 & H1 & _ & _).
  split.
  - rewrite H0; [reflexivity|]. apply (bool_decide_unpack _). by vm_compute.
  - rewrite H1; [reflexivity|]. apply (bool_decide_unpack _). by vm_compute.
Defined.

(** C6 as it was stated fails: with alpha = 0 and the same keyword list,
    exchanging two candidates of the vector list changes the ranking. *)
Lemma reciprocalRankFusion_alpha_0_sees_vector_order :
  FusionSpec.fingerprints
    (HybridVectorStore.reciprocalRankFusion
       [Samples.hitA; Samples.hitB] [Samples.hitC] 0 10)
  ≠ FusionSpec.fingerprints
      (HybridVectorStore.reciprocalRankFusion
         [Samples.hitB; Samples.hitA] [Samples.hitC] 0 10).
Proof. vm_compute. discriminate. Qed.


(** ** The reranker's fallback *)

Section reranker_facts.
Variable config : Config.
Variable cohere : RerankProvider.
Implicit Types (results : list SearchResult) (topK : Z).

Lemma rerank_total query results topK :
  ∃ out, Reranker.rerank config cohere query results topK = Ok out.
Proof.
  unfold Reranker.rerank. destruct (_ =? 0); [by eexists|].
  destruct (cohere _ _ _ _); by eexists.
Qed.

Lemma rerankWithMetadata_total query results topK :
  ∃ out, Reranker.rerankWithMetadata config cohere query results topK = Ok out.
Proof.
  unfold Reranker.rerankWithMetadata. destruct (_ =? 0); [by eexists|].
  destruct (cohere _ _ _ _); simpl; [by eexists|]. apply rerank_total.
Qed.

Lemma slice_of_empty {A} (l : list A) (stop : Z) :
  (Z.of_nat (length l) =? 0) = true → Js.slice l 0 stop = [].
Proof.
  intros Hl%Z.eqb_eq. destruct l; [|simpl in Hl; lia].
  rewrite slice_from_zero. apply take_nil.
Qed.

Lemma rerank_fallback query results topK e :
  cohere (rerankModel config) query
    (map (λ r, pageContent (document r)) results)
    (Z.min topK (Z.of_nat (length results))) = Err e →
  Reranker.rerank config cohere query results topK
  = Ok (map Candidate (Js.slice results 0 topK)).
Proof.
  intros Hfail. unfold Reranker.rerank.
  destruct (_ =? 0) eqn:Hlen.
  - by rewrite slice_of_empty.
  - by rewrite Hfail.
Qed.

Lemma nonempty_length results :
  results ≠ [] → (Z.of_nat (length results) =? 0) = false.
Proof. destruct results; [done|]. intros _. apply Z.eqb_neq. simpl. lia. Qed.

Lemma rerank_answer query results topK hits :
  results ≠ [] →
  cohere (rerankModel config) query
    (map (λ r, pageContent (document r)) results)
    (Z.min topK (Z.of_nat (length results))) = Ok hits →
  Reranker.rerank config cohere query results topK
  = Ok (Reranker.map_back results hits).
Proof.
  intros Hne Hhits. unfold Reranker.rerank.
  by rewrite (nonempty_length _ Hne), Hhits.
Qed.

Lemma rerankWithMetadata_answer query results topK hits :
  results ≠ [] →
  cohere (rerankModel config) query (map Reranker.enrich results)
    (Z.min topK (Z.of_nat (length results))) = Ok hits →
  Reranker.rerankWithMetadata config cohere query results topK
  = Ok (Reranker.map_back results hits).
Proof.
  intros Hne Hhits. unfold Reranker.rerankWithMetadata.
  by rewrite (nonempty_length _ Hne), Hhits.
Qed.

Lemma rerankWithMetadata_retry query results topK e1 :
  cohere (rerankModel config) query (map Reranker.enrich results)
    (Z.min topK (Z.of_nat (length results))) = Err e1 →
  results ≠ [] →
  Reranker.rerankWithMetadata config cohere query results topK
  = Reranker.rerank config cohere query results topK.
Proof.
  intros Hfail Hne. unfold Reranker.rerankWithMetadata.
  by rewrite (nonempty_length _ Hne), Hfail.
Qed.

Lemma rerankWithMetadata_fallback query results topK e1 e2 :
  cohere (rerankModel config) query (map Reranker.enrich results)
    (Z.min topK (Z.of_nat (length results))) = Err e1 →
  cohere (rerankModel config) query
    (map (λ r, pageContent (document r)) results)
    (Z.min topK (Z.of_nat (length results))) = Err e2 →
  Reranker.rerankWithMetadata config cohere query results topK
  = Ok (map Candidate (Js.slice results 0 topK)).
Proof.
  intros Hfail1 Hfail2. unfold Reranker.rerankWithMetadata.

  destruct (_ =? 0) eqn:Hlen.
  - by rewrite slice_of_empty.
  - rewrite Hfail1. simpl. by eapply rerank_fallback.
Qed.
End reranker_facts.


(** ** Results without a document *)

Section documents_facts.
Import RAGPipeline.

Lemma documents_of_candidates field (l : list SearchResult) :
  documents_of field (map Candidate l) = Ok l.
Proof. induction l as [|r l IH]; [done|]. simpl. by rewrite IH. Qed.

Lemma documents_of_Ok field l d :
  documents_of field l = Ok d → l = map Candidate d.
Proof.
  revert d. induction l as [|[r|q] l IH]; intros d; simpl;
    [by intros [= <-]| |done].
  destruct (documents_of field l) as [d'|e]; simpl; [|done].
  intros [= <-]. by rewrite (IH d').
Qed.

Lemma documents_of_Err field l e :
  documents_of field l = Err e → (Z.of_nat (length l) =? 0) = false.
Proof. destruct l; [done|]. intros _. apply Z.eqb_neq. simpl. lia. Qed.

End documents_facts.

(** ** The query pipeline *)

Section pipeline_facts.
Import RAGPipeline.
Variable config : Config.
Variable now : nat → Z.
Variable regex_matches : string → string → result nat.
Variable pipeline : Pipeline.

Ltac run_query :=
  unfold query;
  cbv [mbind M_bind date_now vectorStore_hybridSearch log lift mret M_ret
       reranker_rerankWithMetadata generateAnswer generateAnswer_call
       generations].

Ltac run_stream :=
  unfold streamQuery;
  cbv [mbind M_bind date_now vectorStore_hybridSearch log lift mret M_ret
       reranker_rerankWithMetadata generations].

Ltac fin := repeat rewrite <- app_assoc; simpl; rewrite ?app_nil_r; done.

(** The requests made to the generator are not changed by the calls of the
    store and of the reranker. *)
Ltac count_requests :=
  unfold requests; simpl calls; rewrite ?List.filter_app; simpl List.filter;
  rewrite ?app_nil_r.

(** Answer and sources of a query are those of its three stages run one
    after the other. *)
Lemma query_answer_and_sources question opts st :
  (λ r, (answer r, sources r))
    <$> (query config now regex_matches pipeline question opts st).1
  = (results ← store_hybridSearch config pipeline question (topK config);
     final ← rerank_stage config regex_matches pipeline opts question results;
     a ← generation_stage pipeline question final (streamResponse opts)
           (requests st);
     mret (a, to_sources final)).
Proof.
  run_query. unfold rerank_stage, generation_stage.
  destruct (useHybridSearch opts);
  (destruct (store_hybridSearch _ _ _ _) as [results|e]; simpl; [|done];
   destruct (useReranking opts && _); simpl;
   [destruct (reranker_answer _ _ _ _ _ _) as [reranked|e]; simpl; [|done];
    destruct (documents_of "metadata" reranked) as [final|e] eqn:Hdocs; simpl;
    [apply documents_of_Ok in Hdocs; subst reranked
    |by rewrite (documents_of_Err _ _ _ Hdocs)]|]).
  all: rewrite ?length_map, ?documents_of_candidates.
  all: destruct (_ =? 0); simpl; [done|].
  all: rewrite ?documents_of_candidates; simpl.
  all: count_requests.
  all: destruct (llm_answer _ _ _ _ _); by simpl.
Qed.

(** The calls a query makes. *)
Lemma query_calls question opts st :
  calls (query config now regex_matches pipeline question opts st).2
  = calls st ++ [CallHybridSearch question (topK config)]
    ++ match store_hybridSearch config pipeline question (topK config) with
       | Err _ => []
       | Ok results =>
           (if useReranking opts && (0 <? Z.of_nat (length results))
            then [CallRerank question (length results) (rerankTopK config)]
            else [])
           ++ match rerank_stage config regex_matches pipeline opts question
                      results with
              | Err _ => []
              | Ok final =>
                  if Z.of_nat (length final) =? 0 then []
                  else [CallGenerate question (build_context final)]
              end
       end.
Proof.
  run_query. unfold rerank_stage.
  destruct (useHybridSearch opts);
  (destruct (store_hybridSearch _ _ _ _) as [results|e]; simpl; [|done];
   destruct (useReranking opts && _); simpl;
   [destruct (reranker_answer _ _ _ _ _ _) as [reranked|e]; simpl; [|fin];
    destruct (documents_of "metadata" reranked) as [final|e] eqn:Hdocs; simpl;
    [apply documents_of_Ok in Hdocs; subst reranked
    |rewrite (documents_of_Err _ _ _ Hdocs); simpl; fin]|]).
  all: rewrite ?length_map, ?documents_of_candidates.
  all: destruct (_ =? 0); simpl; [rewrite ?documents_of_candidates; fin|].
  all: rewrite ?documents_of_candidates; simpl.
  all: destruct (llm_answer _ _ _ _ _); simpl; fin.
Qed.

Lemma for_each_yield {A} (xs : list A) (f : A → Event) st :
  for_each xs (λ x, yield (f x)) st
  = (Ok (), {| calls := calls st; ticks := ticks st;
               events := events st ++ (f <$> xs) |}).
Proof.
  revert st. induction xs as [|x rest IH]; intros st; simpl.
  - rewrite app_nil_r. by destruct st.
  - cbv [mbind M_bind yield]. rewrite IH. simpl. by rewrite <- app_assoc.
Qed.

Lemma for_each_yield_texts (texts : list string) st :
  for_each texts (λ text, if String.eqb text "" then mret ()
                          else yield (EvGeneration (Some text))) st
  = (Ok (), {| calls := calls st; ticks := ticks st;
               events := events st
                 ++ ((λ t, EvGeneration (Some t))
                       <$> filter (λ t, t ≠ "") texts) |}).
Proof.
  revert st. induction texts as [|x rest IH]; intros st; simpl.
  - rewrite app_nil_r. by destruct st.
  - cbv [mbind M_bind yield]. rewrite filter_cons.
    destruct (String.eqb_spec x "") as [->|Hne].
    + rewrite decide_False by (intros Hn; by apply Hn).
      cbv [mret M_ret]. by rewrite IH.
    + rewrite decide_True by done. rewrite IH. simpl. by rewrite <- app_assoc.
Qed.

(** The calls a streamed query makes: the generator is called whatever the
    number of candidates. *)
Lemma streamQuery_calls question opts st :
  calls (streamQuery config regex_matches pipeline question opts st).2
  = calls st ++ [CallHybridSearch question (topK config)]
    ++ match store_hybridSearch config pipeline question (topK config) with
       | Err _ => []
       | Ok results =>
           (if useReranking opts && (0 <? Z.of_nat (length results))
            then [CallRerank question (length results) (rerankTopK config)]
            else [])
           ++ match rerank_stage config regex_matches pipeline opts question
                      results with
              | Err _ => []
              | Ok final => [CallGenerateStream question (build_context final)]
              end
       end.
Proof.
  run_stream. unfold rerank_stage.
  destruct (useHybridSearch opts);
  (destruct (store_hybridSearch _ _ _ _) as [results|e]; simpl; [|done];
   destruct (useReranking opts && _); simpl;
   [destruct (reranker_answer _ _ _ _ _ _) as [reranked|e]; simpl; [|fin];
    destruct (documents_of "metadata" reranked) as [final|e] eqn:Hdocs; simpl;
    [apply documents_of_Ok in Hdocs; subst reranked|fin]|]).
  all: rewrite ?documents_of_candidates; simpl.
  all: destruct pipeline as [docs|svc]; simpl.
  all: try (rewrite for_each_yield; simpl; rewrite ?documents_of_candidates;
            simpl; fin).
  all: destruct (chat_stream svc _ _) as [[texts failure]|e]; simpl; try fin.
  all: change (λ s : PState, (Ok (), s)) with (mret () : M unit).
  all: rewrite for_each_yield_texts; destruct failure; simpl;
    rewrite ?documents_of_candidates; simpl; fin.
Qed.

Lemma query_same_for_both_searches question r s st :
  query config now regex_matches pipeline question (mkOptions r false s) st
  = query config now regex_matches pipeline question (mkOptions r true s) st.
Proof. reflexivity. Qed.

Lemma streamQuery_same_for_both_searches question r s st :
  streamQuery config regex_matches pipeline question (mkOptions r false s) st
  = streamQuery config regex_matches pipeline question (mkOptions r true s) st.
Proof. reflexivity. Qed.
End pipeline_facts.

(** C3. The flag [useHybridSearch] has no effect: [query] and
    [streamQuery] make the same [hybridSearch] call in both branches, so
    the "Vector Search Only" configuration runs the keyword search and the
    fusion as well.  With the sample services, where only the keyword search
    finds the text about sharding, the "vector only" query returns that text
    among its sources, scored by the fusion. *)
Theorem query_vector_only_is_hybrid :
  (∀ config now regex_matches pipeline question r s st,
     RAGPipeline.query config now regex_matches pipeline question
       (RAGPipeline.mkOptions r false s) st
     = RAGPipeline.query config now regex_matches pipeline question
         (RAGPipeline.mkOptions r true s) st)
  ∧ (∀ config regex_matches pipeline question r s st,
       RAGPipeline.streamQuery config regex_matches pipeline question
         (RAGPipeline.mkOptions r false s) st
       = RAGPipeline.streamQuery config regex_matches pipeline question
           (RAGPipeline.mkOptions r true s) st)
  ∧ (λ r, map (λ s, (RAGPipeline.content s, Qred (RAGPipeline.relevanceScore s)))
            (RAGPipeline.sources r))
      <$> (RAGPipeline.query Samples.live_config Samples.clock Samples.no_regex
             (RAGPipeline.LiveMode Samples.live_services)
             "caching and indexes" Samples.vector_only RAGPipeline.initial).1
    = Ok [ ("Indexes speed up queries", 123 # 7564);
           ("Caching reduces latency", 1 # 122);
           ("Sharding spreads the load", 1 # 124) ].
Proof.
  split_and!.
  - intros. apply query_same_for_both_searches.
  - intros. apply streamQuery_same_for_both_searches.
  - vm_compute. reflexivity.
Qed.

(** The comparison endpoint on the sample services, whose chat model has one
    answer, with the three queries resumed in some order: the entries of
    "Vector Search Only" and "Hybrid Search" have the same sources. *)
Example compare_vector_only_equals_hybrid :
  match (Server.api_compare Samples.live_config Samples.clock Samples.no_regex
           (RAGPipeline.LiveMode Samples.live_services) [2; 0; 1; 1; 2; 0]%nat
           (Server.mkBody (Some "caching and indexes") None None)
           RAGPipeline.initial).1 with

  | Ok {| Server.status := 200;
          Server.json := Server.JsonComparisons _ [vector; hybrid; _] |} =>
      Server.configuration vector = "Vector Search Only"
      ∧ Server.configuration hybrid = "Hybrid Search"
      ∧ Server.comparison_answer vector = Server.comparison_answer hybrid
      ∧ Server.comparison_sources vector = Server.comparison_sources hybrid
      ∧ Server.topSource vector = Server.topSource hybrid
      ∧ RAGPipeline.content <$> Server.topSource vector
        = Some "Indexes speed up queries"
  | _ => False
  end.
Proof. vm_compute. repeat split. Qed.

Lemma store_empty_rerank_stage config regex_matches pipeline opts question :
  RAGPipeline.rerank_stage config regex_matches pipeline opts question [] = Ok [].
Proof. unfold RAGPipeline.rerank_stage. simpl. by rewrite andb_false_r. Qed.

(** C4. When retrieval returns no candidate, [query] answers with the fixed
    text, returns no source and does not call the generator; [streamQuery]
    has no such guard and calls the generator with the empty context. *)
Theorem no_results_policy_single_shot_only
    config now regex_matches pipeline question opts st :
  RAGPipeline.store_hybridSearch config pipeline question (topK config) = Ok [] →
  (λ r, (RAGPipeline.answer r, RAGPipeline.sources r))
    <$> (RAGPipeline.query config now regex_matches pipeline question opts st).1
  = Ok (RAGPipeline.no_results_answer, [])
  ∧ RAGPipeline.calls
      (RAGPipeline.query config now regex_matches pipeline question opts st).2
    = RAGPipeline.calls st ++ [RAGPipeline.CallHybridSearch question (topK config)]
  ∧ RAGPipeline.calls
      (RAGPipeline.streamQuery config regex_matches pipeline question opts st).2
    = RAGPipeline.calls st
      ++ [RAGPipeline.CallHybridSearch question (topK config);
          RAGPipeline.CallGenerateStream question ""].
Proof.
  intros Hnone. split_and!.
  - rewrite query_answer_and_sources, Hnone. simpl.
    by rewrite store_empty_rerank_stage.
  - rewrite query_calls, Hnone, store_empty_rerank_stage. simpl.
    by rewrite andb_false_r.
  - rewrite streamQuery_calls, Hnone, store_empty_rerank_stage. simpl.
    by rewrite andb_false_r.
Qed.

Lemma no_results_policy_single_shot_only_witness :
  (λ r, (RAGPipeline.answer r, RAGPipeline.sources r))
    <$> (RAGPipeline.query default_config Samples.clock Samples.no_regex
           (RAGPipeline.MockMode []) "What is RAG?" Samples.all_on
           RAGPipeline.initial).1
  = Ok (RAGPipeline.no_results_answer, [])
  ∧ RAGPipeline.calls
      (RAGPipeline.streamQuery default_config Samples.no_regex
         (RAGPipeline.MockMode []) "What is RAG?" Samples.all_on
         RAGPipeline.initial).2
    = [RAGPipeline.CallHybridSearch "What is RAG?" 10;
       RAGPipeline.CallGenerateStream "What is RAG?" ""].
Proof.
  destruct (no_results_policy_single_shot_only default_config Samples.clock
              Samples.no_regex (RAGPipeline.MockMode []) "What is RAG?"
              Samples.all_on RAGPipeline.initial) as (Hq & _ & Hs);
    [reflexivity|].
  split; [exact Hq | exact Hs].
Defined.

(** On an empty mock store the streamed query yields the fragments of the
    third canned response instead of the fixed text. *)
Example streamQuery_on_empty_store :
  RAGPipeline.events
    (RAGPipeline.streamQuery default_config Samples.no_regex
       (RAGPipeline.MockMode []) "What is RAG?" Samples.all_on
       RAGPipeline.initial).2
  = [RAGPipeline.EvRetrieval None; RAGPipeline.EvRetrieval (Some 0%nat);
     RAGPipeline.EvGeneration None]
    ++ ((λ c, RAGPipeline.EvGeneration (Some c))
          <$> MockLLM.fragments (MockLLM.response2 "What is RAG?"))
    ++ [RAGPipeline.EvComplete []].
Proof. vm_compute. reflexivity. Qed.

(** C7 (as amended). An absent or empty question is rejected by the HTTP
    handlers of [/api/query] and [/api/compare] with status 400 before the
    pipeline is touched: no stage is called and the clock is not read. *)
Theorem handlers_reject_empty_question
    config now regex_matches pipeline schedule body st :
  Server.question_missing (Server.question body) = true →
  Server.api_query config now regex_matches pipeline body st
  = (Ok (Server.mkHttpResponse 400 (Server.JsonError "Question is required")), st)
  ∧ Server.api_compare config now regex_matches pipeline schedule body st
    = (Ok (Server.mkHttpResponse 400 (Server.JsonError "Question is required")), st).
Proof.
  intros Hmissing.
  unfold Server.api_query, Server.api_compare, RAGPipeline.m_try_catch.
  by rewrite Hmissing.
Qed.

Lemma handlers_reject_empty_question_witness :
  Server.api_query default_config Samples.clock Samples.no_regex
    (RAGPipeline.MockMode Samples.stored)
    (Server.mkBody (Some "") None None) RAGPipeline.initial
  = (Ok (Server.mkHttpResponse 400 (Server.JsonError "Question is required")),
     RAGPipeline.initial).
Proof.
  apply (handlers_reject_empty_question default_config Samples.clock
           Samples.no_regex (RAGPipeline.MockMode Samples.stored) []
           (Server.mkBody (Some "") None None) RAGPipeline.initial).
  reflexivity.
Defined.

(** C7 as it was stated fails: [RAGPipeline.query] does not look at the
    question; called with the empty string it runs retrieval and generation
    and returns an answer. *)
Lemma query_runs_on_empty_question :
  ∃ response st,
    RAGPipeline.query default_config Samples.clock Samples.no_regex
      (RAGPipeline.MockMode Samples.stored) "" Samples.hybrid_only
      RAGPipeline.initial = (Ok response, st)
    ∧ RAGPipeline.answer response = MockLLM.response0 ""
    ∧ length (RAGPipeline.sources response) = 4%nat
    ∧ RAGPipeline.CallHybridSearch "" 10 ∈ RAGPipeline.calls st.
Proof.
  eexists _, _. split; [vm_compute; reflexivity|].
  split; [vm_compute; reflexivity|]. split; [reflexivity|]. by left.
Qed.

(** With a rerank provider that is down, a live query keeps going and its
    sources are the start of what retrieval returned. *)
Lemma query_survives_reranker_failure
    config now regex_matches services question opts st results :
  RAGPipeline.store_hybridSearch config (RAGPipeline.LiveMode services)
    question (topK config) = Ok results →
  (∀ model q documents topN,
     ∃ e, RAGPipeline.cohere services model q documents topN = Err e) →
  RAGPipeline.useReranking opts = true →
  (λ r, (RAGPipeline.answer r, RAGPipeline.sources r))
    <$> (RAGPipeline.query config now regex_matches
           (RAGPipeline.LiveMode services) question opts st).1
  = (a ← RAGPipeline.generation_stage (RAGPipeline.LiveMode services) question
           (Js.slice results 0 (rerankTopK config))
           (RAGPipeline.streamResponse opts) (RAGPipeline.requests st);
     mret (a, RAGPipeline.to_sources (Js.slice results 0 (rerankTopK config)))).
Proof.
  intros Hstore Hdown Hrerank.
  rewrite query_answer_and_sources, Hstore. simpl.
  unfold RAGPipeline.rerank_stage. rewrite Hrerank. simpl.
  destruct (0 <? Z.of_nat (length results)) eqn:Hlen.
  - unfold RAGPipeline.reranker_answer.
    destruct (Hdown (rerankModel config) question
                (map Reranker.enrich results)
                (Z.min (rerankTopK config) (Z.of_nat (length results)))) as [e1 H1].
    destruct (Hdown (rerankModel config) question
                (map (λ r, pageContent (document r)) results)
                (Z.min (rerankTopK config) (Z.of_nat (length results)))) as [e2 H2].
    rewrite (rerankWithMetadata_fallback _ _ _ _ _ _ _ H1 H2). simpl.
    by rewrite documents_of_candidates.
  - apply Z.ltb_ge in Hlen. destruct results; [|simpl in Hlen; lia].
    simpl. by rewrite slice_of_empty.
Qed.

(** C5 (as amended). [rerank] and [rerankWithMetadata] never pass an error
    on.  If the provider call of [rerank] fails, [rerank] returns
    [results.slice(0, topK)]; if the provider call of [rerankWithMetadata]
    fails, it goes through [rerank], which asks the provider again with the
    plain texts: when that call fails too, [results.slice(0, topK)] is
    returned, and when it answers, the list reranked by its hits is.  For an
    empty list of candidates no call is made and the empty list is returned.
    For a [topK] that is not negative the slice is the first [topK] results,
    in their order.  A live query whose rerank provider is down returns
    sources that are this start of the retrieved list. *)

Theorem reranker_failure_falls_back
    (config : Config) (cohere : RerankProvider) (query : string)
    (results : list SearchResult) (top : Z) :
  (∃ out, Reranker.rerank config cohere query results top = Ok out)
  ∧ (∃ out, Reranker.rerankWithMetadata config cohere query results top = Ok out)
  ∧ (∀ e,
       cohere (rerankModel config) query
         (map (λ r, pageContent (document r)) results)
         (Z.min top (Z.of_nat (length results))) = Err e →
       Reranker.rerank config cohere query results top
       = Ok (map Candidate (Js.slice results 0 top)))
  ∧ (∀ e1 e2,
       cohere (rerankModel config) query (map Reranker.enrich results)
         (Z.min top (Z.of_nat (length results))) = Err e1 →
       cohere (rerankModel config) query
         (map (λ r, pageContent (document r)) results)
         (Z.min top (Z.of_nat (length results))) = Err e2 →
       Reranker.rerankWithMetadata config cohere query results top
       = Ok (map Candidate (Js.slice results 0 top)))
  ∧ (∀ e1 hits,
       results ≠ [] →
       cohere (rerankModel config) query (map Reranker.enrich results)
         (Z.min top (Z.of_nat (length results))) = Err e1 →
       cohere (rerankModel config) query
         (map (λ r, pageContent (document r)) results)
         (Z.min top (Z.of_nat (length results))) = Ok hits →
       Reranker.rerankWithMetadata config cohere query results top
       = Ok (Reranker.map_back results hits))
  ∧ (∀ hits,
       results ≠ [] →
       cohere (rerankModel config) query (map Reranker.enrich results)
         (Z.min top (Z.of_nat (length results))) = Ok hits →
       Reranker.rerankWithMetadata config cohere query results top
       = Ok (Reranker.map_back results hits))
  ∧ (∀ hits,
       results ≠ [] →
       cohere (rerankModel config) query
         (map (λ r, pageContent (document r)) results)
         (Z.min top (Z.of_nat (length results))) = Ok hits →
       Reranker.rerank config cohere query results top
       = Ok (Reranker.map_back results hits))
  ∧ (results = [] →
     Reranker.rerank config cohere query results top = Ok []
     ∧ Reranker.rerankWithMetadata config cohere query results top = Ok [])
  ∧ (0 ≤ top → Js.slice results 0 top = take (Z.to_nat top) results)
  ∧ (∀ now regex_matches services opts st,
       RAGPipeline.store_hybridSearch config (RAGPipeline.LiveMode services)
         query (topK config) = Ok results →
       (∀ model q documents topN,
          ∃ e, RAGPipeline.cohere services model q documents topN = Err e) →
       RAGPipeline.useReranking opts = true →
       (λ r, (RAGPipeline.answer r, RAGPipeline.sources r))
         <$> (RAGPipeline.query config now regex_matches
                (RAGPipeline.LiveMode services) query opts st).1
       = (a ← RAGPipeline.generation_stage (RAGPipeline.LiveMode services) query
                (Js.slice results 0 (rerankTopK config))
                (RAGPipeline.streamResponse opts) (RAGPipeline.requests st);
          mret (a, RAGPipeline.to_sources
                     (Js.slice results 0 (rerankTopK config))))).
Proof.
  split_and!.
  - apply rerank_total.
  - apply rerankWithMetadata_total.
  - intros e. apply rerank_fallback.
  - intros e1 e2. apply rerankWithMetadata_fallback.
  - intros e1 hits Hne Hfail Hhits.
    rewrite (rerankWithMetadata_retry _ _ _ _ _ _ Hfail Hne).
    by apply rerank_answer.
  - intros hits. apply rerankWithMetadata_answer.
  - intros hits. apply rerank_answer.
  - by intros ->.
  - apply slice_nonneg.
  - intros. by apply query_survives_reranker_failure.
Qed.

Lemma reranker_failure_falls_back_witness :
  Reranker.rerank Samples.live_config Samples.failing_provider
    "caching and indexes" Samples.retrieved 2
  = Ok (map Candidate (take 2 Samples.retrieved))
  ∧ Reranker.rerankWithMetadata Samples.live_config Samples.failing_provider
      "caching and indexes" Samples.retrieved 2
    = Ok (map Candidate (take 2 Samples.retrieved))
  ∧ Reranker.rerankWithMetadata default_config Samples.picky_provider "latency"
      [Samples.titledA; Samples.hitB] 2
    = Ok (Reranker.map_back [Samples.titledA; Samples.hitB]
            [mkRerankHit 1 (9 # 10); mkRerankHit 0 (2 # 10)])
  ∧ (λ r, (RAGPipeline.answer r, RAGPipeline.sources r))
      <$> (RAGPipeline.query Samples.live_config Samples.clock Samples.no_regex
             (RAGPipeline.LiveMode Samples.live_services)
             "caching and indexes" Samples.all_on RAGPipeline.initial).1
    = Ok ("Caching helps [1].",
          RAGPipeline.to_sources (take 3 Samples.retrieved)).
Proof.
  destruct (reranker_failure_falls_back Samples.live_config
              Samples.failing_provider "caching and indexes"
              Samples.retrieved 2)
    as (_ & _ & H1 & H2 & _ & _ & _ & _ & H3 & H4).
  split_and!.
  - rewrite (H1 "provider unavailable") by reflexivity.
    rewrite H3 by lia. reflexivity.
  - rewrite (H2 "provider unavailable" "provider unavailable") by reflexivity.
    rewrite H3 by lia. reflexivity.
  - destruct (reranker_failure_falls_back default_config
                Samples.picky_provider "latency"
                [Samples.titledA; Samples.hitB] 2)
      as (_ & _ & _ & _ & Hretry & _).
    by apply (Hretry "request too large").
  - rewrite (H4 Samples.clock Samples.no_regex Samples.live_services
               Samples.all_on RAGPipeline.initial).
    + vm_compute. reflexivity.
    + vm_compute. reflexivity.
    + intros. by eexists.
    + reflexivity.
Defined.

(** C5 as it was stated fails: a provider that refuses the request with the
    titles but ranks the plain one makes [rerankWithMetadata] return the
    reranked order, not the start of the input order, although its provider
    call failed. *)
Lemma rerankWithMetadata_retry_reorders :
  Samples.picky_provider (rerankModel default_config) "latency"
    (map Reranker.enrich [Samples.titledA; Samples.hitB]) 2
  = Err "request too large"
  ∧ Reranker.rerankWithMetadata default_config Samples.picky_provider "latency"
      [Samples.titledA; Samples.hitB] 2
    = Ok [Candidate (with_score Samples.hitB (9 # 10));
          Candidate (with_score Samples.titledA (2 # 10))]
  ∧ Reranker.rerankWithMetadata default_config Samples.picky_provider "latency"
      [Samples.titledA; Samples.hitB] 2
    ≠ Ok (map Candidate (take 2 [Samples.titledA; Samples.hitB])).
Proof.
  split_and!; [reflexivity | reflexivity |].
  intros H.
  apply (f_equal (λ r, match r with
                       | Ok l => RAGPipeline.documents_of "" l
                       | Err _ => Ok []
                       end)) in H.
  apply (f_equal (λ r, match r with
                       | Ok l => map (λ x, pageContent (document x)) l
                       | Err _ => []
                       end)) in H.
  vm_compute in H. discriminate.
Qed.



(** ** Chunking *)

Section chunking_facts.
Variable recursive_split : Z → Z → string → list Document.
Variable token_split : Z → Z → string → list Document.
Variable codeMatches : string → Z.
Variable structuredMatches : string → Z.

Lemma stamp_index name md docs i c :
  Chunking.stamp name md docs !! i = Some c →
  metadata c !! "chunkIndex" = Some (VNumber (Z.of_nat i)).
Proof.
  unfold Chunking.stamp. rewrite list_lookup_imap.
  destruct (docs !! i) as [d|]; simpl; [|done]. intros [= <-]. simpl.
  rewrite lookup_insert_ne by done. apply lookup_insert_eq.
Qed.

Lemma ltb_bool_decide (a b : Z) : (a <? b) = bool_decide (a < b).
Proof.
  destruct (Z.ltb_spec a b).
  - by rewrite bool_decide_eq_true_2.
  - rewrite bool_decide_eq_false_2; [done | lia].
Qed.

Lemma stamped_positions contentType (chunks : list Document) :
  (∀ i c, chunks !! i = Some c →
          metadata c !! "chunkIndex" = Some (VNumber (Z.of_nat i))) →
  ChunkSpec.position
    <$> imap (λ index chunk,
          {| pageContent := pageContent chunk;
             metadata :=
               <["totalChunks" := VNumber (Z.of_nat (length chunks))]>
                 (<["hasNext" := VBool (Z.of_nat index <? Z.of_nat (length chunks) - 1)]>
                    (<["hasPrevious" := VBool (0 <? Z.of_nat index)]>
                       (<["contentType" := VString contentType]>
                          (metadata chunk)))) |}) chunks
  = ChunkSpec.expected_position (length chunks) <$> seq 0 (length chunks).
Proof.
  intros Hindex. apply list_eq. intros i.
  rewrite !list_lookup_fmap, list_lookup_imap.
  destruct (chunks !! i) as [c|] eqn:Hc; simpl.
  - rewrite lookup_seq_lt by (by eapply lookup_lt_Some). simpl.
    unfold ChunkSpec.position, ChunkSpec.expected_position. simpl.
    rewrite lookup_insert_eq.
    rewrite !(lookup_insert_ne _ _ "chunkIndex") by done.
    rewrite (Hindex i c Hc).
    rewrite (lookup_insert_ne _ "totalChunks" "hasPrevious") by done.
    rewrite (lookup_insert_ne _ "hasNext" "hasPrevious") by done.
    rewrite lookup_insert_eq.
    rewrite (lookup_insert_ne _ "totalChunks" "hasNext") by done.
    rewrite lookup_insert_eq.
    by rewrite !ltb_bool_decide.
  - rewrite lookup_seq_ge by (by apply lookup_ge_None). done.
Qed.

Lemma chunk_positions chunkSize chunkOverlap text md :
  let chunks := Chunking.chunk recursive_split token_split codeMatches
                  structuredMatches chunkSize chunkOverlap text md in
  ChunkSpec.position <$> chunks
  = ChunkSpec.expected_position (length chunks) <$> seq 0 (length chunks).
Proof.
  unfold Chunking.chunk. cbn zeta. rewrite !length_imap.
  apply stamped_positions.
  destruct (Chunking.detectContentType _ _ _);
    unfold Chunking.semantic_chunk, Chunking.token_chunk;
    intros i c; apply stamp_index.
Qed.
End chunking_facts.

(** C8. For every text (empty or not), every splitter and every metadata
    handed in, the chunks returned by [AdaptiveChunking.chunk] carry the
    indices 0, 1, 2, ... in order, the number of chunks as [totalChunks],
    [hasPrevious] exactly from the second chunk on and [hasNext] exactly
    before the last one. *)
Theorem adaptive_chunk_positions
    (recursive_split token_split : Z → Z → string → list Document)
    (codeMatches structuredMatches : string → Z)
    (chunkSize chunkOverlap : Z) (text : string) (md : gmap string value) :
  ChunkSpec.position
    <$> Chunking.chunk recursive_split token_split codeMatches
          structuredMatches chunkSize chunkOverlap text md
  = ChunkSpec.expected_position
      (length (Chunking.chunk recursive_split token_split codeMatches
                 structuredMatches chunkSize chunkOverlap text md))
    <$> seq 0 (length (Chunking.chunk recursive_split token_split codeMatches
                         structuredMatches chunkSize chunkOverlap text md)).
Proof. apply chunk_positions. Qed.

Example chunks_of_a_short_document :
  (λ c, (pageContent c, ChunkSpec.position c))
    <$> Chunking.chunk ChunkSpec.fixed_split ChunkSpec.fixed_split
          (λ _, 0) (λ _, 0) 20 5 "# Title

Paragraph one. Paragraph two."
          {[ "source" := VString "a.md"; "chunkIndex" := VNumber 7 ]}
  = [ ("# Title

Paragraph o",
       (Some (VNumber 0), Some (VNumber 2), Some (VBool false), Some (VBool true)));
      ("ne. Paragraph two.",
       (Some (VNumber 1), Some (VNumber 2), Some (VBool true), Some (VBool false))) ].
Proof. vm_compute. reflexivity. Qed.

(** ** The mock generator *)

Section mock_llm_facts.
Import MockLLM MockSpec.

Lemma split_space_cons s : ∃ w ws, Js.split_space s = w :: ws.
Proof.
  induction s as [|c rest [w [ws IH]]]; simpl; [by eexists _, _|].
  destruct (Ascii.eqb c " "); [by eexists _, _|].
  rewrite IH. by eexists _, _.
Qed.

Lemma append_empty_r (s : string) : s +:+ "" = s.
Proof.
  induction s as [|c rest IH]; [done|].
  change (String c (rest +:+ "") = String c rest). by f_equal.
Qed.

Lemma append_cons (c : ascii) (s t : string) :
  String c s +:+ t = String c (s +:+ t).
Proof. reflexivity. Qed.

Lemma append_empty_l (s : string) : "" +:+ s = s.
Proof. reflexivity. Qed.

Lemma fragments_glue_from (k : nat) (words : list string) :
  imap (λ i w, w +:+ (if Z.of_nat (k + i) <? Z.of_nat (k + length words) - 1
                      then " " else "")) words
  = glue words.
Proof.
  revert k. induction words as [|w rest IH]; intros k; [done|].
  rewrite imap_cons. simpl length. destruct rest as [|w' rest'].
  - simpl. replace (Z.of_nat (k + 0) <? Z.of_nat (k + 1) - 1) with false
      by (symmetry; apply Z.ltb_ge; lia).
    by rewrite append_empty_r.
  - change (glue (w :: w' :: rest')) with ((w +:+ " ") :: glue (w' :: rest')).
    f_equal.
    + replace (Z.of_nat (k + 0) <? Z.of_nat (k + S (length (w' :: rest'))) - 1)
        with true by (symmetry; apply Z.ltb_lt; simpl; lia).
      done.
    + rewrite <- (IH (S k)). apply imap_ext. intros i x _. simpl.
      by replace (k + S i)%nat with (S (k + i)) by lia;
         replace (k + S (S (length rest')))%nat
           with (S (k + S (length rest'))) by lia.
Qed.

Lemma fragments_glue answer : fragments answer = glue (Js.split_space answer).
Proof. unfold fragments. apply (fragments_glue_from 0). Qed.

Lemma append_assoc (s t u : string) : (s +:+ t) +:+ u = s +:+ t +:+ u.
Proof.
  induction s as [|c rest IH]; [done|].
  rewrite !append_cons. by f_equal.
Qed.

Lemma concat_glue_cons w ws :
  ws ≠ [] →
  String.concat "" (glue (w :: ws)) = w +:+ " " +:+ String.concat "" (glue ws).
Proof.
  destruct ws as [|w' ws']; [done|]. intros _.
  change (glue (w :: w' :: ws')) with ((w +:+ " ") :: glue (w' :: ws')).
  assert (∃ y l, glue (w' :: ws') = y :: l) as (y & l & ->).
  { destruct ws'; by eexists _, _. }
  change (String.concat "" ((w +:+ " ") :: y :: l))
    with ((w +:+ " ") +:+ "" +:+ String.concat "" (y :: l)).
  by rewrite append_empty_l, append_assoc.
Qed.

Lemma concat_glue_split s : String.concat "" (glue (Js.split_space s)) = s.
Proof.
  induction s as [|c rest IH]; [done|]. simpl.
  destruct (split_space_cons rest) as [w [ws Hw]]. rewrite Hw in IH |- *.
  destruct (Ascii.eqb_spec c " ") as [->|Hc].
  - rewrite concat_glue_cons by done. by rewrite IH.
  - destruct ws as [|w' ws'].
    + simpl in *. by rewrite IH.
    + rewrite concat_glue_cons by done.
      rewrite concat_glue_cons in IH by done.
      rewrite append_cons. by rewrite IH.
Qed.

(** The fragments of an answer, put together in order, are the answer. *)
Lemma fragments_concat answer : String.concat "" (fragments answer) = answer.
Proof. rewrite fragments_glue. apply concat_glue_split. Qed.

Lemma generateAnswer_defined question context :
  ∃ text, generateAnswer question context = Some text.
Proof.
  unfold generateAnswer. simpl length.
  pose proof (Z.rem_bound_pos (Z.abs (hashCode question)) 3
                (Z.abs_nonneg _) ltac:(lia)) as Hb.
  change (Z.of_nat 3) with 3.
  destruct (Z.to_nat (Z.rem (Z.abs (hashCode question)) 3)) as [|[|[|n]]] eqn:Hn;
    simpl; try by eexists.
  lia.
Qed.
End mock_llm_facts.

(** C9. The mock generator is a function of the question alone: the answer
    is the canned response picked by the absolute value of the 32-bit hash
    of the question, modulo the number of responses, whatever the context;
    and the fragments that [streamAnswer] yields for the same input, put
    together in order, are that answer. *)
Theorem mock_generator_deterministic (question context : string) :
  ∃ text,
    MockLLM.generateAnswer question context = Some text
    ∧ MockLLM.responses question
        !! Z.to_nat (Z.rem (Z.abs (MockLLM.hashCode question)) 3) = Some text
    ∧ (∀ context', MockLLM.generateAnswer question context' = Some text)
    ∧ MockLLM.streamAnswer question context = Some (MockLLM.fragments text)
    ∧ String.concat "" (MockLLM.fragments text) = text.
Proof.
  destruct (generateAnswer_defined question context) as [text Htext].
  exists text. split_and!.
  - done.
  - exact Htext.
  - intros context'. exact Htext.
  - unfold MockLLM.streamAnswer. by rewrite Htext.
  - apply fragments_concat.
Qed.

Example mock_answer_to_a_question :
  MockLLM.generateAnswer "What is RAG?" "context"
  = Some (MockLLM.response2 "What is RAG?")
  ∧ MockLLM.hashCode "What is RAG?" = 1306027841.
Proof. split; vm_compute; reflexivity. Qed.

(** ** The mock vector store *)

Section mock_store_facts.
Import MockVectorStore.
Implicit Types (documents : list Document) (query : string) (limit : Z).

Lemma matches_none content queryWords :
  (∀ word, word ∈ queryWords → Js.includes content word = false) →
  matches content queryWords = 0.
Proof.
  unfold matches. intros Hnone.
  assert (Hacc : ∀ acc,
    foldl (λ acc word, acc + (if Js.includes content word then 1 else 0))
      acc queryWords = acc); [|apply Hacc].
  induction queryWords as [|w rest IH]; intros acc; simpl; [done|].
  rewrite (Hnone w) by (by left). rewrite Z.add_0_r.
  apply IH. intros word Hword. apply Hnone. by right.
Qed.

Lemma fallback_take documents :
  fallback documents
  = imap (λ i doc,
      let s := ((5 # 10) - inject_Z (Z.of_nat i) * (1 # 10))%Q in
      {| document := doc; score := s; vectorScore := Some s;
         keywordScore := None |}) (take 3 documents).
Proof.
  unfold fallback. rewrite slice_nonneg by lia. f_equal.
  destruct (Z.le_gt_cases 3 (Z.of_nat (length documents))).
  - by rewrite Z.min_l.
  - rewrite Z.min_r by lia. rewrite Nat2Z.id.
    rewrite !take_ge; [done | lia | lia].
Qed.

Lemma fallback_documents documents :
  map document (fallback documents) = take 3 documents.
Proof.
  rewrite fallback_take.
  destruct documents as [|a [|b [|c rest]]]; reflexivity.
Qed.

Lemma fallback_scores documents :
  Forall2 Qeq (map score (fallback documents))
    (take (length documents) [1 # 2; 2 # 5; 3 # 10]%Q).
Proof.
  rewrite fallback_take.
  destruct documents as [|a [|b [|c rest]]]; simpl; rewrite ?take_nil;
    repeat (constructor; [by vm_compute|]); constructor.
Qed.

Lemma fallback_nonempty documents : documents ≠ [] → fallback documents ≠ [].
Proof. rewrite fallback_take. by destruct documents. Qed.

Lemma hybridSearch_nonempty documents query limit :
  documents ≠ [] → hybridSearch documents query limit ≠ [].
Proof.
  intros Hdocs. unfold hybridSearch.
  replace (Z.of_nat (length documents) =? 0) with false
    by (by destruct documents).
  cbv zeta.
  match goal with
  | |- context [if ?b then fallback _ else _] => destruct b eqn:Hres
  end.
  - by apply fallback_nonempty.
  - apply Z.eqb_neq in Hres. intros Hnil. rewrite Hnil in Hres. simpl in Hres. lia.
Qed.

Lemma hybridSearch_no_match documents query limit :
  (∀ doc word, doc ∈ documents →
     word ∈ Js.split_space (Js.toLowerCase query) →
     Js.includes (Js.toLowerCase (pageContent doc)) word = false) →
  hybridSearch documents query limit = fallback documents.
Proof.
  intros Hnone. unfold hybridSearch.
  destruct documents as [|d rest] eqn:Hdocs; [reflexivity|].
  rewrite <- Hdocs in *.
  replace (Z.of_nat (length documents) =? 0) with false by (by subst).
  cbv zeta. rewrite filter_none.
  - rewrite slice_from_zero. cbn [Js.sort]. by rewrite take_nil.
  - intros r Hr. apply list_elem_of_lookup_1 in Hr as [i Hi].
    apply list_lookup_imap_Some in Hi as (doc & Hdoc & ->).
    simpl. unfold score_of.
    rewrite matches_none.
    2:{ intros word Hword. apply Hnone; [|done]. by eapply list_elem_of_lookup_2. }
    intros Hpos. apply negb_true_iff in Hpos.
    apply not_true_iff_false in Hpos. apply Hpos.
    apply Qle_bool_iff. unfold Qdiv. rewrite Qmult_0_l. apply Qle_refl.
Qed.
End mock_store_facts.

(** ** The pipeline in mock mode *)

Section mock_pipeline_facts.
Import RAGPipeline.
Variable config : Config.
Variable now : nat → Z.
Variable regex_matches : string → string → result nat.

Lemma rescore_all_length queryWords results reranked :
  MockReranker.rescore_all regex_matches queryWords results = Ok reranked →
  length reranked = length results.
Proof.
  revert reranked. induction results as [|r rest IH]; intros reranked; simpl.
  - by intros [= <-].
  - destruct (MockReranker.rescore _ _ _) as [r'|e]; simpl; [|done].
    destruct (MockReranker.rescore_all _ _ _) as [rest'|e]; simpl; [|done].
    intros [= <-]. simpl. f_equal. by apply IH.
Qed.

Lemma mock_rerank_nonempty question results top out :
  results ≠ [] → 1 ≤ top →
  MockReranker.rerankWithMetadata regex_matches question results top = Ok out →
  out ≠ [].
Proof.
  intros Hres Htop. unfold MockReranker.rerankWithMetadata, MockReranker.rerank.
  destruct (MockReranker.rescore_all _ _ _) as [reranked|e] eqn:Hall; simpl; [|done].
  intros [= <-]. apply rescore_all_length in Hall.
  rewrite slice_nonneg by lia.
  change MockReranker.by_score_desc with (by_key_desc score).
  intros Hnil. apply (f_equal length) in Hnil.
  rewrite length_take, (Permutation_length (sort_perm _ _)), Hall in Hnil.
  simpl in Hnil. destruct results; [done|]. simpl in Hnil. lia.
Qed.

Lemma mock_answer_not_fixed question context :
  mock_answer question context ≠ no_results_answer.
Proof.
  unfold mock_answer.
  destruct (generateAnswer_defined question context) as [text Htext].
  rewrite Htext. simpl. unfold MockLLM.generateAnswer in Htext.
  intros Heq. apply (f_equal (String.get 0)) in Heq.
  destruct (Z.to_nat _) as [|[|[|n]]]; simpl in Htext;
    try (injection Htext as <-; vm_compute in Heq; discriminate).
  done.
Qed.

(** In mock mode, with documents in the store and a reranker that keeps at
    least one candidate, no answer of a query is the fixed one. *)
Lemma mock_query_answers documents question opts st response :
  documents ≠ [] →
  useReranking opts = false ∨ 1 ≤ rerankTopK config →
  (query config now regex_matches (MockMode documents) question opts st).1
  = Ok response →
  answer response ≠ no_results_answer.
Proof.
  intros Hdocs Hkeep Hq.
  pose proof (query_answer_and_sources config now regex_matches
                (MockMode documents) question opts st) as Hspec.
  rewrite Hq in Hspec. simpl in Hspec.
  pose proof (hybridSearch_nonempty documents question (topK config) Hdocs) as Hne.
  set (results := MockVectorStore.hybridSearch documents question (topK config)) in *.
  assert (Hfinal : ∀ final,
    rerank_stage config regex_matches (MockMode documents) opts question results
    = Ok final → final ≠ []).
  { unfold rerank_stage. intros final.
    destruct (useReranking opts) eqn:Hr; simpl.
    - destruct Hkeep as [?|Hkeep]; [done|].
      destruct (0 <? _); [|by intros [= <-]].
      unfold reranker_answer.
      destruct (MockReranker.rerankWithMetadata _ _ _ _) as [out|e] eqn:Hout;
        simpl; [|done].
      rewrite documents_of_candidates. intros [= <-].
      by eapply mock_rerank_nonempty.

    - by intros [= <-]. }
  destruct (rerank_stage _ _ _ _ _ _) as [final|e]; simpl in Hspec; [|done].
  specialize (Hfinal final eq_refl).
  unfold generation_stage in Hspec.
  replace (Z.of_nat (length final) =? 0) with false in Hspec
    by (by destruct final).
  simpl in Hspec. injection Hspec as -> _.
  apply mock_answer_not_fixed.
Qed.

Lemma mock_query_without_reranking documents question s st :
  ∃ response,
    (query config now regex_matches (MockMode documents) question
       (mkOptions false true s) st).1 = Ok response.
Proof.
  unfold query.
  cbv [mbind M_bind date_now vectorStore_hybridSearch log lift mret M_ret
       reranker_rerankWithMetadata generateAnswer generateAnswer_call
       generations]. simpl.
  rewrite length_map.
  destruct (_ =? 0); simpl; rewrite ?documents_of_candidates; simpl;
    by eexists.
Qed.

End mock_pipeline_facts.


(** C10 (as amended). A mock store that holds a document never answers
    [hybridSearch] with the empty list.  When no stored document contains
    a word of the query, the answer is the fallback: the first three stored
    documents (all of them if there are fewer) with the scores 0.5, 0.4 and
    0.3.  In mock mode a query on such a store does not return the fixed
    no-results answer as long as reranking is off or [rerankTopK] is at
    least 1. *)
Theorem mock_hybridSearch_never_empty
    (documents : list Document) (query : string) (limit : Z) :
  documents ≠ [] →
  MockVectorStore.hybridSearch documents query limit ≠ []
  ∧ ((∀ doc word, doc ∈ documents →
        word ∈ Js.split_space (Js.toLowerCase query) →
        Js.includes (Js.toLowerCase (pageContent doc)) word = false) →
     MockVectorStore.hybridSearch documents query limit
     = MockVectorStore.fallback documents)
  ∧ map document (MockVectorStore.fallback documents) = take 3 documents
  ∧ Forall2 Qeq (map score (MockVectorStore.fallback documents))
      (take (length documents) [1 # 2; 2 # 5; 3 # 10]%Q)
  ∧ (∀ config now regex_matches opts st response,
       RAGPipeline.useReranking opts = false ∨ 1 ≤ rerankTopK config →
       (RAGPipeline.query config now regex_matches
          (RAGPipeline.MockMode documents) query opts st).1 = Ok response →
       RAGPipeline.answer response ≠ RAGPipeline.no_results_answer).
Proof.
  intros Hdocs. split_and!.
  - by apply hybridSearch_nonempty.
  - apply hybridSearch_no_match.
  - apply fallback_documents.
  - apply fallback_scores.
  - intros. by eapply mock_query_answers.
Qed.

Lemma mock_hybridSearch_never_empty_witness :
  map (λ r, (pageContent (document r), Qred (score r)))
    (MockVectorStore.hybridSearch Samples.stored "zebra" 10)
  = [ ("Caching reduces latency", 1 # 2);
      ("Indexes speed up queries", 2 # 5);
      ("Sharding spreads the load", 3 # 10) ]
  ∧ MockVectorStore.hybridSearch Samples.stored "zebra" 10
    = MockVectorStore.fallback Samples.stored
  ∧ RAGPipeline.answer
      <$> (RAGPipeline.query default_config Samples.clock Samples.no_regex
             (RAGPipeline.MockMode Samples.stored) "zebra" Samples.all_on
             RAGPipeline.initial).1
    = Ok (MockLLM.response1 "zebra")
  ∧ MockLLM.response1 "zebra" ≠ RAGPipeline.no_results_answer.
Proof.
  destruct (mock_hybridSearch_never_empty Samples.stored "zebra" 10)
    as (_ & Hfallback & _ & _ & Hanswer); [discriminate|].
  assert (Hnone : ∀ doc word, doc ∈ Samples.stored →
            word ∈ Js.split_space (Js.toLowerCase "zebra") →
            Js.includes (Js.toLowerCase (pageContent doc)) word = false).
  { intros doc word Hdoc Hword.
    assert (Hall : Forall (λ d, Forall (λ w,
              Js.includes (Js.toLowerCase (pageContent d)) w = false)
                (Js.split_space (Js.toLowerCase "zebra"))) Samples.stored)
      by compute_done.
    rewrite Forall_forall in Hall. specialize (Hall doc Hdoc).
    rewrite Forall_forall in Hall. by apply Hall. }
  split_and!.
  - vm_compute. reflexivity.
  - by apply Hfallback.
  - vm_compute. reflexivity.
  - apply (Hanswer default_config Samples.clock Samples.no_regex Samples.all_on
             RAGPipeline.initial
             {| RAGPipeline.answer := MockLLM.response1 "zebra";
                RAGPipeline.sources :=
                  RAGPipeline.to_sources
                    (Js.slice (Js.sort MockReranker.by_score_desc
                       (map (λ r, with_score r (Qmin (99 # 100) (0 / 5)))
                          (MockVectorStore.fallback Samples.stored))) 0 3);
                RAGPipeline.metrics :=
                  {| RAGPipeline.retrievalTime := 7;
                     RAGPipeline.rerankingTime := 7;
                     RAGPipeline.generationTime := 7;
                     RAGPipeline.totalTime := 49 |} |}).
    + right. vm_compute. discriminate.
    + vm_compute. reflexivity.
Defined.

(** C10 as it was stated fails in its last part: with [rerankTopK = 0] the
    mock reranker hands over no candidate and the query on a store with
    documents returns the fixed no-results answer. *)
Lemma mock_query_reaches_no_results_answer :
  Samples.stored ≠ []
  ∧ (λ r, (RAGPipeline.answer r, RAGPipeline.sources r))
      <$> (RAGPipeline.query Samples.keep_none_config Samples.clock
             Samples.no_regex (RAGPipeline.MockMode Samples.stored) "zebra"
             Samples.all_on RAGPipeline.initial).1
    = Ok (RAGPipeline.no_results_answer, []).
Proof. split; [discriminate | vm_compute; reflexivity]. Qed.

(** * Further properties of the code *)

(** ** Where the fused results come from *)

Section fusion_origin.
Import HybridVectorStore FusionSpec RankSpec.

Lemma first_with_app key p q :
  first_with key (p ++ q)
  = match first_with key p with Some r => Some r | None => first_with key q end.
Proof.
  induction p as [|r p IH]; simpl; [done|].
  by destruct (String.eqb (fingerprint r) key).
Qed.

Lemma first_with_Some key l r :
  first_with key l = Some r → r ∈ l ∧ fingerprint r = key.
Proof.
  induction l as [|x l IH]; simpl; [done|].
  destruct (String.eqb (fingerprint x) key) eqn:E.
  - intros [= ->]. apply String.eqb_eq in E. split; [left|done].
  - intros H. destruct (IH H). split; [by right|done].
Qed.

Lemma map_get_is_Some m key : key ∈ m.*1 → is_Some (map_get m key).
Proof.
  induction m as [|[k' e'] m IH]; simpl; [by intros ?%elem_of_nil|].
  destruct (String.eqb k' key) eqn:E; [by eexists|].
  intros [->|Hin]%elem_of_cons; [|by apply IH].
  by rewrite String.eqb_refl in E.
Qed.

Lemma accumulate_first m r q p :
  (∀ key, fresult <$> map_get m key = first_with key p) →
  ∀ key, fresult <$> map_get (accumulate m r q) key = first_with key (p ++ [r]).
Proof.
  intros Hm key. rewrite first_with_app. simpl. unfold accumulate.
  destruct (map_has m (fingerprint r)) eqn:Hhas.
  - rewrite map_get_add_score.
    assert (fresult <$> map_get m key = first_with key p) as Hk by apply Hm.
    destruct (String.eqb (fingerprint r) key) eqn:E.
    + apply String.eqb_eq in E. subst key.
      apply map_has_elem in Hhas.
      destruct (map_get m (fingerprint r)) as [e|] eqn:Hg.
      * simpl in *. by rewrite <- Hk.
      * exfalso. apply map_get_is_Some in Hhas. rewrite Hg in Hhas.
        by destruct Hhas.
    + rewrite Hk. by destruct (first_with key p).
  - apply map_has_false in Hhas. rewrite map_set_new by done.
    rewrite map_get_app. rewrite <- Hm.
    destruct (map_get m key) as [e|]; simpl; [done|].
    by destruct (String.eqb (fingerprint r) key).
Qed.

Lemma process_first weight l : ∀ rank m p,
  (∀ key, fresult <$> map_get m key = first_with key p) →
  ∀ key, fresult <$> map_get (process weight l rank m) key
         = first_with key (p ++ l).
Proof.
  induction l as [|r l IH]; intros rank m p Hm key; simpl.
  - by rewrite app_nil_r.
  - rewrite (IH _ _ (p ++ [r])); [by rewrite <- app_assoc|].
    by apply accumulate_first.
Qed.

Lemma fuse_first v kw alpha key :
  fresult <$> map_get (fuse v kw alpha) key = first_with key (v ++ kw).
Proof.
  unfold fuse. apply process_first. intros key'.
  by rewrite (process_first _ _ _ [] []).
Qed.

Lemma rrf_elem v kw alpha limit r :
  r ∈ reciprocalRankFusion v kw alpha limit →
  ∃ key e, (key, e) ∈ fuse v kw alpha
           ∧ r = with_score (fresult e) (fscore e).
Proof.
  unfold reciprocalRankFusion. rewrite map_is_fmap.
  intros (e & -> & He)%list_elem_of_fmap.
  destruct (ranked_elem v kw alpha limit e He) as [key Hk]. eauto.
Qed.

Lemma rrf_origin v kw alpha limit r :
  r ∈ reciprocalRankFusion v kw alpha limit →
  ∃ r0, first_with (fingerprint r) (v ++ kw) = Some r0
        ∧ r = with_score r0 (score r).
Proof.
  intros (key & e & Hin & ->)%rrf_elem.
  pose proof (fuse_well_keyed v kw alpha) as Hwk.
  destruct (entry_score _ _ _ Hwk Hin) as [Hfp _].
  pose proof (fuse_first v kw alpha key) as Hf.
  rewrite (map_get_elem _ _ _ (proj1 Hwk) Hin) in Hf. simpl in Hf.
  exists (fresult e). split; [|done].
  change (fingerprint (with_score (fresult e) (fscore e)))
    with (fingerprint (fresult e)).
  by rewrite Hfp.
Qed.

End fusion_origin.

(** X1. Every result of the fusion is a hit of one of the two lists with the
    score replaced: the first hit of the vector list with that fingerprint
    if there is one, else the first such hit of the keyword list. *)
Theorem reciprocalRankFusion_keeps_first_hit
    (v kw : list SearchResult) (alpha : Q) (limit : Z) :
  Forall (λ r, ∃ r0,
            RankSpec.first_with (HybridVectorStore.fingerprint r) (v ++ kw) = Some r0
            ∧ r0 ∈ v ++ kw
            ∧ r = with_score r0 (score r))
    (HybridVectorStore.reciprocalRankFusion v kw alpha limit).
Proof.
  apply Forall_forall. intros r Hr.
  destruct (rrf_origin _ _ _ _ _ Hr) as (r0 & H0 & Hw).
  exists r0. split_and!; [done| |done].
  by destruct (first_with_Some _ _ _ H0).
Qed.

Section hybrid_origin.
Import HybridVectorStore FusionSpec RankSpec.
Variable embedQuery : string → result (list Q).
Variable client : QdrantClient.




End hybrid_origin.



(** ** The order of two candidates *)

Section sort_order.
Context {A : Type} (f : A → Q).

Lemma sort_insert_sublist x l : l `sublist_of` Js.sort_insert (by_key_desc f) x l.
Proof.
  induction l as [|y l IH]; simpl; [by apply sublist_cons|].
  destruct (Qle_bool _ 0); [by apply sublist_cons|by apply sublist_skip].
Qed.

(** An element put into the sorted part goes in front of everything that
    scores no higher. *)
Lemma sort_insert_before x y l :
  y ∈ l → (f y <= f x)%Q →
  [x; y] `sublist_of` Js.sort_insert (by_key_desc f) x l.
Proof.
  intros Hy Hle. induction l as [|h l IH]; [by apply elem_of_nil in Hy|].
  simpl. destruct (Qle_bool (by_key_desc f x h) 0) eqn:E.
  - apply sublist_skip. by apply singleton_sublist_l.
  - apply by_key_desc_gt in E.
    apply elem_of_cons in Hy as [->|Hy]; [lra|].
    apply sublist_cons. by apply IH.
Qed.

(** The sort is stable: of two elements in input order the first stays in
    front unless the second scores strictly higher. *)
Lemma sort_keeps_order x y l :
  [x; y] `sublist_of` l → (f y <= f x)%Q →
  [x; y] `sublist_of` Js.sort (by_key_desc f) l.
Proof.
  intros Hsub Hle. induction l as [|z l IH]; simpl.
  - by apply sublist_nil_r in Hsub.
  - apply sublist_cons_r in Hsub as [Hsub|(l' & [= -> <-] & Hsub)].
    + etrans; [by apply IH|apply sort_insert_sublist].
    + apply sort_insert_before; [|done].
      rewrite (sort_perm f l). by apply singleton_sublist_l.
Qed.

Lemma sorted_sublist_pair x y l :
  StronglySorted (desc f) l → [x; y] `sublist_of` l → (f y <= f x)%Q.
Proof.
  induction 1 as [|z l Hs IH Hall]; intros Hsub.
  - by apply sublist_nil_r in Hsub.
  - apply sublist_cons_r in Hsub as [Hsub|(l' & [= -> <-] & Hsub)]; [by apply IH|].
    apply singleton_sublist_l in Hsub.
    rewrite Forall_forall in Hall. by apply Hall.
Qed.

End sort_order.

Section pairs.
Context {A B : Type}.

Lemma sublist_pair_of_parts (a b : A) (l1 l2 : list A) :
  a ∈ l1 → b ∈ l2 → [a; b] `sublist_of` l1 ++ l2.
Proof.
  intros Ha Hb. change [a; b] with ([a] ++ [b]).
  apply sublist_app; by apply singleton_sublist_l.
Qed.

Lemma sublist_pair_fmap_inv (g : A → B) (a b : B) (l : list A) :
  [a; b] `sublist_of` g <$> l →
  ∃ x y, [x; y] `sublist_of` l ∧ g x = a ∧ g y = b.
Proof.
  induction l as [|z l IH]; csimpl; intros Hsub.
  - by apply sublist_nil_r in Hsub.
  - apply sublist_cons_r in Hsub as [Hsub|(l' & [= -> <-] & Hsub)].
    + destruct (IH Hsub) as (x & y & Hxy & ? & ?).
      exists x, y. split; [by apply sublist_cons|done].
    + apply singleton_sublist_l, list_elem_of_fmap in Hsub as (y & -> & Hy).
      exists z, y. split; [|done].
      apply sublist_skip. by apply singleton_sublist_l.
Qed.

Lemma sublist_pair_antisym (a b : A) (l : list A) :
  NoDup l → [a; b] `sublist_of` l → [b; a] `sublist_of` l → False.
Proof.
  induction 1 as [|z l Hz Hnd IH]; intros H1 H2.
  - by apply sublist_nil_r in H1.
  - apply sublist_cons_r in H1 as [H1|(l1 & [= -> <-] & H1)];
    apply sublist_cons_r in H2 as [H2|(l2 & [= E <-] & H2)].
    + by apply IH.
    + subst. apply Hz. eapply elem_of_sublist; [|exact H1]. set_solver.
    + apply Hz. eapply elem_of_sublist; [|exact H2]. set_solver.
    + subst. apply Hz. by apply singleton_sublist_l.
Qed.

End pairs.

Section alpha_order.
Import HybridVectorStore FusionSpec RankSpec.

Lemma contribution_linear w l rank key :
  (contribution w l rank key == w * contribution 1 l rank key)%Q.
Proof.
  revert rank. induction l as [|r l IH]; intros rank; simpl; [ring|].
  rewrite (IH (S rank)).
  destruct (String.eqb (fingerprint r) key); ring.
Qed.

Lemma contribution_one_nonneg l rank key : (0 <= contribution 1 l rank key)%Q.
Proof.
  revert rank. induction l as [|r l IH]; intros rank; simpl; [lra|].
  pose proof (IH (S rank)) as Hrest.
  destruct (String.eqb (fingerprint r) key); [|lra].
  pose proof (rrf_term_pos 1 rank ltac:(lra)). lra.
Qed.

Lemma contribution_one_pos l rank key :
  key ∈ fingerprints l → (0 < contribution 1 l rank key)%Q.
Proof.
  revert rank. induction l as [|r l IH]; intros rank; simpl.
  - by intros ?%elem_of_nil.
  - intros Hin. destruct (String.eqb (fingerprint r) key) eqn:E.
    + pose proof (rrf_term_pos 1 rank ltac:(lra)).
      pose proof (contribution_one_nonneg l (S rank) key). lra.
    + apply elem_of_cons in Hin as [->|Hin].
      * by rewrite String.eqb_refl in E.
      * pose proof (IH (S rank) Hin). lra.
Qed.

(** The fused score of a candidate that only one of the lists holds. *)
Lemma fused_score_vector_only alpha v kw key :
  key ∉ fingerprints kw →
  (fused_score alpha v kw key == alpha * contribution 1 v 0 key)%Q.
Proof.
  intros Hk. unfold fused_score.
  rewrite (contribution_absent _ kw 0 key Hk), (contribution_linear alpha). ring.
Qed.

Lemma fused_score_keyword_only alpha v kw key :
  key ∉ fingerprints v →
  (fused_score alpha v kw key == (1 - alpha) * contribution 1 kw 0 key)%Q.
Proof.
  intros Hk. unfold fused_score.
  rewrite (contribution_absent _ v 0 key Hk), (contribution_linear (1 - alpha)). ring.
Qed.

Lemma full_ranking_NoDup v kw alpha : NoDup (full_ranking v kw alpha).
Proof.
  unfold full_ranking.
  change by_score_desc with (by_key_desc fscore).
  rewrite (sort_perm fscore). rewrite <- map_is_fmap.
  rewrite values_fingerprints by apply fuse_well_keyed.
  apply fuse_well_keyed.
Qed.

Lemma rrf_sublist_full v kw alpha limit :
  fingerprints (reciprocalRankFusion v kw alpha limit)
    `sublist_of` full_ranking v kw alpha.
Proof.
  rewrite rrf_fingerprints, map_is_fmap. unfold ranked, full_ranking.
  apply fmap_sublist.
  destruct (slice_is_prefix
              (Js.sort by_score_desc (map_values (fuse v kw alpha))) limit)
    as [n ->].
  apply sublist_take.
Qed.

Lemma rrf_is_full v kw alpha limit :
  Z.of_nat (length v + length kw) ≤ limit →
  fingerprints (reciprocalRankFusion v kw alpha limit) = full_ranking v kw alpha.
Proof.
  intros Hl. rewrite rrf_fingerprints, map_is_fmap. unfold ranked, full_ranking.
  rewrite slice_all; [done|].
  change by_score_desc with (by_key_desc fscore).
  rewrite (sort_perm fscore). unfold map_values.
  rewrite length_fmap, <- (length_fmap fst), fuse_keys.
  pose proof (add_keys_length (add_keys [] (fingerprints v)) (fingerprints kw)).
  pose proof (add_keys_length [] (fingerprints v)).
  unfold fingerprints in *. rewrite !length_map in *. simpl in *. lia.
Qed.

Lemma full_ranking_order v kw alpha a b :
  a ∈ fingerprints v → b ∈ fingerprints kw → b ∉ fingerprints v →
  (fused_score alpha v kw b <= fused_score alpha v kw a)%Q →
  [a; b] `sublist_of` full_ranking v kw alpha.
Proof.
  intros Ha Hb Hbv Hle.
  pose proof (fuse_well_keyed v kw alpha) as Hwk.
  assert ([a; b] `sublist_of` (fuse v kw alpha).*1) as Hkeys.
  { rewrite fuse_keys, add_keys_first_seen.
    apply sublist_pair_of_parts.
    - apply elem_of_add_keys. by right.
    - apply list_elem_of_filter. split.
      + intros [?%elem_of_nil|?]%elem_of_add_keys; done.
      + by apply elem_of_first_seen. }
  apply sublist_pair_fmap_inv in Hkeys as ([ka ea] & [kb eb] & Hsub & Hka & Hkb).
  simpl in Hka, Hkb. subst ka kb.
  assert ((a, ea) ∈ fuse v kw alpha) as Hina
    by (eapply elem_of_sublist; [|exact Hsub]; left).
  assert ((b, eb) ∈ fuse v kw alpha) as Hinb
    by (eapply elem_of_sublist; [|exact Hsub]; right; left).
  destruct (entry_score _ _ _ Hwk Hina) as [Hfa Hsa].
  destruct (entry_score _ _ _ Hwk Hinb) as [Hfb Hsb].
  apply (fmap_sublist snd) in Hsub. simpl in Hsub.
  apply (sort_keeps_order fscore) in Hsub.
  - apply (fmap_sublist (λ e, fingerprint (fresult e))) in Hsub.
    simpl in Hsub. by rewrite Hfa, Hfb in Hsub.
  - rewrite Hsa, Hsb, !score_at_fuse. done.
Qed.

Lemma full_ranking_scores v kw alpha a b :
  [a; b] `sublist_of` full_ranking v kw alpha →
  (fused_score alpha v kw b <= fused_score alpha v kw a)%Q.
Proof.
  intros Hsub.
  rewrite <- (rrf_is_full v kw alpha (Z.of_nat (length v + length kw))) in Hsub
    by lia.
  unfold fingerprints in Hsub. rewrite map_is_fmap in Hsub.
  apply sublist_pair_fmap_inv in Hsub as (ra & rb & Hsub & <- & <-).
  assert (ra ∈ reciprocalRankFusion v kw alpha (Z.of_nat (length v + length kw)))
    as Hina by (eapply elem_of_sublist; [|exact Hsub]; left).
  assert (rb ∈ reciprocalRankFusion v kw alpha (Z.of_nat (length v + length kw)))
    as Hinb by (eapply elem_of_sublist; [|exact Hsub]; right; left).
  rewrite <- (rrf_scores _ _ _ _ _ Hina), <- (rrf_scores _ _ _ _ _ Hinb).
  eapply (sorted_sublist_pair score); [apply rrf_sorted|exact Hsub].
Qed.

End alpha_order.

(** X3. Raising alpha never lets a candidate that only the keyword list holds
    overtake a candidate that only the vector list holds: if the vector-only
    candidate is ranked before the keyword-only one at [alpha], then at every
    [alpha' >= alpha] the keyword-only one is not ranked before it, whatever
    the limit, and with a limit that keeps every candidate the vector-only
    one is still in front. *)
Theorem reciprocalRankFusion_alpha_monotone
    (v kw : list SearchResult) (alpha alpha' : Q) (limit limit' : Z)
    (a b : string) :
  a ∈ FusionSpec.fingerprints v → a ∉ FusionSpec.fingerprints kw →
  b ∈ FusionSpec.fingerprints kw → b ∉ FusionSpec.fingerprints v →
  (alpha <= alpha')%Q →
  RankSpec.ranks_before a b
    (HybridVectorStore.reciprocalRankFusion v kw alpha limit) →
  ¬ RankSpec.ranks_before b a
      (HybridVectorStore.reciprocalRankFusion v kw alpha' limit')
  ∧ (Z.of_nat (length v + length kw) ≤ limit' →
     RankSpec.ranks_before a b
       (HybridVectorStore.reciprocalRankFusion v kw alpha' limit')).
Proof.
  intros Ha Hak Hb Hbv Hle Hbefore. unfold RankSpec.ranks_before in *.
  assert ([a; b] `sublist_of` RankSpec.full_ranking v kw alpha') as Hfull.
  { apply full_ranking_order; [done..|].
    assert ([a; b] `sublist_of` RankSpec.full_ranking v kw alpha) as Hold
      by (etrans; [exact Hbefore|apply rrf_sublist_full]).
    apply full_ranking_scores in Hold.
    rewrite (fused_score_vector_only alpha _ _ _ Hak),
      (fused_score_keyword_only alpha _ _ _ Hbv) in Hold.
    rewrite (fused_score_vector_only alpha' _ _ _ Hak),
      (fused_score_keyword_only alpha' _ _ _ Hbv).
    pose proof (contribution_one_pos v 0 a Ha) as Hpa.
    pose proof (contribution_one_pos kw 0 b Hb) as Hpb.
    set (cv := FusionSpec.contribution 1 v 0 a) in *.
    set (ck := FusionSpec.contribution 1 kw 0 b) in *.
    assert (0 <= (alpha' - alpha) * (cv + ck))%Q as Hprod
      by (apply Qmult_le_0_compat; lra).
    lra. }
  split.
  - intros Hrev.
    eapply (sublist_pair_antisym a b); [apply (full_ranking_NoDup v kw alpha')|done|].
    etrans; [exact Hrev|apply rrf_sublist_full].
  - intros Hl. by rewrite rrf_is_full.
Qed.

Lemma reciprocalRankFusion_alpha_monotone_witness :
  ¬ RankSpec.ranks_before "Sharding spreads the load" "Caching reduces latency"
      (HybridVectorStore.reciprocalRankFusion
         [Samples.hitA; Samples.hitB] [Samples.hitB; Samples.hitC] (3 # 4) 2)
  ∧ RankSpec.ranks_before "Caching reduces latency" "Sharding spreads the load"
      (HybridVectorStore.reciprocalRankFusion
         [Samples.hitA; Samples.hitB] [Samples.hitB; Samples.hitC] (3 # 4) 10).
Proof.
  destruct (reciprocalRankFusion_alpha_monotone
              [Samples.hitA; Samples.hitB] [Samples.hitB; Samples.hitC]
              (1 # 2) (3 # 4) 10 2
              "Caching reduces latency" "Sharding spreads the load")
    as [Hnot _].
  - compute_done.
  - compute_done.
  - compute_done.
  - compute_done.
  - vm_compute. discriminate.
  - vm_compute. repeat constructor.
  - split; [exact Hnot|].
    vm_compute. repeat constructor.
Defined.

(** ** One of the two lists is empty *)

Section single_list.
Import HybridVectorStore FusionSpec.

Lemma rrf_term_monotone w (n n' : nat) :
  (0 <= w)%Q → (n ≤ n')%nat →
  (w * (1 / inject_Z (60 + Z.of_nat n' + 1))
   <= w * (1 / inject_Z (60 + Z.of_nat n + 1)))%Q.
Proof.
  intros Hw Hn.
  destruct (decide (n = n')) as [->|Hne]; [lra|].
  destruct (Qlt_le_dec 0 w) as [Hpos|Hzero].
  - apply Qlt_le_weak, rrf_term_decreasing; [done|lia].
  - assert (w == 0)%Q as -> by lra. lra.
Qed.

Lemma process_alone_keys w l :
  NoDup (fingerprints l) → (process w l 0 []).*1 = fingerprints l.
Proof.
  intros Hnd. rewrite process_keys, add_keys_first_seen. simpl.
  rewrite first_seen_NoDup by done.
  apply filter_all. intros x _. apply not_elem_of_nil.
Qed.

Lemma process_alone_sorted w l :
  (0 <= w)%Q → NoDup (fingerprints l) →
  StronglySorted (desc fscore) (map_values (process w l 0 [])).
Proof.
  intros Hw Hnd.
  assert (well_keyed (process w l 0 [])) as Hwk.
  { apply process_well_keyed. split; [constructor|constructor]. }
  pose proof (process_alone_keys w l Hnd) as Hkeys.
  assert (∀ i e, map_values (process w l 0 []) !! i = Some e →
            (fscore e == w * (1 / inject_Z (60 + Z.of_nat i + 1)))%Q) as Hscore.
  { intros i e Hi. unfold map_values in Hi.
    apply list_lookup_fmap_Some in Hi as ([key e'] & He' & Hi).
    simpl in He'. subst e'.
    assert ((process w l 0 []).*1 !! i = Some key) as Hk
      by (by rewrite list_lookup_fmap, Hi).
    rewrite Hkeys in Hk. unfold fingerprints in Hk.
    rewrite map_is_fmap in Hk.
    apply list_lookup_fmap_Some in Hk as (r & -> & Hr).
    apply list_elem_of_lookup_2 in Hi.
    destruct (entry_score _ _ _ Hwk Hi) as [_ ->].
    rewrite score_at_process. unfold score_at. simpl.
    rewrite (contribution_at w l 0 i r Hnd Hr). simpl. ring. }
  apply StronglySorted_by_index. intros i j x y Hij Hx Hy. unfold desc.
  rewrite (Hscore _ _ Hx), (Hscore _ _ Hy).
  apply rrf_term_monotone; [done|lia].
Qed.

Lemma rrf_single_list w l limit :
  (0 <= w)%Q → NoDup (fingerprints l) →
  (λ e, fingerprint (fresult e))
    <$> Js.slice (Js.sort by_score_desc (map_values (process w l 0 []))) 0 limit
  = Js.slice (fingerprints l) 0 limit.
Proof.
  intros Hw Hnd.
  change by_score_desc with (by_key_desc fscore).
  rewrite (sort_sorted_id fscore) by by apply process_alone_sorted.
  rewrite <- slice_fmap, <- map_is_fmap, values_fingerprints.
  - by rewrite process_alone_keys.
  - apply process_well_keyed. split; constructor.
Qed.

End single_list.

(** X4. When the keyword search finds nothing and alpha is not negative, the
    fused ranking is the vector ranking cut at the limit; when the vector
    search finds nothing and alpha is at most one, it is the keyword
    ranking. *)
Theorem reciprocalRankFusion_single_list
    (hits : list SearchResult) (alpha : Q) (limit : Z) :
  NoDup (FusionSpec.fingerprints hits) →
  ((0 <= alpha)%Q →
   FusionSpec.fingerprints
     (HybridVectorStore.reciprocalRankFusion hits [] alpha limit)
   = Js.slice (FusionSpec.fingerprints hits) 0 limit)
  ∧ ((alpha <= 1)%Q →
     FusionSpec.fingerprints
       (HybridVectorStore.reciprocalRankFusion [] hits alpha limit)
     = Js.slice (FusionSpec.fingerprints hits) 0 limit).
Proof.
  intros Hnd. split; intros Ha.
  - rewrite rrf_fingerprints, map_is_fmap. unfold FusionSpec.ranked.
    change (HybridVectorStore.fuse hits [] alpha)
      with (HybridVectorStore.process alpha hits 0 []).
    by apply rrf_single_list.
  - rewrite rrf_fingerprints, map_is_fmap. unfold FusionSpec.ranked.
    change (HybridVectorStore.fuse [] hits alpha)
      with (HybridVectorStore.process (1 - alpha) hits 0 []).
    apply rrf_single_list; [lra|done].
Qed.

Lemma reciprocalRankFusion_single_list_witness :
  FusionSpec.fingerprints
    (HybridVectorStore.reciprocalRankFusion
       [Samples.hitA; Samples.hitB; Samples.hitC] [] (1 # 2) 2)
  = ["Caching reduces latency"; "Indexes speed up queries"].
Proof.
  destruct (reciprocalRankFusion_single_list
              [Samples.hitA; Samples.hitB; Samples.hitC] (1 # 2) 2) as [Hv _].
  - compute_done.
  - rewrite Hv; [reflexivity|]. vm_compute. discriminate.
Defined.

(** ** The keyword search *)

Section keyword_scores.

Lemma rank_quotient (i n : nat) :
  (i < n)%nat →
  (0 <= inject_Z (Z.of_nat i) / inject_Z (Z.of_nat n))%Q
  ∧ (inject_Z (Z.of_nat i) / inject_Z (Z.of_nat n) < 1)%Q.
Proof.
  intros Hi.
  assert (0 < inject_Z (Z.of_nat n))%Q as Hn.
  { change 0%Q with (inject_Z 0). rewrite <- Zlt_Qlt. lia. }
  split.
  - apply Qle_shift_div_l; [done|]. rewrite Qmult_0_l.
    change 0%Q with (inject_Z 0). rewrite <- Zle_Qle. lia.
  - apply Qlt_shift_div_r; [done|]. rewrite Qmult_1_l.
    rewrite <- Zlt_Qlt. lia.
Qed.

Lemma rank_quotient_increasing (i j n : nat) :
  (i < j)%nat → (j < n)%nat →
  (inject_Z (Z.of_nat i) / inject_Z (Z.of_nat n)
   < inject_Z (Z.of_nat j) / inject_Z (Z.of_nat n))%Q.
Proof.
  intros Hij Hj. unfold Qdiv.
  apply Qmult_lt_compat_r.
  - apply Qinv_lt_0_compat. change 0%Q with (inject_Z 0).
    rewrite <- Zlt_Qlt. lia.
  - rewrite <- Zlt_Qlt. lia.
Qed.

End keyword_scores.

(** X5. The scores of the keyword search are made from the place in the
    scroll alone: the result at place [i] of [n] scores [1 - i/n], so the
    first scores 1, the scores fall strictly and stay above 0; each result
    carries that score as its keyword score and no vector score, and the
    documents are those of the scroll in its order.  A query without a word
    longer than two characters gives no result and the index is not asked. *)
Theorem keywordSearch_rank_scores
    (client : QdrantClient) (query : string) (limit : Z) :
  (SearchSpec.search_terms query = [] →
   HybridVectorStore.keywordSearch client query limit = Ok [])
  ∧ ∀ out,
      HybridVectorStore.keywordSearch client query limit = Ok out →
      (∀ i r, out !! i = Some r →
         (score r
          == 1 - inject_Z (Z.of_nat i) / inject_Z (Z.of_nat (length out)))%Q
         ∧ keywordScore r = Some (score r) ∧ vectorScore r = None
         ∧ (0 < score r)%Q ∧ (score r <= 1)%Q)
      ∧ StronglySorted (λ a b, (score b < score a)%Q) out
      ∧ (SearchSpec.search_terms query ≠ [] →
         ∃ points,
           client_scroll client (SearchSpec.search_terms query) limit = Ok points
           ∧ document <$> out
             = (λ p, mkDocument (payloadContent p) (payloadMetadata p))
                 <$> points).
Proof.
  unfold HybridVectorStore.keywordSearch.
  fold (SearchSpec.search_terms query).
  destruct (SearchSpec.search_terms query) as [|t ts] eqn:Hterms.
  { simpl. split; [done|]. intros out [= <-].
    split_and!; [by intros i r ?|constructor|done]. }
  split; [done|]. intros out.
  replace (Z.of_nat (length (t :: ts)) =? 0) with false
    by (symmetry; apply Z.eqb_neq; simpl; lia).
  destruct (client_scroll client (t :: ts) limit) as [points|e]; simpl; [|done].
  intros [= <-].
  assert (∀ i r,
    imap (λ idx p,
      let s := (1 - inject_Z (Z.of_nat idx)
                    / inject_Z (Z.of_nat (length points)))%Q in
      {| document := mkDocument (payloadContent p) (payloadMetadata p);
         score := s; vectorScore := None; keywordScore := Some s |}) points
      !! i = Some r →
    (i < length points)%nat
    ∧ score r = (1 - inject_Z (Z.of_nat i)
                     / inject_Z (Z.of_nat (length points)))%Q
    ∧ keywordScore r = Some (score r) ∧ vectorScore r = None) as Hat.
  { intros i r (p & Hp & ->)%list_lookup_imap_Some. simpl.
    split; [by eapply lookup_lt_Some|done]. }
  split_and!.
  - intros i r Hi. destruct (Hat i r Hi) as (Hlt & Hs & Hk & Hv).
    rewrite length_imap, Hs.
    destruct (rank_quotient i (length points) Hlt).
    split_and!; [reflexivity|by rewrite <- Hs|done|lra|lra].
  - apply StronglySorted_by_index. intros i j x y Hij Hx Hy.
    destruct (Hat i x Hx) as (_ & -> & _).
    destruct (Hat j y Hy) as (Hlt & -> & _).
    pose proof (rank_quotient_increasing i j (length points) Hij Hlt). lra.
  - intros _. exists points. split; [done|].
    apply list_eq. intros i. rewrite !list_lookup_fmap, list_lookup_imap.
    by destruct (points !! i).
Qed.

Lemma keywordSearch_rank_scores_witness :
  HybridVectorStore.keywordSearch SearchSpec.scroll_down "is it ok" 20 = Ok []
  ∧ ∃ out,
      HybridVectorStore.keywordSearch Samples.index_ok "caching and indexes" 20
      = Ok out
      ∧ Qred <$> (score <$> out) = [1%Q; 1 # 2]
      ∧ StronglySorted (λ a b, (score b < score a)%Q) out.
Proof.
  split.
  - apply (keywordSearch_rank_scores SearchSpec.scroll_down "is it ok" 20).
    reflexivity.
  - eexists. split; [reflexivity|]. split; [reflexivity|].
    apply (keywordSearch_rank_scores Samples.index_ok "caching and indexes" 20).
    reflexivity.
Defined.

(** ** Query expansion *)

Section expansion.
Import HybridVectorStore.

Lemma expansion_piece lowerQuery (values : list string) :
  (length (Js.slice (filter (λ v, Js.includes lowerQuery v = false) values) 0 2)
   ≤ 2)%nat
  ∧ Forall (λ t, Js.includes lowerQuery t = false ∧ t ∈ values)
      (Js.slice (filter (λ v, Js.includes lowerQuery v = false) values) 0 2).
Proof.
  split.
  - pose proof (slice_length_le
      (filter (λ v, Js.includes lowerQuery v = false) values) 2 ltac:(lia)). lia.
  - rewrite slice_nonneg by lia. apply Forall_forall. intros t Ht.
    apply elem_of_take in Ht as (i & Ht & _).
    apply list_elem_of_lookup_2, list_elem_of_filter in Ht. done.
Qed.

End expansion.

(** X6. The expansion of a query holds at most two terms for each of the
    four key words, so at most eight; every term belongs to a key word that
    occurs in the lower-cased query and does not occur in it itself; a
    query that mentions no key word is not expanded. *)
Theorem generateQueryExpansion_terms (query : string) :
  (length (HybridVectorStore.generateQueryExpansion query) ≤ 8)%nat
  ∧ Forall (λ t,
        Js.includes (Js.toLowerCase query) t = false
        ∧ ∃ key values,
            (key, values) ∈ HybridVectorStore.expansions
            ∧ t ∈ values
            ∧ Js.includes (Js.toLowerCase query) key = true)
      (HybridVectorStore.generateQueryExpansion query)
  ∧ ((∀ key values, (key, values) ∈ HybridVectorStore.expansions →
        Js.includes (Js.toLowerCase query) key = false) →
     HybridVectorStore.generateQueryExpansion query = []).
Proof.
  unfold HybridVectorStore.generateQueryExpansion.
  set (lowerQuery := Js.toLowerCase query).
  split_and!.
  - rewrite length_flat_map. unfold HybridVectorStore.expansions. simpl.
    repeat match goal with
    | |- context [if Js.includes lowerQuery ?key then Js.slice (filter ?P ?vs) 0 2 else []] =>
        let H := fresh in
        pose proof (proj1 (expansion_piece lowerQuery vs)) as H;
        destruct (Js.includes lowerQuery key); simpl length
    end; lia.
  - apply Forall_flat_map, Forall_forall. intros [key values] Hin.
    destruct (Js.includes lowerQuery key) eqn:Hkey; [|constructor].
    eapply Forall_impl; [apply (expansion_piece lowerQuery values)|].
    intros t [Hnot Ht]. split; [done|]. eauto.
  - intros Hnone.
    assert (∀ l, (∀ key values, (key, values) ∈ l →
                    Js.includes lowerQuery key = false) →
      flat_map (λ '(key, values),
        if Js.includes lowerQuery key
        then Js.slice (filter (λ v, Js.includes lowerQuery v = false) values) 0 2
        else []) l = []) as Hflat.
    { induction l as [|[key values] l IH]; intros Hl; simpl; [done|].
      rewrite (Hl key values) by left. simpl. apply IH.
      intros k' v' Hk'. apply (Hl k' v'). by right. }
    by apply Hflat.
Qed.

(** ** The reranker when the provider answers *)

Section map_back_facts.
Variable d : SearchResult.

(** Hits inside the candidates are mapped back to candidates. *)
Lemma map_back_in_range results hits :
  Forall (λ h, (hit_index h < length results)%nat) hits →
  Reranker.map_back results hits
  = map Candidate (RerankSpec.picked d results hits).
Proof.
  induction 1 as [|h hits Hh Hin IH]; [done|].
  unfold Reranker.map_back, RerankSpec.picked in *. simpl.
  destruct (lookup_lt_is_Some_2 results (hit_index h) Hh) as [r0 Hr0].
  rewrite Hr0. simpl. by rewrite IH.
Qed.






End map_back_facts.



(** ** The stages of a query, once more *)

Section pipeline_stages.
Import RAGPipeline PipelineSpec.
Variable config : Config.
Variable now : nat → Z.
Variable regex_matches : string → string → result nat.
Variable pipeline : Pipeline.

Ltac run_query :=
  unfold query;
  cbv [mbind M_bind date_now vectorStore_hybridSearch log lift mret M_ret
       reranker_rerankWithMetadata generateAnswer generateAnswer_call
       generations].

Ltac run_stream :=
  unfold streamQuery;
  cbv [mbind M_bind date_now vectorStore_hybridSearch log lift mret M_ret
       reranker_rerankWithMetadata generations].

Ltac fin := repeat rewrite <- app_assoc; simpl; rewrite ?app_nil_r; done.

Ltac count_requests :=
  unfold requests; simpl calls; repeat rewrite List.filter_app;
  simpl List.filter; rewrite ?app_nil_r.

(** The candidates of the second stage are the list the second step leaves,
    once the documents were read. *)
Lemma rerank_stage_reranked opts question results :
  rerank_stage config regex_matches pipeline opts question results
  = (reranked ← reranked_stage config regex_matches pipeline opts question
                  results;
     documents_of "metadata" reranked).
Proof.
  unfold rerank_stage, reranked_stage.
  destruct (useReranking opts && _); [done|].
  simpl. by rewrite documents_of_candidates.
Qed.

(** A query that returns has read the clock eight times. *)
Lemma query_metrics question opts st r st' :
  query config now regex_matches pipeline question opts st = (Ok r, st') →
  ticks st' = (ticks st + 8)%nat
  ∧ metrics r
    = {| retrievalTime := now (ticks st + 2)%nat - now (ticks st + 1)%nat;
         rerankingTime := now (ticks st + 4)%nat - now (ticks st + 3)%nat;
         generationTime := now (ticks st + 6)%nat - now (ticks st + 5)%nat;
         totalTime := now (ticks st + 7)%nat - now (ticks st) |}.
Proof.
  run_query.
  replace (ticks st + 1)%nat with (S (ticks st)) by lia.
  replace (ticks st + 2)%nat with (S (S (ticks st))) by lia.
  replace (ticks st + 3)%nat with (S (S (S (ticks st)))) by lia.
  replace (ticks st + 4)%nat with (S (S (S (S (ticks st))))) by lia.
  replace (ticks st + 5)%nat with (S (S (S (S (S (ticks st)))))) by lia.
  replace (ticks st + 6)%nat with (S (S (S (S (S (S (ticks st))))))) by lia.
  replace (ticks st + 7)%nat with (S (S (S (S (S (S (S (ticks st)))))))) by lia.
  replace (ticks st + 8)%nat with (S (S (S (S (S (S (S (S (ticks st))))))))) by lia.
  destruct (useHybridSearch opts);
  (destruct (store_hybridSearch _ _ _ _) as [results|e]; simpl; [|done];
   destruct (useReranking opts && _); simpl;
   [destruct (reranker_answer _ _ _ _ _ _) as [reranked|e]; simpl; [|done];
    destruct (documents_of "metadata" reranked) as [final|e] eqn:Hdocs; simpl;
    [apply documents_of_Ok in Hdocs; subst reranked
    |by rewrite (documents_of_Err _ _ _ Hdocs)]|]).
  all: rewrite ?length_map, ?documents_of_candidates.
  all: destruct (_ =? 0); simpl;
    [rewrite ?documents_of_candidates; simpl; by intros [= <- <-]|].
  all: rewrite ?documents_of_candidates; simpl.
  all: destruct (llm_answer _ _ _ _ _); simpl; [by intros [= <- <-]|done].
Qed.

(** What a query returns, by what its stages return. *)
Lemma query_result question opts st :
  (query config now regex_matches pipeline question opts st).1
  = (results ← store_hybridSearch config pipeline question (topK config);
     final ← rerank_stage config regex_matches pipeline opts question results;
     a ← generation_stage pipeline question final (streamResponse opts)
           (requests st);
     mret {| answer := a; sources := to_sources final;
             metrics :=
               {| retrievalTime := now (ticks st + 2)%nat - now (ticks st + 1)%nat;
                  rerankingTime := now (ticks st + 4)%nat - now (ticks st + 3)%nat;
                  generationTime := now (ticks st + 6)%nat - now (ticks st + 5)%nat;
                  totalTime := now (ticks st + 7)%nat - now (ticks st) |} |}).
Proof.
  pose proof (query_answer_and_sources config now regex_matches pipeline
                question opts st) as Has.
  destruct (query config now regex_matches pipeline question opts st)
    as [[r|e] st'] eqn:Hq; simpl in *.
  - destruct (query_metrics _ _ _ _ _ Hq) as [_ Hm].
    destruct (store_hybridSearch _ _ _ _) as [results|e]; simpl in *; [|done].
    destruct (rerank_stage _ _ _ _ _ _) as [final|e]; simpl in *; [|done].
    destruct (generation_stage _ _ _ _ _) as [a|e]; simpl in *; [|done].
    injection Has as Ha Hs. destruct r as [a' s' m']. simpl in *. by subst.
  - destruct (store_hybridSearch _ _ _ _) as [results|e']; simpl in *;
      [|congruence].
    destruct (rerank_stage _ _ _ _ _ _) as [final|e']; simpl in *;
      [|congruence].
    destruct (generation_stage _ _ _ _ _) as [a|e']; simpl in *;
      [done|congruence].
Qed.

(** What a streamed query returns and yields, by what its stages return. *)
Lemma streamQuery_result question opts st :
  (streamQuery config regex_matches pipeline question opts st).1
  = (results ← store_hybridSearch config pipeline question (topK config);
     final ← rerank_stage config regex_matches pipeline opts question results;
     '(texts, failure) ← streamed pipeline question (build_context final)
                           (requests st);
     match failure with Some e => Err e | None => Ok () end).
Proof.
  run_stream. unfold rerank_stage, streamed.
  destruct (useHybridSearch opts);
  (destruct (store_hybridSearch _ _ _ _) as [results|e]; simpl; [|done];
   destruct (useReranking opts && _); simpl;
   [destruct (reranker_answer _ _ _ _ _ _) as [reranked|e]; simpl; [|done];
    destruct (documents_of "metadata" reranked) as [final|e] eqn:Hdocs; simpl;
    [apply documents_of_Ok in Hdocs; subst reranked|done]|]).
  all: rewrite ?documents_of_candidates, ?length_map; simpl.
  all: destruct pipeline as [docs|svc]; simpl.
  all: count_requests.
  all: try (rewrite for_each_yield; simpl; rewrite ?documents_of_candidates;
            simpl; done).
  all: destruct (chat_stream svc _ _) as [[texts failure]|e]; simpl; try done.
  all: change (λ s : PState, (Ok (), s)) with (mret () : M unit).
  all: rewrite for_each_yield_texts; destruct failure; simpl;
    rewrite ?documents_of_candidates; simpl; done.
Qed.

Lemma streamQuery_events question opts st :
  events (streamQuery config regex_matches pipeline question opts st).2
  = events st ++ [EvRetrieval None]
    ++ match store_hybridSearch config pipeline question (topK config) with
       | Err _ => []
       | Ok results =>
           [EvRetrieval (Some (length results))]
           ++ (if useReranking opts && (0 <? Z.of_nat (length results))
               then [EvReranking None] else [])
           ++ match reranked_stage config regex_matches pipeline opts question
                      results with
              | Err _ => []
              | Ok reranked =>
                  (if useReranking opts && (0 <? Z.of_nat (length results))
                   then [EvReranking (Some (length reranked))] else [])
                  ++ [EvGeneration None]
                  ++ match documents_of "metadata" reranked with
                     | Err _ => []
                     | Ok final =>
                         match streamed pipeline question (build_context final)
                                 (requests st) with
                         | Err _ => []
                         | Ok (texts, failure) =>
                             ((λ t, EvGeneration (Some t)) <$> texts)
                             ++ match failure with
                                | Some _ => []
                                | None => [EvComplete (to_sources final)]
                                end
                         end
                     end
              end
       end.
Proof.
  run_stream. unfold reranked_stage, streamed.
  destruct (useHybridSearch opts);
  (destruct (store_hybridSearch _ _ _ _) as [results|e]; simpl; [|done];
   destruct (useReranking opts && _); simpl;
   [destruct (reranker_answer _ _ _ _ _ _) as [reranked|e]; simpl; [|fin];
    destruct (documents_of "metadata" reranked) as [final|e] eqn:Hdocs; simpl;
    [apply documents_of_Ok in Hdocs; subst reranked|fin]|]).
  all: rewrite ?documents_of_candidates, ?length_map; simpl.
  all: destruct pipeline as [docs|svc]; simpl.
  all: count_requests.
  all: try (rewrite for_each_yield; simpl; rewrite ?documents_of_candidates;
            simpl; fin).
  all: destruct (chat_stream svc _ _) as [[texts failure]|e]; simpl; try fin.
  all: change (λ s : PState, (Ok (), s)) with (mret () : M unit).
  all: rewrite for_each_yield_texts; destruct failure; simpl;
    rewrite ?documents_of_candidates; simpl; fin.
Qed.

Lemma emitted_app st st' evs :
  events st' = events st ++ evs → emitted st st' = evs.
Proof. unfold emitted. intros ->. by rewrite drop_app_length. Qed.

Lemma called_app st st' cs :
  calls st' = calls st ++ cs → called st st' = cs.
Proof. unfold called. intros ->. by rewrite drop_app_length. Qed.

End pipeline_stages.

(** X8. With a clock that never runs backwards the three stage times of a
    response are not negative and together do not exceed the total time. *)
Theorem query_metrics_add_up
    (config : Config) (now : nat → Z)
    (regex_matches : string → string → result nat)
    (pipeline : RAGPipeline.Pipeline) (question : string)
    (opts : RAGPipeline.Options) (st : RAGPipeline.PState)
    (r : RAGPipeline.RAGResponse) :
  PipelineSpec.monotone now →
  (RAGPipeline.query config now regex_matches pipeline question opts st).1 = Ok r →
  0 ≤ RAGPipeline.retrievalTime (RAGPipeline.metrics r)
  ∧ 0 ≤ RAGPipeline.rerankingTime (RAGPipeline.metrics r)
  ∧ 0 ≤ RAGPipeline.generationTime (RAGPipeline.metrics r)
  ∧ RAGPipeline.retrievalTime (RAGPipeline.metrics r)
    + RAGPipeline.rerankingTime (RAGPipeline.metrics r)
    + RAGPipeline.generationTime (RAGPipeline.metrics r)
    ≤ RAGPipeline.totalTime (RAGPipeline.metrics r).
Proof.
  intros Hmono Hq.
  destruct (RAGPipeline.query config now regex_matches pipeline question opts st)
    as [res st'] eqn:Hrun.
  simpl in Hq. subst res.
  destruct (query_metrics _ _ _ _ _ _ _ _ _ Hrun) as [_ ->]. simpl.
  set (t := RAGPipeline.ticks st).
  pose proof (Hmono t (t + 1)%nat ltac:(lia)).
  pose proof (Hmono (t + 1)%nat (t + 2)%nat ltac:(lia)).
  pose proof (Hmono (t + 2)%nat (t + 3)%nat ltac:(lia)).
  pose proof (Hmono (t + 3)%nat (t + 4)%nat ltac:(lia)).
  pose proof (Hmono (t + 4)%nat (t + 5)%nat ltac:(lia)).
  pose proof (Hmono (t + 5)%nat (t + 6)%nat ltac:(lia)).
  pose proof (Hmono (t + 6)%nat (t + 7)%nat ltac:(lia)).
  lia.
Qed.

Lemma query_metrics_add_up_witness :
  ∃ r,
    (RAGPipeline.query default_config Samples.clock Samples.no_regex
       (RAGPipeline.MockMode Samples.stored) "zebra" Samples.all_on
       RAGPipeline.initial).1 = Ok r
    ∧ RAGPipeline.metrics r = RAGPipeline.mkMetrics 7 7 7 49
    ∧ RAGPipeline.retrievalTime (RAGPipeline.metrics r)
      + RAGPipeline.rerankingTime (RAGPipeline.metrics r)
      + RAGPipeline.generationTime (RAGPipeline.metrics r)
      ≤ RAGPipeline.totalTime (RAGPipeline.metrics r).
Proof.
  eexists. split; [reflexivity|]. split; [reflexivity|].
  eapply (query_metrics_add_up default_config Samples.clock Samples.no_regex
            (RAGPipeline.MockMode Samples.stored) "zebra" Samples.all_on
            RAGPipeline.initial).
  - intros i j Hij. unfold Samples.clock. lia.
  - reflexivity.
Defined.

(** X9. When the retrieval fails, [query] and [streamQuery] fail with the
    error of the store; neither the reranker nor the generator has been
    called, and the stream has yielded the first retrieval event only. *)
Theorem retrieval_failure_aborts
    (config : Config) (now : nat → Z)
    (regex_matches : string → string → result nat)
    (pipeline : RAGPipeline.Pipeline) (question : string)
    (opts : RAGPipeline.Options) (st : RAGPipeline.PState) (e : string) :
  RAGPipeline.store_hybridSearch config pipeline question (topK config) = Err e →
  (RAGPipeline.query config now regex_matches pipeline question opts st).1 = Err e
  ∧ PipelineSpec.called st
      (RAGPipeline.query config now regex_matches pipeline question opts st).2
    = [RAGPipeline.CallHybridSearch question (topK config)]
  ∧ (RAGPipeline.streamQuery config regex_matches pipeline question opts st).1
    = Err e
  ∧ PipelineSpec.called st
      (RAGPipeline.streamQuery config regex_matches pipeline question opts st).2
    = [RAGPipeline.CallHybridSearch question (topK config)]
  ∧ PipelineSpec.emitted st
      (RAGPipeline.streamQuery config regex_matches pipeline question opts st).2
    = [RAGPipeline.EvRetrieval None].
Proof.
  intros Hstore. split_and!.
  - by rewrite query_result, Hstore.
  - apply called_app. by rewrite query_calls, Hstore.
  - by rewrite streamQuery_result, Hstore.
  - apply called_app. by rewrite streamQuery_calls, Hstore.
  - apply emitted_app. by rewrite streamQuery_events, Hstore.
Qed.

Lemma retrieval_failure_aborts_witness :
  (RAGPipeline.query Samples.live_config Samples.clock Samples.no_regex
     (RAGPipeline.LiveMode PipelineSpec.services_without_index)
     "caching and indexes" Samples.all_on RAGPipeline.initial).1
  = Err "index unavailable"
  ∧ RAGPipeline.events
      (RAGPipeline.streamQuery Samples.live_config Samples.no_regex
         (RAGPipeline.LiveMode PipelineSpec.services_without_index)
         "caching and indexes" Samples.all_on RAGPipeline.initial).2
    = [RAGPipeline.EvRetrieval None].
Proof.
  destruct (retrieval_failure_aborts Samples.live_config Samples.clock
              Samples.no_regex
              (RAGPipeline.LiveMode PipelineSpec.services_without_index)
              "caching and indexes" Samples.all_on RAGPipeline.initial
              "index unavailable") as (Hq & _ & _ & _ & Hev).
  - reflexivity.
  - split; [exact Hq|exact Hev].
Defined.

(** ** What the stream yields *)

Section stream_facts.
Import RAGPipeline PipelineSpec.

Lemma generation_chunks_app evs evs' :
  generation_chunks (evs ++ evs') = generation_chunks evs ++ generation_chunks evs'.
Proof. apply omap_app. Qed.

Lemma generation_chunks_texts (texts : list string) :
  generation_chunks ((λ t, EvGeneration (Some t)) <$> texts) = texts.
Proof.
  induction texts as [|t texts IH]; [done|].
  unfold generation_chunks in *. csimpl. by rewrite IH.
Qed.

Lemma texts_not_complete (texts : list string) :
  Forall (λ e, is_complete e = false) ((λ t, EvGeneration (Some t)) <$> texts).
Proof. apply Forall_fmap, Forall_forall. by intros t _. Qed.

(** The events of a streamed query, one case for each way it can end. *)
Lemma streamQuery_shape config regex_matches pipeline question opts st :
  ∃ body,
    head body = Some (EvRetrieval None)
    ∧ Forall (λ e, is_complete e = false) body
    ∧ match (streamQuery config regex_matches pipeline question opts st).1 with
      | Ok _ =>
          ∃ results final texts,
            store_hybridSearch config pipeline question (topK config) = Ok results
            ∧ rerank_stage config regex_matches pipeline opts question results
              = Ok final
            ∧ streamed pipeline question (build_context final) (requests st)
              = Ok (texts, None)
            ∧ generation_chunks body = texts
            ∧ emitted st
                (streamQuery config regex_matches pipeline question opts st).2
              = body ++ [EvComplete (to_sources final)]
      | Err _ =>
          emitted st
            (streamQuery config regex_matches pipeline question opts st).2
          = body
      end.
Proof.
  rewrite streamQuery_result.
  pose proof (streamQuery_events config regex_matches pipeline question opts st)
    as Hev.
  destruct (store_hybridSearch config pipeline question (topK config))
    as [results|e] eqn:Hstore; simpl in *.
  2:{ eexists. split_and!; [| |by apply emitted_app]; [done|by repeat constructor]. }
  pose proof (rerank_stage_reranked config regex_matches pipeline opts question
                results) as Hrerank.
  destruct (reranked_stage config regex_matches pipeline opts question results)
    as [reranked|e] eqn:Hreranked; simpl in *.
  2:{ rewrite Hrerank. simpl.
      eexists. split_and!; [| |by apply emitted_app]; [done|].
      destruct (useReranking opts && _); by repeat constructor. }
  destruct (documents_of "metadata" reranked) as [final|e] eqn:Hdocs;
    rewrite Hrerank; simpl in *.
  2:{ eexists. split_and!; [| |by apply emitted_app]; [done|].
      destruct (useReranking opts && _); by repeat constructor. }
  apply documents_of_Ok in Hdocs. subst reranked. rewrite length_map in Hev.
  destruct (streamed pipeline question (build_context final) (requests st))
    as [[texts failure]|e] eqn:Hstreamed; simpl in *.
  2:{ eexists. split_and!; [| |by apply emitted_app]; [done|].
      destruct (useReranking opts && _); by repeat constructor. }
  destruct failure as [e|].
  - eexists. split_and!; [| |by apply emitted_app]; [done|].
    rewrite app_nil_r.
    destruct (useReranking opts && _); simpl;
      repeat (constructor; [done|]); apply texts_not_complete.
  - exists ([EvRetrieval None; EvRetrieval (Some (length results))]
            ++ (if useReranking opts && (0 <? Z.of_nat (length results))
                then [EvReranking None; EvReranking (Some (length final))]
                else [])
            ++ [EvGeneration None]
            ++ ((λ t, EvGeneration (Some t)) <$> texts)).
    split_and!; [done| |].
    + destruct (useReranking opts && _); simpl;
        repeat (constructor; [done|]); apply texts_not_complete.
    + exists results, final, texts. split_and!; [done..| |].
      * destruct (useReranking opts && _); simpl;
          apply generation_chunks_texts.
      * apply emitted_app. rewrite Hev.
        destruct (useReranking opts && _); simpl;
          by rewrite <- ?app_assoc.
Qed.

End stream_facts.

(** X10. The events of a streamed query start with the retrieval event;
    [complete] is yielded exactly when the flow ends without an error, as
    its last event and with the sources of the final candidates; when a
    stage fails the events yielded before stay yielded and no [complete]
    follows. *)
Theorem streamQuery_event_order
    (config : Config) (regex_matches : string → string → result nat)
    (pipeline : RAGPipeline.Pipeline) (question : string)
    (opts : RAGPipeline.Options) (st : RAGPipeline.PState) :
  ∃ body,
    head body = Some (RAGPipeline.EvRetrieval None)
    ∧ Forall (λ e, PipelineSpec.is_complete e = false) body
    ∧ match (RAGPipeline.streamQuery config regex_matches pipeline question
               opts st).1 with
      | Ok _ =>
          ∃ sources,
            PipelineSpec.emitted st
              (RAGPipeline.streamQuery config regex_matches pipeline question
                 opts st).2
            = body ++ [RAGPipeline.EvComplete sources]
      | Err _ =>
          PipelineSpec.emitted st
            (RAGPipeline.streamQuery config regex_matches pipeline question
               opts st).2
          = body
      end.
Proof.
  destruct (streamQuery_shape config regex_matches pipeline question opts st)
    as (body & Hhead & Hbody & Hend).
  exists body. split_and!; [done..|].
  destruct (RAGPipeline.streamQuery config regex_matches pipeline question
              opts st).1; [|done].
  destruct Hend as (results & final & texts & _ & _ & _ & _ & ->). eauto.
Qed.

(** X11. In mock mode the stream tells the same story as the single-shot
    query whenever that query has sources: the streamed query ends without
    an error, its generation chunks put together are the answer of the
    query, and its last event is [complete] with the sources of the query. *)
Theorem mock_stream_agrees_with_query
    (config : Config) (now : nat → Z)
    (regex_matches : string → string → result nat)
    (documents : list Document) (question : string)
    (opts : RAGPipeline.Options) (st st0 : RAGPipeline.PState)
    (r : RAGPipeline.RAGResponse) :
  (RAGPipeline.query config now regex_matches (RAGPipeline.MockMode documents)
     question opts st).1 = Ok r →
  RAGPipeline.sources r ≠ [] →
  (RAGPipeline.streamQuery config regex_matches (RAGPipeline.MockMode documents)
     question opts st0).1 = Ok ()
  ∧ String.concat ""
      (PipelineSpec.generation_chunks
         (PipelineSpec.emitted st0
            (RAGPipeline.streamQuery config regex_matches
               (RAGPipeline.MockMode documents) question opts st0).2))
    = RAGPipeline.answer r
  ∧ last (PipelineSpec.emitted st0
            (RAGPipeline.streamQuery config regex_matches
               (RAGPipeline.MockMode documents) question opts st0).2)
    = Some (RAGPipeline.EvComplete (RAGPipeline.sources r)).
Proof.
  intros Hq Hsrc. rewrite query_result in Hq.
  destruct (streamQuery_shape config regex_matches
              (RAGPipeline.MockMode documents) question opts st0)
    as (body & _ & _ & Hend).
  rewrite streamQuery_result in *.
  destruct (RAGPipeline.store_hybridSearch config
              (RAGPipeline.MockMode documents) question (topK config))
    as [results|e]; simpl in *; [|done].
  destruct (RAGPipeline.rerank_stage config regex_matches
              (RAGPipeline.MockMode documents) opts question results)
    as [final|e] eqn:Hrerank; simpl in *; [|done].
  unfold RAGPipeline.generation_stage in Hq.
  destruct (Z.of_nat (length final) =? 0) eqn:Hlen; simpl in Hq.
  { injection Hq as <-. simpl in Hsrc. destruct final; [done|simpl in Hlen; lia]. }
  injection Hq as <-. simpl.
  destruct Hend as (results' & final' & texts & [= <-] & Hr & Ht & Hchunks & ->).
  rewrite Hrerank in Hr. injection Hr as <-. injection Ht as <-.
  split; [done|]. rewrite generation_chunks_app, Hchunks, app_nil_r, last_snoc.
  split; [|done].
  unfold RAGPipeline.mock_answer, MockLLM.streamAnswer.
  destruct (generateAnswer_defined question
              (RAGPipeline.build_context final)) as [text ->].
  simpl. apply fragments_concat.
Qed.

Lemma mock_stream_agrees_with_query_witness :
  ∃ r,
    (RAGPipeline.query default_config Samples.clock Samples.no_regex
       (RAGPipeline.MockMode Samples.stored) "zebra" Samples.all_on
       RAGPipeline.initial).1 = Ok r
    ∧ String.concat ""
        (PipelineSpec.generation_chunks
           (RAGPipeline.events
              (RAGPipeline.streamQuery default_config Samples.no_regex
                 (RAGPipeline.MockMode Samples.stored) "zebra" Samples.all_on
                 RAGPipeline.initial).2))
      = RAGPipeline.answer r.
Proof.
  eexists. split; [reflexivity|].
  eapply (mock_stream_agrees_with_query default_config Samples.clock
            Samples.no_regex Samples.stored "zebra" Samples.all_on
            RAGPipeline.initial RAGPipeline.initial).
  - reflexivity.
  - simpl. discriminate.
Defined.

(** X12. When the second step leaves candidates only, each with its
    document, and the chat stream of the live generator breaks, the streamed
    query fails with the error of the stream; the chunks read before, the
    empty ones apart, have been yielded in their order, and [complete] is
    not.  (A result without a document ends the flow before the stream is
    opened: [rerank_stage] fails on it.) *)
Theorem live_stream_failure_keeps_chunks
    (config : Config) (regex_matches : string → string → result nat)
    (services : RAGPipeline.LiveServices) (question : string)
    (opts : RAGPipeline.Options) (st : RAGPipeline.PState)
    (results final : list SearchResult) (texts : list string) (e : string) :
  RAGPipeline.store_hybridSearch config (RAGPipeline.LiveMode services)
    question (topK config) = Ok results →
  RAGPipeline.rerank_stage config regex_matches (RAGPipeline.LiveMode services)
    opts question results = Ok final →
  RAGPipeline.chat_stream services (RAGPipeline.requests st)
    (RAGPipeline.stream_prompt (RAGPipeline.build_context final) question)
  = Ok (texts, Some e) →
  (RAGPipeline.streamQuery config regex_matches (RAGPipeline.LiveMode services)
     question opts st).1 = Err e
  ∧ PipelineSpec.generation_chunks
      (PipelineSpec.emitted st
         (RAGPipeline.streamQuery config regex_matches
            (RAGPipeline.LiveMode services) question opts st).2)
    = filter (λ t, t ≠ "") texts
  ∧ Forall (λ ev, PipelineSpec.is_complete ev = false)
      (PipelineSpec.emitted st
         (RAGPipeline.streamQuery config regex_matches
            (RAGPipeline.LiveMode services) question opts st).2).
Proof.
  intros Hstore Hrerank Hstream.
  pose proof (streamQuery_events config regex_matches
                (RAGPipeline.LiveMode services) question opts st) as Hev.
  rewrite streamQuery_result.
  rewrite Hstore in *. simpl in *. rewrite Hrerank. simpl.
  rewrite rerank_stage_reranked in Hrerank.
  destruct (RAGPipeline.reranked_stage _ _ _ _ _ _) as [reranked|e'];
    simpl in *; [|done].
  rewrite Hrerank in Hev. simpl in Hev.
  rewrite Hstream in *. simpl in *.
  split; [done|].
  rewrite (emitted_app _ _ _ Hev).
  destruct (RAGPipeline.useReranking opts && _); simpl;
    rewrite app_nil_r.
  - split; [apply generation_chunks_texts|].
    repeat (constructor; [done|]). apply texts_not_complete.
  - split; [apply generation_chunks_texts|].
    repeat (constructor; [done|]). apply texts_not_complete.
Qed.

Lemma live_stream_failure_keeps_chunks_witness :
  (RAGPipeline.streamQuery Samples.live_config Samples.no_regex
     (RAGPipeline.LiveMode PipelineSpec.services_with_broken_stream)
     "caching and indexes" Samples.hybrid_only RAGPipeline.initial).1
  = Err "socket closed"
  ∧ PipelineSpec.generation_chunks
      (RAGPipeline.events
         (RAGPipeline.streamQuery Samples.live_config Samples.no_regex
            (RAGPipeline.LiveMode PipelineSpec.services_with_broken_stream)
            "caching and indexes" Samples.hybrid_only RAGPipeline.initial).2)
    = ["Caching "; "helps"].
Proof.
  destruct (live_stream_failure_keeps_chunks Samples.live_config Samples.no_regex
              PipelineSpec.services_with_broken_stream "caching and indexes"
              Samples.hybrid_only RAGPipeline.initial
              Samples.retrieved Samples.retrieved ["Caching "; ""; "helps"]
              "socket closed") as (Herr & Hchunks & _).
  - reflexivity.
  - reflexivity.
  - reflexivity.
  - split; [exact Herr|exact Hchunks].
Defined.

(** ** The handlers *)

Section handler_facts.
Import RAGPipeline Server.
Variable config : Config.
Variable now : nat → Z.
Variable regex_matches : string → string → result nat.
Variable pipeline : Pipeline.

Lemma api_query_result body st :
  api_query config now regex_matches pipeline body st
  = if question_missing (question body)
    then (Ok (mkHttpResponse 400 (JsonError "Question is required")), st)
    else
      match query config now regex_matches pipeline (default "" (question body))
              {| useReranking := default true (body_useReranking body);
                 useHybridSearch := default true (body_useHybridSearch body);
                 streamResponse := false |} st with
      | (Ok response, st') =>
          (Ok (mkHttpResponse 200 (JsonResponse response)), st')
      | (Err _, st') =>
          (Ok (mkHttpResponse 500 (JsonError "Internal server error")), st')
      end.
Proof.
  unfold api_query, m_try_catch.
  destruct (question_missing (question body)); [done|].
  cbv [mbind M_bind mret M_ret].
  by destruct (query _ _ _ _ _ _ st) as [[response|e] st'].
Qed.

End handler_facts.

(** X13. The query handler always answers: 400 for a missing question, 200
    with the response of the pipeline when the query returns, and 500 with
    the fixed text [Internal server error] when a stage fails; the error of
    the stage is not sent. *)
Theorem api_query_always_responds
    (config : Config) (now : nat → Z)
    (regex_matches : string → string → result nat)
    (pipeline : RAGPipeline.Pipeline) (body : Server.Body)
    (st : RAGPipeline.PState) :
  ∃ response st',
    Server.api_query config now regex_matches pipeline body st
    = (Ok response, st')
    ∧ ((Server.question_missing (Server.question body) = true
        ∧ response
          = Server.mkHttpResponse 400 (Server.JsonError "Question is required"))
       ∨ (Server.question_missing (Server.question body) = false
          ∧ ∃ r,
              (RAGPipeline.query config now regex_matches pipeline
                 (default "" (Server.question body))
                 {| RAGPipeline.useReranking :=
                      default true (Server.body_useReranking body);
                    RAGPipeline.useHybridSearch :=
                      default true (Server.body_useHybridSearch body);
                    RAGPipeline.streamResponse := false |} st).1 = Ok r
              ∧ response = Server.mkHttpResponse 200 (Server.JsonResponse r))
       ∨ (Server.question_missing (Server.question body) = false
          ∧ ∃ e,
              (RAGPipeline.query config now regex_matches pipeline
                 (default "" (Server.question body))
                 {| RAGPipeline.useReranking :=
                      default true (Server.body_useReranking body);
                    RAGPipeline.useHybridSearch :=
                      default true (Server.body_useHybridSearch body);
                    RAGPipeline.streamResponse := false |} st).1 = Err e
              ∧ response
                = Server.mkHttpResponse 500
                    (Server.JsonError "Internal server error"))).
Proof.
  rewrite api_query_result.
  destruct (Server.question_missing (Server.question body)).
  - do 2 eexists. split; [done|]. by left.
  - destruct (RAGPipeline.query _ _ _ _ _ _ st) as [[r|e] st'].
    + do 2 eexists. split; [done|]. right; left. eauto.
    + do 2 eexists. split; [done|]. right; right. eauto.
Qed.

(** X14. A server started in mock mode has a store without documents, and
    nothing the handlers do adds one: every question put to the query
    handler is answered with status 200, the fixed no-results text and no
    sources, after the one call of the store. *)
Theorem mock_server_finds_nothing
    (config : Config) (services : RAGPipeline.LiveServices) (now : nat → Z)
    (regex_matches : string → string → result nat) (body : Server.Body)
    (st : RAGPipeline.PState) (q : string) :
  mockMode config = true →
  Server.question body = Some q → q ≠ "" →
  ∃ r st',
    Server.api_query config now regex_matches
      (RAGPipeline.new config services) body st
    = (Ok (Server.mkHttpResponse 200 (Server.JsonResponse r)), st')
    ∧ RAGPipeline.answer r = RAGPipeline.no_results_answer
    ∧ RAGPipeline.sources r = []
    ∧ PipelineSpec.called st st'
      = [RAGPipeline.CallHybridSearch q (topK config)].
Proof.
  intros Hmock Hq Hne. rewrite api_query_result, Hq. simpl.
  rewrite (proj2 (String.eqb_neq q "") Hne).
  unfold RAGPipeline.new. rewrite Hmock.
  match goal with |- context [RAGPipeline.query ?c ?n ?x ?p ?qq ?o ?s] =>
    pose proof (query_result c n x p qq o s) as Hres;
    pose proof (query_calls c n x p qq o s) as Hcalls;
    destruct (RAGPipeline.query c n x p qq o s) as [res st'] end.
  simpl in Hres, Hcalls.
  rewrite store_empty_rerank_stage in Hres, Hcalls. simpl in Hres, Hcalls.
  subst res. do 2 eexists. split; [done|]. simpl.
  split_and!; [done..|]. apply called_app.
  rewrite andb_false_r in Hcalls. by rewrite Hcalls.
Qed.

Lemma mock_server_finds_nothing_witness :
  ∃ r st',
    Server.api_query default_config Samples.clock Samples.no_regex
      (RAGPipeline.new default_config Samples.live_services)
      (Server.mkBody (Some "What is RAG?") None None) RAGPipeline.initial
    = (Ok (Server.mkHttpResponse 200 (Server.JsonResponse r)), st')
    ∧ RAGPipeline.answer r = RAGPipeline.no_results_answer
    ∧ RAGPipeline.sources r = [].
Proof.
  destruct (mock_server_finds_nothing default_config Samples.live_services
              Samples.clock Samples.no_regex
              (Server.mkBody (Some "What is RAG?") None None)
              RAGPipeline.initial "What is RAG?")
    as (r & st' & Hrun & Ha & Hs & _).
  - reflexivity.
  - reflexivity.
  - discriminate.
  - exists r, st'. split_and!; [exact Hrun|exact Ha|exact Hs].
Defined.

(** ** Flows and [Promise.all] *)

Section flow_facts.
Import RAGPipeline PipelineSpec.
Context {A : Type}.
Implicit Types (f : Flow A) (Q : result A → Prop) (s : PState).
Implicit Types (flows : list (Flow A)) (Qs : list (result A → Prop)).

Lemma step_leads Q f s : Leads Q f → Leads Q (step f s).1.
Proof.
  destruct f as [outcome|X segment resume]; simpl; [done|].
  intros H. specialize (H s). by destruct (segment s) as [[x|e] s'].
Qed.

Lemma finish_leads Q f s : Leads Q f → Q (finish f s).1.
Proof.
  revert s. induction f as [outcome|X segment resume IH]; intros s; simpl.
  - by destruct outcome.
  - intros H. specialize (H s). destruct (segment s) as [[x|e] s']; [|done].
    by apply IH.
Qed.

Lemma leads_weaken Q Q' f : (∀ o, Q o → Q' o) → Leads Q f → Leads Q' f.
Proof.
  intros HQ. induction f as [outcome|X segment resume IH]; simpl; [apply HQ|].
  intros H s. specialize (H s). destruct (segment s) as [[x|e] s'].
  - by apply IH.
  - by apply HQ.
Qed.

Lemma flow_map_leads {B} (g : A → B) (Q : result B → Prop) f :
  Leads (λ o, Q (g <$> o)) f → Leads Q (flow_map g f).
Proof.
  induction f as [outcome|X segment resume IH]; simpl; [done|].
  intros H s. specialize (H s). destruct (segment s) as [[x|e] s']; [|done].
  by apply IH.
Qed.

Lemma rejected_settles Qs flows e :
  Forall2 Leads Qs flows → Server.rejected flows = Some e →
  Exists (λ Q, Q (Err e)) Qs.
Proof.
  induction 1 as [|Q f Qs flows HQ _ IH]; simpl; [done|].
  destruct f as [[x|e']|X segment resume].
  - intros H. right. by apply IH.
  - intros [= ->]. by left.
  - intros H. right. by apply IH.
Qed.

Lemma fulfilled_settles Qs flows xs :
  Forall2 Leads Qs flows → Server.fulfilled flows = Some xs →
  Forall2 (λ Q x, Q (Ok x)) Qs xs.
Proof.
  intros H. revert xs. induction H as [|Q f Qs flows HQ _ IH]; intros xs; simpl.
  - intros [= <-]. constructor.
  - destruct f as [[x|e']|X segment resume]; [|done..].
    destruct (Server.fulfilled flows) as [xs'|]; simpl; [|done].
    intros [= <-]. constructor; [done|]. by apply IH.
Qed.

Lemma settle_all_settles Qs flows s :
  Forall2 Leads Qs flows → Settles Qs (Server.settle_all flows s).1.
Proof.
  intros H. revert s. induction H as [|Q f Qs flows HQ _ IH]; intros s; simpl.
  - constructor.
  - cbv [mbind M_bind mret M_ret].
    pose proof (finish_leads Q f s HQ) as Hf.
    destruct (finish f s) as [[x|e] s']; simpl in *; [|by left].
    specialize (IH s').
    destruct (Server.settle_all flows s') as [[xs|e] s'']; simpl in *.
    + by constructor.
    + by right.
Qed.

Lemma run_all_settles Qs schedule flows s :
  Forall2 Leads Qs flows → Settles Qs (Server.run_all schedule flows s).1.
Proof.
  revert flows s. induction schedule as [|i later IH]; intros flows s H; simpl.
  - destruct (Server.rejected flows) as [e|] eqn:Hrej; simpl;
      [by eapply rejected_settles|].
    destruct (Server.fulfilled flows) as [xs|] eqn:Hful; simpl;
      [by eapply fulfilled_settles|].
    by apply settle_all_settles.
  - destruct (Server.rejected flows) as [e|] eqn:Hrej; simpl;
      [by eapply rejected_settles|].
    destruct (Server.fulfilled flows) as [xs|] eqn:Hful; simpl;
      [by eapply fulfilled_settles|].
    destruct (flows !! (i mod length flows)%nat) as [f|] eqn:Hf; [|by apply IH].
    destruct (step f s) as [f' s'] eqn:Hstep.
    apply IH.
    destruct (Forall2_lookup_r _ _ _ _ _ H Hf) as (Q & HQ & HL).
    rewrite <- (list_insert_id Qs (i mod length flows)%nat Q HQ).
    apply Forall2_insert; [done|].
    replace f' with (step f s).1 by (by rewrite Hstep). by apply step_leads.
Qed.

Lemma start_leads Qs flows s :
  Forall2 Leads Qs flows → Forall2 Leads Qs (Server.start flows s).1.
Proof.
  intros H. revert s. induction H as [|Q f Qs flows HQ _ IH]; intros s; simpl;
    [constructor|].
  pose proof (step_leads Q f s HQ) as Hf.
  destruct (step f s) as [f' s']. specialize (IH s').
  destruct (Server.start flows s') as [rest' s'']. simpl in *. by constructor.
Qed.

Lemma all_settles Qs schedule flows s :
  Forall2 Leads Qs flows → Settles Qs (Server.all schedule flows s).1.
Proof.
  intros H. unfold Server.all.
  pose proof (start_leads Qs flows s H) as Hs.
  destruct (Server.start flows s) as [started s']. by apply run_all_settles.
Qed.
End flow_facts.

Section query_flow_facts.
Import RAGPipeline PipelineSpec.
Variable config : Config.
Variable now : nat → Z.
Variable regex_matches : string → string → result nat.
Variable pipeline : Pipeline.

Ltac run_flow :=
  cbv [mbind M_bind date_now log lift mret M_ret query_generation
       generateAnswer generateAnswer_call generations].

(** The flow of a query, run to its end with nothing in between, is the
    query. *)
Lemma query_flow_uninterrupted question opts st :
  finish (query_flow config now regex_matches pipeline question opts) st
  = query config now regex_matches pipeline question opts st.
Proof.
  unfold query_flow, query. simpl.
  cbv [mbind M_bind date_now log lift mret M_ret query_generation
       generateAnswer generateAnswer_call generations
       vectorStore_hybridSearch reranker_rerankWithMetadata].
  destruct (useHybridSearch opts);
  (destruct (store_hybridSearch _ _ _ _) as [results|e]; simpl; [|done];
   destruct (useReranking opts && _); simpl;
   [destruct (reranker_answer _ _ _ _ _ _) as [reranked|e]; simpl; [|done]|]).
  all: destruct (_ =? 0); simpl.
  all: try (destruct (documents_of "metadata" _) as [final|e]; simpl).
  all: try (destruct (llm_answer _ _ _ _ _); simpl).
  all: try (destruct (documents_of "pageContent" _) as [docs|e]; simpl).
  all: done.
Qed.

Lemma staged_query question opts st :
  (λ r, (answer r, sources r))
    <$> (query config now regex_matches pipeline question opts st).1
  = staged config regex_matches pipeline question opts (requests st).
Proof. apply query_answer_and_sources. Qed.

(** However a query is interleaved with others, its answer and its sources
    are those of its three stages, the answer being that to one of the
    requests. *)
Lemma query_flow_leads question opts :
  Leads (λ o, ∃ n, (λ r, (answer r, sources r)) <$> o
                   = staged config regex_matches pipeline question opts n)
    (query_flow config now regex_matches pipeline question opts).
Proof.
  unfold query_flow, staged, rerank_stage, generation_stage. simpl.
  intros s0. run_flow.
  destruct (useHybridSearch opts); simpl.
  all: intros s1; run_flow.
  all: destruct (store_hybridSearch _ _ _ _) as [results|e]; simpl;
    [|by exists 0%nat].
  all: destruct (useReranking opts && _); simpl.
  all: try (intros s2; run_flow;
            destruct (reranker_answer _ _ _ _ _ _) as [reranked|e]; simpl;
            [|by exists 0%nat];
            destruct (documents_of "metadata" reranked) as [final|e] eqn:Hdocs;
            simpl;
            [apply documents_of_Ok in Hdocs; subst reranked
            |rewrite (documents_of_Err _ _ _ Hdocs); simpl;
             intros s3; run_flow; simpl; by exists 0%nat]).
  all: rewrite length_map, ?documents_of_candidates.
  all: destruct (_ =? 0) eqn:Hlen; simpl; intros s3; run_flow; simpl;
    [rewrite documents_of_candidates; by exists 0%nat|].
  all: destruct (llm_answer _ _ _ _ _) eqn:Hanswer; simpl;
    rewrite ?documents_of_candidates; simpl; eexists; by rewrite Hanswer.
Qed.

(** The three queries of a comparison, as they are given to
    [Promise.all]. *)
Lemma compare_flows_lead question :
  Forall2 Leads
    (compared config regex_matches pipeline question <$> Server.configurations)
    (map (λ c,
       flow_map
         (λ response,
            {| Server.configuration := Server.name c;
               Server.comparison_answer := answer response;
               Server.comparison_sources := length (sources response);
               Server.topSource := head (sources response);
               Server.comparison_metrics := metrics response |})
         (query_flow config now regex_matches pipeline question
            {| useReranking := Server.cfg_useReranking c;
               useHybridSearch := Server.cfg_useHybridSearch c;
               streamResponse := false |}))
       Server.configurations).
Proof.
  apply Forall2_fmap_l, Forall2_fmap_r, Forall_Forall2_diag, Forall_forall.
  intros c _. apply flow_map_leads.
  eapply leads_weaken; [|apply query_flow_leads].
  intros [r|e] [n Hn]; simpl in *.
  - split; [done|]. exists n, (answer r, sources r). by split.
  - by exists n.
Qed.
End query_flow_facts.

(** In mock mode no service is asked: the stages do not depend on the
    request. *)
Lemma staged_mock config now regex_matches documents question opts n st :
  PipelineSpec.staged config regex_matches (RAGPipeline.MockMode documents)
    question opts n
  = (λ r, (RAGPipeline.answer r, RAGPipeline.sources r))
      <$> (RAGPipeline.query config now regex_matches
             (RAGPipeline.MockMode documents) question opts st).1.
Proof. by rewrite staged_query. Qed.

(** X15. The comparison handler answers all or nothing, in whatever order
    the event loop resumes the three queries.  For a question that is
    present it never throws: it returns status 500 with the fixed text and
    no comparison, and then one of the three queries fails in one of its
    stages; or status 200 with three comparisons, named vector only, hybrid
    and hybrid with reranking in this order, each showing the answer and
    the sources of the stages of its query.  When the retrieval fails on the
    question the status is 500.  In mock mode, where no service is asked,
    the status is 200 exactly when the single query without reranking and
    the one with reranking both return; the comparisons show their answers
    and sources, and the first two agree. *)
Theorem api_compare_all_or_nothing
    (config : Config) (now : nat → Z)
    (regex_matches : string → string → result nat)
    (pipeline : RAGPipeline.Pipeline) (schedule : list nat)
    (body : Server.Body) (st : RAGPipeline.PState) (q : string) :
  Server.question body = Some q → q ≠ "" →
  ∃ response st',
    Server.api_compare config now regex_matches pipeline schedule body st
    = (Ok response, st')
    ∧ ((response
        = Server.mkHttpResponse 500 (Server.JsonError "Internal server error")
        ∧ (∃ c n e,
             c ∈ Server.configurations
             ∧ PipelineSpec.staged config regex_matches pipeline q
                 (PipelineSpec.options_of c) n = Err e)
        ∧ (∀ documents,
             pipeline = RAGPipeline.MockMode documents →
             (∃ e, (RAGPipeline.query config now regex_matches pipeline q
                      (RAGPipeline.mkOptions false true false) st).1 = Err e)
             ∨ (∃ e, (RAGPipeline.query config now regex_matches pipeline q
                        (RAGPipeline.mkOptions true true false) st).1 = Err e)))
       ∨ (∃ vector hybrid reranked,
            response
            = Server.mkHttpResponse 200
                (Server.JsonComparisons q [vector; hybrid; reranked])
            ∧ Server.configuration <$> [vector; hybrid; reranked]
              = ["Vector Search Only"; "Hybrid Search"; "Hybrid + Reranking"]
            ∧ Forall2
                (λ comparison c,
                   ∃ n shown,
                     PipelineSpec.staged config regex_matches pipeline q
                       (PipelineSpec.options_of c) n = Ok shown
                     ∧ PipelineSpec.shows comparison shown)
                [vector; hybrid; reranked] Server.configurations
            ∧ (∀ e, RAGPipeline.store_hybridSearch config pipeline q
                      (topK config) ≠ Err e)
            ∧ (∀ documents,
                 pipeline = RAGPipeline.MockMode documents →
                 Server.comparison_answer vector
                 = Server.comparison_answer hybrid
                 ∧ Server.comparison_sources vector
                   = Server.comparison_sources hybrid
                 ∧ Server.topSource vector = Server.topSource hybrid
                 ∧ (∃ r, (RAGPipeline.query config now regex_matches pipeline
                            q (RAGPipeline.mkOptions false true false) st).1
                         = Ok r
                         ∧ PipelineSpec.shows hybrid
                             (RAGPipeline.answer r, RAGPipeline.sources r))
                 ∧ (∃ r, (RAGPipeline.query config now regex_matches pipeline
                            q (RAGPipeline.mkOptions true true false) st).1
                         = Ok r
                         ∧ PipelineSpec.shows reranked
                             (RAGPipeline.answer r, RAGPipeline.sources r))))).
Proof.
  intros Hq Hne. unfold Server.api_compare, RAGPipeline.m_try_catch.
  rewrite Hq. simpl. rewrite (proj2 (String.eqb_neq q "") Hne).
  cbv [mbind RAGPipeline.M_bind mret RAGPipeline.M_ret].
  match goal with |- context [Server.all schedule ?flows st] =>
    pose proof (all_settles _ schedule flows st
                  (compare_flows_lead config now regex_matches pipeline q))
      as Hall;
    destruct (Server.all schedule flows st) as [[xs|e] st'] end;
    unfold PipelineSpec.Settles in Hall; cbn [fst] in Hall.
  - do 2 eexists. split; [done|]. right.
    unfold Server.configurations in Hall. simpl in Hall.
    apply Forall2_cons_inv_l in Hall as (vector & xs1 & Hv & Hall & ->).
    apply Forall2_cons_inv_l in Hall as (hybrid & xs2 & Hh & Hall & ->).
    apply Forall2_cons_inv_l in Hall as (reranked & xs3 & Hr & Hall & ->).
    apply Forall2_nil_inv_l in Hall as ->.
    destruct Hv as (Hvn & nv & sv & Hvs & Hvshows).
    destruct Hh as (Hhn & nh & sh & Hhs & Hhshows).
    destruct Hr as (Hrn & nr & sr & Hrs & Hrshows).
    exists vector, hybrid, reranked. split_and!.
    + done.
    + simpl. by rewrite Hvn, Hhn, Hrn.
    + repeat constructor; eauto.
    + intros e He. unfold PipelineSpec.staged in Hvs. by rewrite He in Hvs.
    + intros documents ->.
      rewrite (staged_mock config now regex_matches documents q _ _ st)
        in Hvs.
      rewrite (staged_mock config now regex_matches documents q _ _ st)
        in Hhs.
      rewrite (staged_mock config now regex_matches documents q _ _ st)
        in Hrs.
      change (PipelineSpec.options_of _)
        with (RAGPipeline.mkOptions false false false) in Hvs.
      rewrite query_same_for_both_searches in Hvs.
      change (PipelineSpec.options_of _)
        with (RAGPipeline.mkOptions false true false) in Hhs.
      change (PipelineSpec.options_of _)
        with (RAGPipeline.mkOptions true true false) in Hrs.
      rewrite Hhs in Hvs. injection Hvs as <-.
      destruct Hvshows as (Hva & Hvc & Hvt).
      destruct Hhshows as (Hha & Hhc & Hht).
      split_and!; [congruence..| |].
      * destruct (RAGPipeline.query config now regex_matches _ q
                    (RAGPipeline.mkOptions false true false) st).1 as [r|e];
          simpl in Hhs; [|done].
        injection Hhs as <-. by exists r.
      * destruct (RAGPipeline.query config now regex_matches _ q
                    (RAGPipeline.mkOptions true true false) st).1 as [r|e];
          simpl in Hrs; [|done].
        injection Hrs as <-. by exists r.
  - do 2 eexists. split; [done|]. left. split; [done|].
    apply Exists_exists in Hall as (Q & HQ & HQe).
    apply list_elem_of_fmap in HQ as (c & -> & Hc).
    destruct HQe as [n Hn]. split; [by exists c, n, e|].
    intros documents ->.
    rewrite (staged_mock config now regex_matches documents q _ _ st) in Hn.
    unfold Server.configurations in Hc.
    apply elem_of_cons in Hc as [->|Hc];
      [|apply elem_of_cons in Hc as [->|Hc];
        [|apply elem_of_cons in Hc as [->|Hc]; [|by apply elem_of_nil in Hc]]].
    + change (PipelineSpec.options_of _)
        with (RAGPipeline.mkOptions false false false) in Hn.
      rewrite query_same_for_both_searches in Hn. left.
      destruct (RAGPipeline.query _ _ _ _ _ _ _).1; [done|by eexists].
    + change (PipelineSpec.options_of _)
        with (RAGPipeline.mkOptions false true false) in Hn. left.
      destruct (RAGPipeline.query _ _ _ _ _ _ _).1; [done|by eexists].
    + change (PipelineSpec.options_of _)
        with (RAGPipeline.mkOptions true true false) in Hn. right.
      destruct (RAGPipeline.query _ _ _ _ _ _ _).1; [done|by eexists].
Qed.

Lemma api_compare_all_or_nothing_witness :
  ∃ vector hybrid reranked st',
    Server.api_compare default_config Samples.clock Samples.no_regex
      (RAGPipeline.MockMode Samples.stored) [2; 0; 1; 1; 2; 0]%nat
      (Server.mkBody (Some "zebra") None None) RAGPipeline.initial
    = (Ok (Server.mkHttpResponse 200
             (Server.JsonComparisons "zebra" [vector; hybrid; reranked])), st')
    ∧ Server.configuration <$> [vector; hybrid; reranked]
      = ["Vector Search Only"; "Hybrid Search"; "Hybrid + Reranking"]
    ∧ Server.comparison_answer vector = Server.comparison_answer hybrid.
Proof.
  destruct (api_compare_all_or_nothing default_config Samples.clock
              Samples.no_regex (RAGPipeline.MockMode Samples.stored)
              [2; 0; 1; 1; 2; 0]%nat
              (Server.mkBody (Some "zebra") None None)
              RAGPipeline.initial "zebra")
    as (response & st' & Hrun & [(H500 & _)|Hok]).
  - reflexivity.
  - discriminate.
  - rewrite H500 in Hrun. vm_compute in Hrun. discriminate.
  - destruct Hok as (vector & hybrid & reranked & -> & Hnames & _ & _ & Hmock).
    exists vector, hybrid, reranked, st'.
    split; [exact Hrun|]. split; [exact Hnames|].
    by destruct (Hmock Samples.stored eq_refl) as (Ha & _).
Defined.

(** The metrics of a comparison depend on the order in which the queries
    are resumed: run one after the other, the first query reads the clock
    at once; resumed last, it reads it after the others. *)
Example compare_metrics_follow_the_schedule :
  (λ response,
     match Server.json response with
     | Server.JsonComparisons _ comparisons =>
         RAGPipeline.totalTime <$> (Server.comparison_metrics <$> comparisons)
     | _ => []
     end)
    <$> (Server.api_compare default_config Samples.clock Samples.no_regex
           (RAGPipeline.MockMode Samples.stored) []
           (Server.mkBody (Some "zebra") None None) RAGPipeline.initial).1
  ≠ (λ response,
       match Server.json response with
       | Server.JsonComparisons _ comparisons =>
           RAGPipeline.totalTime <$> (Server.comparison_metrics <$> comparisons)
       | _ => []
       end)
      <$> (Server.api_compare default_config Samples.clock Samples.no_regex
             (RAGPipeline.MockMode Samples.stored) [2; 2; 2; 1; 1; 1]%nat
             (Server.mkBody (Some "zebra") None None) RAGPipeline.initial).1.
Proof. vm_compute. discriminate. Qed.

(** ** The live pipeline *)

Section live_pipeline_facts.
Import RAGPipeline.
Variable config : Config.
Variable regex_matches : string → string → result nat.
Variable services : LiveServices.

(** A provider that stays inside the request has the reranker return
    candidates only. *)
Lemma rerankWithMetadata_candidates cohere question results top :
  RerankSpec.in_range cohere →
  ∃ out,
    Reranker.rerankWithMetadata config cohere question results top
    = Ok (map Candidate out).
Proof.
  intros Hin.
  destruct results as [|d rest] eqn:Hresults; [by exists []|].
  assert (results ≠ []) as Hne by (by subst).
  rewrite <- Hresults. clear Hresults.
  destruct (cohere (rerankModel config) question
              (map Reranker.enrich results)
              (Z.min top (Z.of_nat (length results)))) as [hits|e1] eqn:H1.
  - rewrite (rerankWithMetadata_answer _ _ _ _ _ _ Hne H1).
    apply Hin in H1. rewrite length_map in H1.
    exists (RerankSpec.picked d results hits).
    by rewrite (map_back_in_range d).
  - rewrite (rerankWithMetadata_retry _ _ _ _ _ _ H1 Hne).
    destruct (cohere (rerankModel config) question
                (map (λ r, pageContent (document r)) results)
                (Z.min top (Z.of_nat (length results)))) as [hits|e2] eqn:H2.
    + rewrite (rerank_answer _ _ _ _ _ _ Hne H2).
      apply Hin in H2. rewrite length_map in H2.
      exists (RerankSpec.picked d results hits).
      by rewrite (map_back_in_range d).
    + rewrite (rerank_fallback _ _ _ _ _ _ H2). by eexists.
Qed.

Lemma live_rerank_stage_returns opts question results :
  RerankSpec.in_range (cohere services) →
  ∃ final,
    rerank_stage config regex_matches (LiveMode services) opts question results
    = Ok final.
Proof.
  intros Hin. unfold rerank_stage.
  destruct (useReranking opts && _); [|by eexists].
  unfold reranker_answer.
  destruct (rerankWithMetadata_candidates (cohere services) question results
              (rerankTopK config) Hin) as [out ->].
  simpl. rewrite documents_of_candidates. by eexists.
Qed.

(** A hit outside the candidates leaves a result without a document, and
    reading the documents throws. *)
Lemma documents_of_stray field results hits :
  Exists (λ h, (length results ≤ hit_index h)%nat) hits →
  documents_of field (Reranker.map_back results hits)
  = Err ("Cannot read properties of undefined (reading '" +:+ field +:+ "')").
Proof.
  induction hits as [|h hits IH]; intros Hex; [by apply Exists_nil in Hex|].
  unfold Reranker.map_back in *. simpl.
  destruct (results !! hit_index h) as [r|] eqn:Hr; [|done].
  apply Exists_cons in Hex as [Hh|Hex].
  - apply lookup_lt_Some in Hr. lia.
  - simpl. by rewrite IH.
Qed.

Lemma stray_rerank_stage opts question results hits :
  useReranking opts = true → results ≠ [] →
  cohere services (rerankModel config) question (map Reranker.enrich results)
    (Z.min (rerankTopK config) (Z.of_nat (length results))) = Ok hits →
  Exists (λ h, (length results ≤ hit_index h)%nat) hits →
  rerank_stage config regex_matches (LiveMode services) opts question results
  = Err RerankSpec.no_document.
Proof.
  intros Hr Hne Hhits Hex. unfold rerank_stage, reranker_answer. rewrite Hr.
  replace (0 <? Z.of_nat (length results)) with true
    by (symmetry; apply Z.ltb_lt; destruct results; simpl; [done|lia]).
  simpl. rewrite (rerankWithMetadata_answer _ _ _ _ _ _ Hne Hhits). simpl.
  by apply documents_of_stray.
Qed.

Lemma to_sources_scores final :
  relevanceScore <$> to_sources final = score <$> final.
Proof. induction final as [|r final IH]; [done|]. csimpl. by rewrite <- IH. Qed.


End live_pipeline_facts.

(** X16. Outside mock mode the reranker can make a query fail in one way
    only, by naming a document that was not in its request.  With a rerank
    provider that stays inside the request, [query] returns whenever the
    retrieval returns and the chat model answers, whatever else the
    provider does, and [streamQuery] ends with [complete] whenever the
    retrieval returns and the chat stream opens and ends in order.  When a
    hit of the provider lies outside the candidates, [query] and
    [streamQuery] fail with the [TypeError] of reading the document of a
    result that has none. *)
Theorem live_query_needs_search_and_chat_only
    (config : Config) (now : nat → Z)
    (regex_matches : string → string → result nat)
    (services : RAGPipeline.LiveServices) (question : string)
    (opts : RAGPipeline.Options) (st : RAGPipeline.PState)
    (results : list SearchResult) :
  RAGPipeline.store_hybridSearch config (RAGPipeline.LiveMode services)
    question (topK config) = Ok results →
  (RerankSpec.in_range (RAGPipeline.cohere services) →
   ((∀ n prompt, ∃ text, RAGPipeline.chat_invoke services n prompt = Ok text) →
    ∃ r, (RAGPipeline.query config now regex_matches
            (RAGPipeline.LiveMode services) question opts st).1 = Ok r)
   ∧ ((∀ n prompt, ∃ texts,
         RAGPipeline.chat_stream services n prompt = Ok (texts, None)) →
      (RAGPipeline.streamQuery config regex_matches
         (RAGPipeline.LiveMode services) question opts st).1 = Ok ()))
  ∧ (∀ hits,
       RAGPipeline.useReranking opts = true → results ≠ [] →
       RAGPipeline.cohere services (rerankModel config) question
         (map Reranker.enrich results)
         (Z.min (rerankTopK config) (Z.of_nat (length results))) = Ok hits →
       Exists (λ h, (length results ≤ hit_index h)%nat) hits →
       (RAGPipeline.query config now regex_matches
          (RAGPipeline.LiveMode services) question opts st).1
       = Err RerankSpec.no_document
       ∧ (RAGPipeline.streamQuery config regex_matches
            (RAGPipeline.LiveMode services) question opts st).1
         = Err RerankSpec.no_document).
Proof.
  intros Hstore. split.
  - intros Hin.
    destruct (live_rerank_stage_returns config regex_matches services opts
                question results Hin) as [final Hfinal].
    split.
    + intros Hchat. rewrite query_result, Hstore. simpl. rewrite Hfinal. simpl.
      unfold RAGPipeline.generation_stage.
      destruct (_ =? 0); [by eexists|].
      unfold RAGPipeline.llm_answer.
      destruct (RAGPipeline.streamResponse opts);
        match goal with |- context [RAGPipeline.chat_invoke services ?n ?p] =>
          destruct (Hchat n p) as [text ->] end; by eexists.
    + intros Hchat. rewrite streamQuery_result, Hstore. simpl.
      rewrite Hfinal. simpl.
      match goal with |- context [RAGPipeline.chat_stream services ?n ?p] =>
        destruct (Hchat n p) as [texts ->] end.
      done.
  - intros hits Hr Hne Hhits Hex.
    pose proof (stray_rerank_stage config regex_matches services opts question
                  results hits Hr Hne Hhits Hex) as Hstage.
    split.
    + rewrite query_result, Hstore. simpl. by rewrite Hstage.
    + rewrite streamQuery_result, Hstore. simpl. by rewrite Hstage.
Qed.

Lemma live_query_needs_search_and_chat_only_witness :
  (∃ r,
     (RAGPipeline.query Samples.live_config Samples.clock Samples.no_regex
        (RAGPipeline.LiveMode Samples.live_services) "caching and indexes"
        Samples.all_on RAGPipeline.initial).1 = Ok r)
  ∧ (RAGPipeline.query Samples.live_config Samples.clock Samples.no_regex
       (RAGPipeline.LiveMode PipelineSpec.services_with_stray_hit)
       "caching and indexes" Samples.all_on RAGPipeline.initial).1
    = Err RerankSpec.no_document.
Proof.
  split.
  - destruct (live_query_needs_search_and_chat_only Samples.live_config
                Samples.clock Samples.no_regex Samples.live_services
                "caching and indexes" Samples.all_on RAGPipeline.initial
                Samples.retrieved) as [Hq _].
    + reflexivity.
    + apply Hq.
      * intros model query documents topN hits Hhits. discriminate Hhits.
      * intros n prompt. exists "Caching helps [1].". reflexivity.
  - destruct (live_query_needs_search_and_chat_only Samples.live_config
                Samples.clock Samples.no_regex
                PipelineSpec.services_with_stray_hit
                "caching and indexes" Samples.all_on RAGPipeline.initial
                Samples.retrieved) as [_ Hstray].
    + reflexivity.
    + apply (Hstray [mkRerankHit 0 (9 # 10); mkRerankHit 3 (5 # 10)]).
      * reflexivity.
      * discriminate.
      * reflexivity.
      * right. left. simpl. lia.
Defined.



(** ** The mock store *)

Section mock_store_ranking.
Import MockVectorStore.

Lemma sorted_take {A} (R : relation A) (l : list A) n :
  StronglySorted R l → StronglySorted R (take n l).
Proof.
  intros Hs. rewrite <- (take_drop n l) in Hs.
  by apply StronglySorted_app_1_l in Hs.
Qed.

Lemma sorted_slice {A} (R : relation A) (l : list A) (stop : Z) :
  StronglySorted R l → StronglySorted R (Js.slice l 0 stop).
Proof.
  intros Hs. destruct (slice_is_prefix l stop) as [n ->]. by apply sorted_take.
Qed.

Lemma elem_of_slice {A} (l : list A) (stop : Z) x :
  x ∈ Js.slice l 0 stop → x ∈ l.
Proof.
  destruct (slice_is_prefix l stop) as [n ->].
  intros Hx. eapply elem_of_sublist; [exact Hx|apply sublist_take].
Qed.

Lemma matches_bounds_from content queryWords acc :
  acc ≤ foldl (λ a word, a + (if Js.includes content word then 1 else 0))
          acc queryWords
  ≤ acc + Z.of_nat (length queryWords).
Proof.
  revert acc. induction queryWords as [|w ws IH]; intros acc; simpl; [lia|].
  specialize (IH (acc + (if Js.includes content w then 1 else 0))).
  destruct (Js.includes content w); lia.
Qed.

Lemma matches_bounds content queryWords :
  0 ≤ matches content queryWords ≤ Z.of_nat (length queryWords).
Proof. apply (matches_bounds_from content queryWords 0). Qed.

Lemma score_of_le_1 queryWords doc :
  queryWords ≠ [] → (score_of queryWords doc <= 1)%Q.
Proof.
  intros Hne. unfold score_of.
  assert (0 < inject_Z (Z.of_nat (length queryWords)))%Q as Hpos.
  { change 0%Q with (inject_Z 0). rewrite <- Zlt_Qlt.
    destruct queryWords; [done|simpl; lia]. }
  apply Qle_shift_div_r; [done|]. rewrite Qmult_1_l. rewrite <- Zle_Qle.
  apply matches_bounds.
Qed.

Lemma fallback_at documents i r :
  fallback documents !! i = Some r →
  (i < 3)%nat ∧ document r ∈ documents
  ∧ score r = ((5 # 10) - inject_Z (Z.of_nat i) * (1 # 10))%Q
  ∧ vectorScore r = Some (score r).
Proof.
  rewrite fallback_take. intros (d & Hd & ->)%list_lookup_imap_Some. simpl.
  split_and!; [|..|done|done].
  - apply lookup_lt_Some in Hd. rewrite length_take in Hd. lia.
  - apply list_elem_of_lookup_2 in Hd.
    eapply elem_of_sublist; [exact Hd|apply sublist_take].
Qed.

Lemma fallback_sorted documents : StronglySorted (desc score) (fallback documents).
Proof.
  apply StronglySorted_by_index. intros i j x y Hij Hx Hy.
  destruct (fallback_at _ _ _ Hx) as (_ & _ & Hsx & _).
  destruct (fallback_at _ _ _ Hy) as (_ & _ & Hsy & _).
  unfold desc. rewrite Hsx, Hsy.
  assert (inject_Z (Z.of_nat i) < inject_Z (Z.of_nat j))%Q
    by (rewrite <- Zlt_Qlt; lia).
  lra.
Qed.

End mock_store_ranking.

(** X18. What the mock store returns is in descending order of score; every
    result is a stored document with a score above 0 and at most 1, which
    is also its vector score; for a limit that is not negative there are at
    most [max limit 3] results. *)
Theorem mock_hybridSearch_ranked
    (documents : list Document) (query : string) (limit : Z) :
  StronglySorted (desc score)
    (MockVectorStore.hybridSearch documents query limit)
  ∧ Forall (λ r, (0 < score r)%Q ∧ (score r <= 1)%Q
                 ∧ document r ∈ documents
                 ∧ vectorScore r = Some (score r))
      (MockVectorStore.hybridSearch documents query limit)
  ∧ (0 ≤ limit →
     Z.of_nat (length (MockVectorStore.hybridSearch documents query limit))
     ≤ Z.max limit 3).
Proof.
  unfold MockVectorStore.hybridSearch.
  destruct (Z.of_nat (length documents) =? 0) eqn:Hempty.
  { split_and!; [constructor|constructor|simpl; lia]. }
  set (queryWords := Js.split_space (Js.toLowerCase query)).
  assert (queryWords ≠ []) as Hwords.
  { unfold queryWords.
    destruct (split_space_cons (Js.toLowerCase query)) as (w & ws & ->). done. }
  set (candidates :=
    filter (λ r, negb (Qle_bool (MockVectorStore.sscore r) 0) = true)
      (imap (λ index doc,
         MockVectorStore.mkScored doc
           (MockVectorStore.score_of queryWords doc) index) documents)).
  set (ranked := Js.slice (Js.sort MockVectorStore.by_score_desc candidates) 0 limit).
  match goal with |- context [if ?b then MockVectorStore.fallback _ else _] =>
    destruct b eqn:Hres end.
  - split_and!.
    + apply fallback_sorted.
    + apply Forall_forall. intros r (i & Hi)%list_elem_of_lookup.
      destruct (fallback_at _ _ _ Hi) as (Hlt & Hdoc & Hs & Hv).
      split_and!; [| |done|done]; rewrite Hs.
      * assert (inject_Z (Z.of_nat i) <= inject_Z 2)%Q
          by (rewrite <- Zle_Qle; lia).
        change (inject_Z 2) with 2%Q in *. lra.
      * assert (inject_Z 0 <= inject_Z (Z.of_nat i))%Q
          by (rewrite <- Zle_Qle; lia).
        change (inject_Z 0) with 0%Q in *. lra.
    + intros _. rewrite fallback_take, length_imap, length_take. lia.
  - assert (∀ c, c ∈ ranked →
              (0 < MockVectorStore.sscore c)%Q
              ∧ (MockVectorStore.sscore c <= 1)%Q
              ∧ MockVectorStore.sdocument c ∈ documents) as Hcand.
    { intros c Hc. apply elem_of_slice in Hc.
      change MockVectorStore.by_score_desc
        with (by_key_desc MockVectorStore.sscore) in Hc.
      rewrite (sort_perm MockVectorStore.sscore) in Hc.
      apply list_elem_of_filter in Hc as [Hpos Hc].
      apply list_elem_of_lookup in Hc as (i & Hi).
      apply list_lookup_imap_Some in Hi as (d & Hd & ->). simpl in *.
      split_and!.
      - apply negb_true_iff in Hpos.
        destruct (Qlt_le_dec 0 (MockVectorStore.score_of queryWords d))
          as [?|Hle]; [done|].
        apply Qle_bool_iff in Hle. congruence.
      - by apply score_of_le_1.
      - by eapply list_elem_of_lookup_2. }
    split_and!.
    + rewrite map_is_fmap.
      apply (StronglySorted_fmap _ (desc MockVectorStore.sscore)); [done|].
      apply sorted_slice.
      change MockVectorStore.by_score_desc
        with (by_key_desc MockVectorStore.sscore).
      apply sort_sorted.
    + rewrite map_is_fmap. apply Forall_fmap, Forall_forall.
      intros c Hc. destruct (Hcand c Hc) as (? & ? & ?). simpl. done.
    + intros Hl. rewrite length_map.
      pose proof (slice_length_le
                    (Js.sort MockVectorStore.by_score_desc candidates) limit Hl).
      fold ranked in H. lia.
Qed.

Lemma mock_hybridSearch_ranked_witness :
  Z.of_nat (length (MockVectorStore.hybridSearch Samples.stored
                      "caching and indexes" 1)) ≤ 3
  ∧ Z.of_nat (length (MockVectorStore.hybridSearch Samples.stored "zebra" 1)) ≤ 3
  ∧ length (MockVectorStore.hybridSearch Samples.stored "zebra" 1) = 3%nat.
Proof.
  split; [|split].
  - apply (mock_hybridSearch_ranked Samples.stored "caching and indexes" 1). lia.
  - apply (mock_hybridSearch_ranked Samples.stored "zebra" 1). lia.
  - reflexivity.
Defined.

(** ** The mock reranker *)

Section mock_reranker_facts.
Variable regex_matches : string → string → result nat.

Lemma termFrequency_ge content queryWords acc tf :
  MockReranker.termFrequency regex_matches content queryWords acc = Ok tf →
  acc ≤ tf.
Proof.
  revert acc. induction queryWords as [|w ws IH]; intros acc; simpl.
  - intros [= <-]. lia.
  - destruct (regex_matches w content) as [n|e]; simpl; [|done].
    intros H%IH. lia.
Qed.

Lemma rescore_inv queryWords r r' :
  queryWords ≠ [] →
  MockReranker.rescore regex_matches queryWords r = Ok r' →
  r' = with_score r (score r')
  ∧ (0 <= score r')%Q ∧ (score r' <= 99 # 100)%Q.
Proof.
  intros Hne. unfold MockReranker.rescore.
  destruct (MockReranker.termFrequency _ _ _ _) as [tf|e] eqn:Htf; simpl; [|done].
  intros [= <-]. simpl. split_and!; [done| |apply Q.le_min_l].
  apply Q.min_glb; [lra|].
  apply termFrequency_ge in Htf.
  apply Qle_shift_div_l.
  - change 0%Q with (inject_Z 0). rewrite <- Zlt_Qlt.
    destruct queryWords; [done|simpl; lia].
  - rewrite Qmult_0_l. change 0%Q with (inject_Z 0). by rewrite <- Zle_Qle.
Qed.

Lemma rescore_all_inv queryWords results reranked :
  queryWords ≠ [] →
  MockReranker.rescore_all regex_matches queryWords results = Ok reranked →
  Forall2 (λ r r', r' = with_score r (score r')
                   ∧ (0 <= score r')%Q ∧ (score r' <= 99 # 100)%Q)
    results reranked.
Proof.
  intros Hne. revert reranked.
  induction results as [|r results IH]; intros reranked; simpl.
  - intros [= <-]. constructor.
  - destruct (MockReranker.rescore _ _ r) as [r'|e] eqn:Hr; simpl; [|done].
    destruct (MockReranker.rescore_all _ _ results) as [rest|e]; simpl; [|done].
    intros [= <-]. constructor; [by eapply rescore_inv|by apply IH].
Qed.

Lemma rescore_all_returns queryWords results :
  (∀ word content, ∃ n, regex_matches word content = Ok n) →
  ∃ reranked,
    MockReranker.rescore_all regex_matches queryWords results = Ok reranked.
Proof.
  intros Hre.
  assert (∀ content ws acc, ∃ tf,
            MockReranker.termFrequency regex_matches content ws acc = Ok tf)
    as Htf.
  { intros content ws. induction ws as [|w ws IH]; intros acc; simpl.
    - by eexists.
    - destruct (Hre w content) as [n ->]. simpl. apply IH. }
  induction results as [|r results [rest IH]]; simpl; [by eexists|].
  unfold MockReranker.rescore.
  destruct (Htf (Js.toLowerCase (pageContent (document r))) queryWords 0)
    as [tf ->].
  simpl. rewrite IH. simpl. by eexists.
Qed.

End mock_reranker_facts.

(** X19. When the mock reranker returns, its results are in descending order
    of the new score, which lies between 0 and 0.99; every result is one of
    the candidates with only the score replaced and no candidate is returned
    twice; for a [topK] that is not negative it returns [min topK n] of the
    [n] candidates.  It returns whenever the regular-expression engine
    accepts every query word. *)
Theorem mock_rerank_ranked
    (regex_matches : string → string → result nat) (query : string)
    (results : list SearchResult) (top : Z) :
  ((∀ word content, ∃ n, regex_matches word content = Ok n) →
   ∃ out, MockReranker.rerank regex_matches query results top = Ok out)
  ∧ ∀ out,
      MockReranker.rerank regex_matches query results top = Ok out →
      StronglySorted (desc score) out
      ∧ Forall (λ r, (0 <= score r)%Q ∧ (score r <= 99 # 100)%Q
                     ∧ ∃ r0, r0 ∈ results ∧ r = with_score r0 (score r)) out
      ∧ document <$> out ⊆+ document <$> results
      ∧ (0 ≤ top →
         length out = (Z.to_nat top `min` length results)%nat).
Proof.
  unfold MockReranker.rerank.
  set (queryWords := Js.split_space (Js.toLowerCase query)).
  assert (queryWords ≠ []) as Hwords.
  { unfold queryWords.
    destruct (split_space_cons (Js.toLowerCase query)) as (w & ws & ->). done. }
  split.
  { intros Hre.
    destruct (rescore_all_returns regex_matches queryWords results Hre)
      as [reranked ->].
    by eexists. }
  intros out.
  destruct (MockReranker.rescore_all regex_matches queryWords results)
    as [reranked|e] eqn:Hall; simpl; [|done].
  intros [= <-].
  pose proof (rescore_all_inv _ _ _ _ Hwords Hall) as Hinv.
  change MockReranker.by_score_desc with (by_key_desc score).
  split_and!.
  - apply sorted_slice, sort_sorted.
  - apply Forall_forall. intros r Hr.
    apply elem_of_slice in Hr. rewrite (sort_perm score) in Hr.
    apply list_elem_of_lookup in Hr as (i & Hi).
    destruct (Forall2_lookup_r _ _ _ _ _ Hinv Hi) as (r0 & Hr0 & Hw & ? & ?).
    split_and!; [done..|]. exists r0. split; [|done].
    by eapply list_elem_of_lookup_2.
  - assert (document <$> reranked = document <$> results) as <-.
    { clear -Hinv. induction Hinv as [|r r' l l' (Hw & _) _ IH]; [done|].
      csimpl. rewrite IH. f_equal. by rewrite Hw. }
    apply fmap_submseteq.
    destruct (slice_is_prefix (Js.sort (by_key_desc score) reranked) top)
      as [n ->].
    etrans; [apply sublist_submseteq, sublist_take|].
    by rewrite (sort_perm score).
  - intros Htop. rewrite slice_nonneg by done.
    rewrite length_take, (sort_perm score).
    by rewrite (rescore_all_length _ _ _ _ Hall).
Qed.

Lemma mock_rerank_ranked_witness :
  ∃ out,
    MockReranker.rerank Samples.no_regex "caching"
      [Samples.hitA; Samples.hitB; Samples.hitC] 2 = Ok out
    ∧ length out = 2%nat.
Proof.
  destruct (mock_rerank_ranked Samples.no_regex "caching"
              [Samples.hitA; Samples.hitB; Samples.hitC] 2) as [Hret Hout].
  destruct Hret as [out Hrun].
  - intros word content. exists 0%nat. reflexivity.
  - exists out. split; [exact Hrun|].
    destruct (Hout out Hrun) as (_ & _ & _ & Hlen).
    rewrite Hlen; [reflexivity|lia].
Defined.

(** X20. A query word that the regular-expression engine rejects makes the
    mock reranker fail, and with it the query of a pipeline in mock mode
    that rerankes: the error of the engine comes back, the generator is not
    called, and the query handler answers 500. *)
Theorem mock_rerank_rejects_bad_word
    (config : Config) (now : nat → Z)
    (regex_matches : string → string → result nat)
    (documents : list Document) (question : string) (st : RAGPipeline.PState)
    (word : string) (rest : list string) (e : string) :
  documents ≠ [] → question ≠ "" →
  Js.split_space (Js.toLowerCase question) = word :: rest →
  (∀ content, regex_matches word content = Err e) →
  (∀ results, results ≠ [] →
     MockReranker.rerank regex_matches question results (rerankTopK config)
     = Err e)
  ∧ (RAGPipeline.query config now regex_matches (RAGPipeline.MockMode documents)
       question (RAGPipeline.mkOptions true true false) st).1 = Err e
  ∧ (Server.api_query config now regex_matches (RAGPipeline.MockMode documents)
       (Server.mkBody (Some question) None None) st).1
    = Ok (Server.mkHttpResponse 500 (Server.JsonError "Internal server error")).
Proof.
  intros Hdocs Hq Hsplit Hre.
  assert (∀ results, results ≠ [] →
            MockReranker.rerank regex_matches question results
              (rerankTopK config) = Err e) as Hrerank.
  { intros [|r results] Hne; [done|].
    unfold MockReranker.rerank. rewrite Hsplit. simpl.
    unfold MockReranker.rescore. simpl. by rewrite Hre. }
  assert (∀ opts, RAGPipeline.useReranking opts = true →
            RAGPipeline.streamResponse opts = false →
            (RAGPipeline.query config now regex_matches
               (RAGPipeline.MockMode documents) question opts st).1 = Err e)
    as Hquery.
  { intros opts Hr Hs.
    pose proof (query_answer_and_sources config now regex_matches
                  (RAGPipeline.MockMode documents) question opts st) as Has.
    simpl in Has. unfold RAGPipeline.rerank_stage in Has. rewrite Hr in Has.
    pose proof (hybridSearch_nonempty documents question (topK config) Hdocs)
      as Hne.
    destruct (MockVectorStore.hybridSearch documents question (topK config))
      as [|r results] eqn:Hstore; [done|].
    simpl in Has. unfold MockReranker.rerankWithMetadata in Has.
    rewrite (Hrerank (r :: results)) in Has by done. simpl in Has.
    destruct (RAGPipeline.query config now regex_matches
                (RAGPipeline.MockMode documents) question opts st).1; [done|].
    simpl in Has. congruence. }
  split_and!; [done|by apply Hquery|].
  unfold Server.api_query, RAGPipeline.m_try_catch. simpl.
  rewrite (proj2 (String.eqb_neq question "") Hq).
  cbv [mbind RAGPipeline.M_bind mret RAGPipeline.M_ret].
  specialize (Hquery (RAGPipeline.mkOptions true true false) eq_refl eq_refl).
  by destruct (RAGPipeline.query config now regex_matches
                 (RAGPipeline.MockMode documents) question
                 (RAGPipeline.mkOptions true true false) st) as [[r|e'] st'].
Qed.

Lemma mock_rerank_rejects_bad_word_witness :
  (Server.api_query default_config Samples.clock MockStoreSpec.strict_regex
     (RAGPipeline.MockMode Samples.stored)
     (Server.mkBody (Some "c++ caching") None None) RAGPipeline.initial).1
  = Ok (Server.mkHttpResponse 500 (Server.JsonError "Internal server error")).
Proof.
  apply (mock_rerank_rejects_bad_word default_config Samples.clock
           MockStoreSpec.strict_regex Samples.stored "c++ caching"
           RAGPipeline.initial "c++" ["caching"] "Nothing to repeat").
  - discriminate.
  - discriminate.
  - reflexivity.
  - intros content. reflexivity.
Defined.

(** ** The adaptive chunker: text, strategy and metadata *)

Section adaptive_facts.
Variable recursive_split : Z → Z → string → list Document.
Variable token_split : Z → Z → string → list Document.
Variable codeMatches : string → Z.
Variable structuredMatches : string → Z.

Lemma stamp_contents name md docs :
  pageContent <$> Chunking.stamp name md docs = pageContent <$> docs.
Proof.
  apply list_eq. intros i. unfold Chunking.stamp.
  rewrite !list_lookup_fmap, list_lookup_imap. by destruct (docs !! i).
Qed.

Lemma stamp_metadata name md docs c key :
  c ∈ Chunking.stamp name md docs →
  key ≠ "chunkIndex" → key ≠ "chunkingStrategy" →
  metadata c !! "chunkingStrategy" = Some (VString name)
  ∧ metadata c !! key = md !! key.
Proof.
  intros (i & Hi)%list_elem_of_lookup Hk1 Hk2. unfold Chunking.stamp in Hi.
  apply list_lookup_imap_Some in Hi as (d & _ & ->). simpl.
  split; [by rewrite lookup_insert_eq|].
  by rewrite !lookup_insert_ne by done.
Qed.

Lemma chunk_is_stamped chunkSize chunkOverlap text md :
  ∃ stamped,
    stamped
    = Chunking.stamp
        (ChunkingSpec.strategy_name
           (Chunking.detectContentType codeMatches structuredMatches text))
        md
        (ChunkingSpec.chosen_split recursive_split token_split chunkSize
           chunkOverlap
           (Chunking.detectContentType codeMatches structuredMatches text) text)
    ∧ Chunking.chunk recursive_split token_split codeMatches structuredMatches
        chunkSize chunkOverlap text md
      = imap (λ index chunk,
          {| pageContent := pageContent chunk;
             metadata :=
               <["totalChunks" := VNumber (Z.of_nat (length stamped))]>
                 (<["hasNext" := VBool (Z.of_nat index <? Z.of_nat (length stamped) - 1)]>
                    (<["hasPrevious" := VBool (0 <? Z.of_nat index)]>
                       (<["contentType" :=
                            VString (Chunking.content_type_name
                              (Chunking.detectContentType codeMatches
                                 structuredMatches text))]>
                          (metadata chunk)))) |}) stamped.
Proof.
  eexists. split; [reflexivity|]. unfold Chunking.chunk.
  by destruct (Chunking.detectContentType codeMatches structuredMatches text).
Qed.

End adaptive_facts.

(** X21. The adaptive chunker returns the pieces of the splitter it chose,
    text for text and in their order: the recursive splitter with sizes 256
    and 64 for code, whatever sizes were configured, the token splitter for
    structured text, the recursive splitter with the configured sizes
    otherwise.  Every chunk names the detected content type and the
    strategy, and carries the caller's metadata in every field the chunker
    does not write itself. *)
Theorem adaptive_chunk_keeps_text_and_metadata
    (recursive_split token_split : Z → Z → string → list Document)
    (codeMatches structuredMatches : string → Z)
    (chunkSize chunkOverlap : Z) (text : string) (md : gmap string value) :
  pageContent
    <$> Chunking.chunk recursive_split token_split codeMatches
          structuredMatches chunkSize chunkOverlap text md
  = pageContent
      <$> ChunkingSpec.chosen_split recursive_split token_split chunkSize
            chunkOverlap
            (Chunking.detectContentType codeMatches structuredMatches text) text
  ∧ Forall (λ c,
        metadata c !! "contentType"
        = Some (VString (Chunking.content_type_name
                  (Chunking.detectContentType codeMatches structuredMatches text)))
        ∧ metadata c !! "chunkingStrategy"
          = Some (VString (ChunkingSpec.strategy_name
                    (Chunking.detectContentType codeMatches structuredMatches text)))
        ∧ ∀ key, key ∉ ChunkingSpec.written_by_chunker →
                 metadata c !! key = md !! key)
      (Chunking.chunk recursive_split token_split codeMatches
         structuredMatches chunkSize chunkOverlap text md).
Proof.
  destruct (chunk_is_stamped recursive_split token_split codeMatches
              structuredMatches chunkSize chunkOverlap text md)
    as (stamped & Hstamped & ->).
  split.
  - transitivity (pageContent <$> stamped).
    + apply list_eq. intros i.
      rewrite !list_lookup_fmap, list_lookup_imap. by destruct (stamped !! i).
    + rewrite Hstamped. apply stamp_contents.
  - apply Forall_forall. intros c (i & Hi)%list_elem_of_lookup.
    apply list_lookup_imap_Some in Hi as (c0 & Hc0 & ->). simpl.
    apply list_elem_of_lookup_2 in Hc0. rewrite Hstamped in Hc0.
    split_and!.
    + rewrite !lookup_insert_ne by done. by rewrite lookup_insert_eq.
    + rewrite !lookup_insert_ne by done.
      by apply (stamp_metadata _ _ _ _ "contentType" Hc0).
    + intros key Hkey. unfold ChunkingSpec.written_by_chunker in Hkey.
      rewrite !not_elem_of_cons in Hkey.
      destruct Hkey as (? & ? & ? & ? & ? & ? & _).
      rewrite !lookup_insert_ne by done.
      by apply (stamp_metadata _ _ _ _ key Hc0).
Qed.

(** ** The thresholds of the content type *)

Section thresholds.

Lemma ratio_exceeds_spec (matches textLength a b : Z) :
  0 ≤ textLength → 0 < a → 0 < b →
  Chunking.ratio_exceeds matches textLength (a # Z.to_pos b) = true
  ↔ a * textLength < 100 * b * matches.
Proof.
  intros HL Ha Hb. unfold Chunking.ratio_exceeds.
  destruct (textLength =? 0) eqn:E.
  - apply Z.eqb_eq in E. subst. rewrite Z.ltb_lt. nia.
  - apply Z.eqb_neq in E.
    assert (0 < inject_Z textLength)%Q as Hpos.
    { change 0%Q with (inject_Z 0). rewrite <- Zlt_Qlt. lia. }
    assert (inject_Z matches / (inject_Z textLength / 100)
            == inject_Z (100 * matches) / inject_Z textLength)%Q as Hx.
    { rewrite inject_Z_mult. field. lra. }
    assert (((a # Z.to_pos b) * inject_Z textLength < inject_Z (100 * matches))%Q
            ↔ a * textLength < 100 * b * matches) as Hz.
    { unfold Qlt, Qmult, inject_Z. simpl.
      rewrite Pos.mul_1_r, Z2Pos.id by done. nia. }
    rewrite negb_true_iff, <- not_true_iff_false, Qle_bool_iff, Hx, <- Hz.
    split.
    + intros Hn. apply Qnot_le_lt in Hn.
      apply (Qmult_lt_compat_r _ _ (inject_Z textLength)) in Hn; [|done].
      assert (inject_Z (100 * matches) / inject_Z textLength * inject_Z textLength
              == inject_Z (100 * matches))%Q as Hc by (field; lra).
      by rewrite Hc in Hn.
    + intros Hlt. apply Qlt_not_le. by apply Qlt_shift_div_l.
Qed.

End thresholds.

(** X22. A text counts as code exactly when it holds more than one code
    key word for every 200 characters, and otherwise as structured exactly
    when it holds more than three structure marks for every 1000
    characters; everything else, the empty text included, is narrative. *)
Theorem detectContentType_thresholds
    (codeMatches structuredMatches : string → Z) (text : string) :
  (Chunking.detectContentType codeMatches structuredMatches text = Chunking.code
   ↔ Z.of_nat (String.length text) < 200 * codeMatches text)
  ∧ (Chunking.detectContentType codeMatches structuredMatches text
     = Chunking.structured
     ↔ 200 * codeMatches text ≤ Z.of_nat (String.length text)
       ∧ 3 * Z.of_nat (String.length text) < 1000 * structuredMatches text)
  ∧ (Chunking.detectContentType codeMatches structuredMatches text
     = Chunking.narrative
     ↔ 200 * codeMatches text ≤ Z.of_nat (String.length text)
       ∧ 1000 * structuredMatches text ≤ 3 * Z.of_nat (String.length text)).
Proof.
  unfold Chunking.detectContentType.
  pose proof (ratio_exceeds_spec (codeMatches text)
                (Z.of_nat (String.length text)) 5 10
                ltac:(lia) ltac:(lia) ltac:(lia)) as Hcode.
  pose proof (ratio_exceeds_spec (structuredMatches text)
                (Z.of_nat (String.length text)) 3 10
                ltac:(lia) ltac:(lia) ltac:(lia)) as Hstruct.
  change (5 # Z.to_pos 10) with (5 # 10) in Hcode.
  change (3 # Z.to_pos 10) with (3 # 10) in Hstruct.
  destruct (Chunking.ratio_exceeds (codeMatches text) _ (5 # 10)).
  { assert (5 * Z.of_nat (String.length text) < 100 * 10 * codeMatches text)
      by (by apply Hcode).
    split_and!; split; try done; lia. }
  assert (¬ 5 * Z.of_nat (String.length text) < 100 * 10 * codeMatches text)
    by (intros ?%Hcode; done).
  destruct (Chunking.ratio_exceeds (structuredMatches text) _ (3 # 10)).
  { assert (3 * Z.of_nat (String.length text)
            < 100 * 10 * structuredMatches text) by (by apply Hstruct).
    split_and!; split; try done; lia. }
  assert (¬ 3 * Z.of_nat (String.length text)
            < 100 * 10 * structuredMatches text)
    by (intros ?%Hstruct; done).
  split_and!; split; try done; lia.
Qed.

(** ** The chunking pipeline *)

Section processing_facts.
Import ChunkingPipeline.
Variable strategy : string → gmap string value → list Document.
Variable timestamp : nat → string.






End processing_facts.


Section positions_per_document.
Import ChunkingPipeline.
Variable recursive_split : Z → Z → string → list Document.
Variable token_split : Z → Z → string → list Document.
Variable codeMatches : string → Z.
Variable structuredMatches : string → Z.
Variable timestamp : nat → string.

Lemma enhance_positions doc tick chunks :
  ChunkSpec.position <$> enhance timestamp doc tick chunks
  = ChunkSpec.position <$> chunks.
Proof.
  apply list_eq. intros i. unfold enhance.
  rewrite !list_lookup_fmap, list_lookup_imap.
  destruct (chunks !! i) as [c|]; [|done]. simpl.
  unfold ChunkSpec.position. simpl.
  by rewrite !lookup_insert_ne by done.
Qed.

End positions_per_document.

(** X24. With the adaptive chunker as its strategy the pipeline numbers the
    chunks of every document on their own: the positions of the returned
    chunks are those of the first document from 0 to its last chunk, then
    those of the second document from 0 again, and so on; no chunk index
    runs over the documents. *)
Theorem processDocuments_positions_per_document
    (recursive_split token_split : Z → Z → string → list Document)
    (codeMatches structuredMatches : string → Z)
    (chunkSize chunkOverlap : Z) (timestamp : nat → string)
    (documents : list ChunkingPipeline.InputDocument) :
  ChunkSpec.position
    <$> ChunkingPipeline.processDocuments
          (Chunking.chunk recursive_split token_split codeMatches
             structuredMatches chunkSize chunkOverlap)
          timestamp documents
  = documents ≫= (λ doc,
      let n := length (Chunking.chunk recursive_split token_split codeMatches
                         structuredMatches chunkSize chunkOverlap
                         (ChunkingPipeline.input_content doc)
                         (default ∅ (ChunkingPipeline.input_metadata doc))) in
      ChunkSpec.expected_position n <$> seq 0 n).
Proof.
  unfold ChunkingPipeline.processDocuments. generalize 0%nat at 1.
  induction documents as [|doc rest IH]; intros tick; [done|].
  simpl. rewrite fmap_app, enhance_positions, IH. f_equal.
  apply chunk_positions.
Qed.

Example processDocuments_of_two_documents :
  (λ c, (pageContent c, metadata c !! "chunkIndex",
         metadata c !! "sourceDocument", metadata c !! "timestamp"))
    <$> ChunkingPipeline.processDocuments
          (Chunking.chunk ChunkSpec.fixed_split ChunkSpec.fixed_split
             (λ _, 0) (λ _, 0) 16 4)
          ChunkingSpec.iso [ChunkingSpec.guide; ChunkingSpec.note]
  = [ ("Caching reduces ", Some (VNumber 0), Some (VString "guide.md"),
       Some (VString "2024-01-01T00:00:00Z"));
      ("latency a lot", Some (VNumber 1), Some (VString "guide.md"),
       Some (VString "2024-01-01T00:00:01Z"));
      ("Indexes", Some (VNumber 0), Some (VString "unknown"),
       Some (VString "2024-01-01T00:00:02Z")) ].
Proof. by vm_compute. Qed.

(** ** The mock mode of the configuration *)

(** X25. The configuration leaves mock mode only when both keys are set to
    a text that is not empty and [MOCK_MODE] is not [true]; then the keys
    of the configuration are those of the environment.  With a key missing
    or empty the mode is mock whatever [MOCK_MODE] says, so the
    placeholder [mock-api-key] is never handed to a live service. *)
Theorem mockMode_unless_both_keys (env : ConfigLoader.Env) :
  (ConfigLoader.mockMode env = false
   ↔ env !! "MOCK_MODE" ≠ Some "true"
     ∧ (∃ key, env !! "OPENAI_API_KEY" = Some key ∧ key ≠ "")
     ∧ (∃ key, env !! "COHERE_API_KEY" = Some key ∧ key ≠ ""))
  ∧ (ConfigLoader.mockMode env = false →
     env !! "OPENAI_API_KEY" = Some (ConfigLoader.openai_apiKey env)
     ∧ env !! "COHERE_API_KEY" = Some (ConfigLoader.cohere_apiKey env))
  ∧ (∀ config services,
       mockMode config = ConfigLoader.mockMode env →
       ConfigLoader.unset env "OPENAI_API_KEY" = true
       ∨ ConfigLoader.unset env "COHERE_API_KEY" = true →
       RAGPipeline.new config services = RAGPipeline.MockMode []).
Proof.
  unfold ConfigLoader.mockMode, ConfigLoader.unset, ConfigLoader.openai_apiKey,
    ConfigLoader.cohere_apiKey, ConfigLoader.env_or.
  split_and!.
  - rewrite !orb_false_iff. split.
    + intros (Hm & Ho & Hc). split_and!.
      * intros Heq. rewrite Heq in Hm. done.
      * destruct (env !! "OPENAI_API_KEY") as [k|]; [|done].
        exists k. split; [done|]. by apply String.eqb_neq.
      * destruct (env !! "COHERE_API_KEY") as [k|]; [|done].
        exists k. split; [done|]. by apply String.eqb_neq.
    + intros (Hm & (ko & -> & Hko) & (kc & -> & Hkc)). split_and!.
      * destruct (env !! "MOCK_MODE") as [s|]; [|done].
        apply String.eqb_neq. intros ->. done.
      * by apply String.eqb_neq.
      * by apply String.eqb_neq.
  - rewrite !orb_false_iff. intros (_ & Ho & Hc).
    destruct (env !! "OPENAI_API_KEY") as [ko|]; [|done].
    destruct (env !! "COHERE_API_KEY") as [kc|]; [|done].
    by rewrite Ho, Hc.
  - intros config services Hmode Hunset. unfold RAGPipeline.new.
    rewrite Hmode.
    destruct Hunset as [->| ->]; by rewrite ?orb_true_r.
Qed.

Example mockMode_of_two_environments :
  ConfigLoader.mockMode LoaderSpec.one_key = true
  ∧ ConfigLoader.cohere_apiKey LoaderSpec.one_key = "mock-api-key"
  ∧ ConfigLoader.mockMode LoaderSpec.both_keys = false
  ∧ ConfigLoader.mockMode ∅ = true.
Proof. by vm_compute. Qed.

(** ** Loading a directory *)

Section load_facts.
Import IngestFiles LoaderSpec.

Lemma load_loop_passed_over es1 e es2 :
  passed_over e →
  load_loop load_entry (es1 ++ e :: es2) = load_loop load_entry (es1 ++ es2).
Proof.
  intros He. induction es1 as [|x es1 IH]; simpl.
  - destruct He as [->|[(name & error & ->)|(name & error & ->)]]; [done| |];
      simpl; by destruct (String.prefix "." name).
  - by rewrite IH.
Qed.

Lemma load_loop_cut es1 name error es2 :
  String.prefix "." name = false →
  load_loop load_entry (es1 ++ Unreadable name error :: es2)
  = load_loop load_entry es1.
Proof.
  intros Hname. induction es1 as [|x es1 IH]; simpl.
  - by rewrite Hname.
  - by rewrite IH.
Qed.

Lemma load_loop_file name doc rest :
  String.prefix "." name = false →
  load_loop load_entry (File name (Ok doc) :: rest)
  = doc :: load_loop load_entry rest.
Proof. intros Hname. simpl. by rewrite Hname. Qed.

Lemma load_loop_directory name listing rest :
  String.prefix "." name = false →
  load_loop load_entry (Directory name listing :: rest)
  = loadDocumentsFromDirectory listing ++ load_loop load_entry rest.
Proof. intros Hname. simpl. rewrite Hname. by destruct listing. Qed.

End load_facts.

(** X26. Loading a directory never fails and loses only what cannot be
    read.  A name that starts with a dot, a file that cannot be loaded and
    a subdirectory that cannot be listed are passed over: the result is
    that of the directory without them.  A name on which [stat] fails ends
    the loop of its own directory: the documents before it are kept, the
    entries behind it are not visited; the directory above goes on with
    its next entry. *)
Theorem loadDocumentsFromDirectory_skips_and_cuts
    (before behind : list IngestFiles.Entry) :
  (∀ error, IngestFiles.loadDocumentsFromDirectory (Err error) = [])
  ∧ (∀ e, LoaderSpec.passed_over e →
       IngestFiles.loadDocumentsFromDirectory (Ok (before ++ e :: behind))
       = IngestFiles.loadDocumentsFromDirectory (Ok (before ++ behind)))
  ∧ (∀ name error, String.prefix "." name = false →
       IngestFiles.loadDocumentsFromDirectory
         (Ok (before ++ IngestFiles.Unreadable name error :: behind))
       = IngestFiles.loadDocumentsFromDirectory (Ok before))
  ∧ (∀ name listing, String.prefix "." name = false →
       IngestFiles.loadDocumentsFromDirectory
         (Ok (IngestFiles.Directory name listing :: behind))
       = IngestFiles.loadDocumentsFromDirectory listing
         ++ IngestFiles.loadDocumentsFromDirectory (Ok behind))
  ∧ (∀ name doc, String.prefix "." name = false →
       IngestFiles.loadDocumentsFromDirectory
         (Ok (IngestFiles.File name (Ok doc) :: behind))
       = doc :: IngestFiles.loadDocumentsFromDirectory (Ok behind)).
Proof.
  split_and!.
  - done.
  - intros e He. by apply load_loop_passed_over.
  - intros name error Hname. by apply load_loop_cut.
  - intros name listing Hname. by apply load_loop_directory.
  - intros name doc Hname. by apply load_loop_file.
Qed.

Example loading_the_sample_tree :
  IngestFiles.file_content
    <$> IngestFiles.loadDocumentsFromDirectory (Ok LoaderSpec.sample_tree)
  = ["alpha"; "beta"; "delta"].
Proof. by vm_compute. Qed.
